(** * Batched beam search of [eight_mile/tf/layers.py]

    A shallow embedding of [BeamSearchBase.__call__] and of the helpers it
    uses ([masked_fill], [gather_k], [update_lengths], [no_length_penalty]),
    together with the tensor primitives the loop body relies on.

    Conventions.
    - A float32 tensor is a nested list of exact rationals ([Q]); results
      about scores are stated up to [Qeq].  Rounding is not modelled.
      Answers of the decoder that are not finite lie outside these tensors;
      what the fills make of an infinity is given entry by entry in
      [masked_fill_ieee].
    - An int32 tensor is a nested list of [Z]; overflow is not modelled.
    - A framework call that raises is a [result] carrying the [error]. *)

From Stdlib Require Import List ZArith QArith Qminmax Bool Lia Lqa Permutation Sorted.
Import ListNotations.
Open Scope nat_scope.

(** ** Errors raised by the tensor framework *)

Inductive error : Type :=
| FillError      (* tf.fill with a negative dimension *)
| RankError      (* [-1] on the shape of a rank-0 tensor *)
| ReshapeError   (* tf.reshape: element counts differ, or -1 cannot be inferred *)
| SliceError     (* strided slice index out of bounds *)
| TopKError      (* tf.math.top_k: input must have at least k columns *)
| GatherError    (* tf.gather / tf.gather_nd index out of range *)
| StackError.    (* tf.stack of tensors whose shapes differ *)

Inductive result (A : Type) : Type :=
| Ok (a : A)
| Err (e : error).
Arguments Ok {A} a.
Arguments Err {A} e.

Definition bind {A B} (c : result A) (k : A -> result B) : result B :=
  match c with
  | Ok a => k a
  | Err e => Err e
  end.

Notation "x <- c ;; k" := (bind c (fun x => k))
  (at level 61, c at next level, right associativity).
Notation "' pat <- c ;; k" := (bind c (fun x => match x with pat => k end))
  (at level 61, pat pattern, c at next level, right associativity).

Fixpoint mapM {A B} (f : A -> result B) (l : list A) : result (list B) :=
  match l with
  | [] => Ok []
  | x :: xs => y <- f x ;; ys <- mapM f xs ;; Ok (y :: ys)
  end.

Definition of_option {A} (e : error) (o : option A) : result A :=
  match o with
  | Some a => Ok a
  | None => Err e
  end.

(** ** Index-space helpers for dense tensors *)

(** [tabulate n f] is the rank-1 tensor [f 0; ...; f (n-1)]. *)
Definition tabulate {A} (n : nat) (f : nat -> A) : list A := map f (seq 0 n).

(** [chunks n size l]: row-major reshape of a flat buffer into [n] rows of
    [size] entries. *)
Fixpoint chunks {A} (n size : nat) (l : list A) : list (list A) :=
  match n with
  | O => []
  | S n' => firstn size l :: chunks n' size (skipn size l)
  end.

(** Pairs every entry with its position. *)
Definition indexed {A} (l : list A) : list (A * nat) :=
  combine l (seq 0 (length l)).

Definition get2 {A} (d : A) (t : list (list A)) (b k : nat) : A :=
  nth k (nth b t []) d.

Definition get3 {A} (d : A) (t : list (list (list A))) (b k v : nat) : A :=
  nth v (nth k (nth b t []) []) d.

(** ** Special vocabulary ids *)

(** Modelled from the spec: [Offsets] lives in [eight_mile/utils.py], which is
    not part of the sources at hand; the spec fixes PAD=0, START=1, END=2. *)
Module Offsets.
Definition PAD : Z := 0.
Definition GO : Z := 1.
Definition EOS : Z := 2.
End Offsets.

(** ** [masked_fill]

    [t * (1 - tf.cast(mask, t.dtype)) + value * tf.cast(mask, t.dtype)],
    given here on one finite entry; tensors apply it entry by entry. *)

Definition cast_float (m : bool) : Q := if m then 1%Q else 0%Q.
Definition cast_int (m : bool) : Z := if m then 1%Z else 0%Z.

Definition masked_fill (t : Q) (mask : bool) (value : Q) : Q :=
  (t * (1 - cast_float mask) + value * cast_float mask)%Q.

Definition masked_fill_int (t : Z) (mask : bool) (value : Z) : Z :=
  (t * (1 - cast_int mask) + value * cast_int mask)%Z.

(** The lengths are an int32 tensor, and [idx] is converted to one: the
    integer model is the code's arithmetic on values in this range. *)
Definition in_int32 (z : Z) : bool :=
  ((- 2147483648 <=? z) && (z <? 2147483648))%Z.

(** ** Length penalties *)

(** [no_length_penalty]: [np.ones_like(lengths)], one entry at a time. *)
Definition no_length_penalty (length : Z) : Q := 1%Q.

(** ** [update_lengths] *)

Definition update_lengths_entry (length : Z) (eos : bool) (idx : Z) : Z :=
  let updatable_lengths := (length =? 0)%Z in
  let lengths_mask := updatable_lengths && eos in
  masked_fill_int length lengths_mask idx.

Definition update_lengths (lengths : list (list Z)) (eoses : list (list bool))
    (idx : Z) : list (list Z) :=
  map (fun row => map (fun le => update_lengths_entry (fst le) (snd le) idx)
                      (combine (fst row) (snd row)))
      (combine lengths eoses).

(** ** Ranking: [tf.math.top_k]

    The values come back in descending order and, among equal values, the
    entry with the lower index comes first.  The primitive only compares and
    moves entries, so it is given for any entry type with a strict
    "greater than" test. *)

Section Ranking.
Context {A : Type} (gtb : A -> A -> bool).

Fixpoint insert_desc (x : A * nat) (l : list (A * nat)) : list (A * nat) :=
  match l with
  | [] => [x]
  | y :: l' => if gtb (fst y) (fst x) then y :: insert_desc x l' else x :: l
  end.

Fixpoint sort_desc (l : list (A * nat)) : list (A * nat) :=
  match l with
  | [] => []
  | x :: xs => insert_desc x (sort_desc xs)
  end.

(** One row of [top_k]: the [k] best (value, index) pairs. *)
Definition top_k_row (k : nat) (row : list A) : list (A * nat) :=
  firstn k (sort_desc (indexed row)).

(** [tf.math.top_k] on a [bsz, ncols] tensor. *)
Definition top_k (ncols : nat) (flat_scores : list (list A)) (k : nat)
    : result (list (list (A * nat))) :=
  if ncols <? k then Err TopKError
  else Ok (map (top_k_row k) flat_scores).

(** [tf.stack] of the index grids with [best_idx]: the grids have the
    leading dimension of [a] and [k] columns, and [best_idx] must have the
    same. *)
Definition stackable (n k : nat) (best_idx : list (list nat)) : bool :=
  (length best_idx =? n) && forallb (fun row => length row =? k) best_idx.

(** [gather_k a b best_idx k]: the tensor whose entry [(r, j)], for [r] below
    the leading dimension of [a] and [j < k], is [b[r, best_idx[r, j]]]. *)
Definition gather_k (a b : list (list A)) (best_idx : list (list nat)) (k : nat)
    : result (list (list A)) :=
  if negb (stackable (length a) k best_idx) then Err StackError
  else
    mapM (fun r =>
            mapM (fun j =>
                    idx <- of_option GatherError (nth_error (nth r best_idx []) j) ;;
                    of_option GatherError (nth_error (nth r b []) idx))
                 (seq 0 k))
         (seq 0 (length a)).

End Ranking.

Definition Qgtb (x y : Q) : bool := negb (Qle_bool x y).

(** ** Tensors handed over by the decoder *)

(** A dense float tensor as the framework holds it: its shape and its entries
    in row-major order. *)
Record tensor : Type := { shape : list nat; data : list Q }.

(** [get_shape_as_list(t)[-1]] *)
Definition last_dim (t : tensor) : result nat :=
  match rev (shape t) with
  | [] => Err RankError
  | V :: _ => Ok V
  end.

(** [tf.reshape(x, (bsz, -1))] on data already laid out as [bsz] rows: the
    missing dimension cannot be inferred when [bsz] is zero. *)
Definition reshape_rows {A} (bsz : nat) (x : list (list A)) : result (list (list A)) :=
  if bsz =? 0 then Err ReshapeError else Ok x.

(** [tf.gather(params, indices)] on the leading axis. *)
Definition gather {A} (params : list A) (indices : list nat) : result (list A) :=
  mapM (fun i => of_option GatherError (nth_error params i)) indices.

(** [tf.reduce_sum(tf.cast(lengths != 0, np.int32))] *)
Definition count_nonzero (lengths : list (list Z)) : nat :=
  length (filter (fun l => negb (l =? 0)%Z) (concat lengths)).

(** The value [masked_fill] writes over the scores of a finished beam. *)
Definition NEG_FILL : Q := (- (100000000 # 1))%Q.

(** ** The loop body, stage by stage *)

(** What lines 2863-2870 produce: the ranked scores, the log-probabilities
    carried forward, and each flat index split into beam and token. *)
Record selection (A : Type) : Type := {
  sel_scores : list (list A);
  sel_log_probs : list (list A);
  sel_beams : list (list nat);
  sel_idx : list (list nat)
}.
Arguments sel_scores {A} s.
Arguments sel_log_probs {A} s.
Arguments sel_beams {A} s.
Arguments sel_idx {A} s.

Section Selection.
Context {A : Type} (gtb : A -> A -> bool).

(** First step, [path_scores = probs[:, 0, :]] followed by
    [flat_scores = tf.reshape(path_scores, (bsz, -1))]. *)
Definition first_step_scores (bsz K : nat) (probs : list (list (list A)))
    : result (list (list A)) :=
  path_scores <- (if K =? 0 then Err SliceError
                  else Ok (map (fun row => nth 0 row []) probs)) ;;
  reshape_rows bsz path_scores.

(** [top_k] over the flat scores, [gather_k] of the flattened [probs] at the
    same indices, then [best_idx // V] and [best_idx % V]. *)
Definition select (K V ncols : nat) (flat_scores : list (list A))
    (probs : list (list (list A))) : result (selection A) :=
  best <- top_k gtb ncols flat_scores K ;;
  let best_scores := map (map fst) best in
  let best_idx := map (map snd) best in
  let probs := map (@concat A) probs in
  log_probs <- gather_k flat_scores probs best_idx K ;;
  let best_beams := map (map (fun idx => idx / V)) best_idx in
  let best_idx := map (map (fun idx => idx mod V)) best_idx in
  Ok {| sel_scores := best_scores; sel_log_probs := log_probs;
        sel_beams := best_beams; sel_idx := best_idx |}.

End Selection.

Module BeamSearchBase.

(** [self]: the beam width and the penalty chosen by [__init__].  A penalty
    maps a tensor of lengths to a tensor of factors of the same leading
    dimensions; both penalties of the source do so one entry at a time, and
    that entry-wise function is what [length_penalty] holds. *)
Record config : Type := { K : Z; length_penalty : Z -> Q }.

Definition __init__ (beam : Z) (length_penalty : option (Z -> Q)) : config :=
  {| K := beam;
     length_penalty := match length_penalty with
                       | Some f => f
                       | None => no_length_penalty
                       end |}.

(** The methods a decoder overrides. *)
Record decoder (Enc Extra : Type) : Type := {
  init : Enc -> Extra;
  step : list (list (list Z)) -> Extra -> tensor * Extra;
  update : list nat -> Extra -> Extra
}.
Arguments init {Enc Extra} d.
Arguments step {Enc Extra} d.
Arguments update {Enc Extra} d.

(** The variables the loop carries from one iteration to the next. *)
Record state (Extra : Type) : Type := {
  paths : list (list (list Z));
  log_probs : list (list Q);
  lengths : list (list Z);
  extra : Extra;
  best_scores : list (list Q)
}.
Arguments paths {Extra} s.
Arguments log_probs {Extra} s.
Arguments lengths {Extra} s.
Arguments extra {Extra} s.
Arguments best_scores {Extra} s.

Section Body.
Context {Enc Extra : Type}.
Variable penalty : Z -> Q.
Variable d : decoder Enc Extra.
Variables bsz Kn : nat.

(** [V = get_shape_as_list(probs)[-1]; probs = tf.reshape(probs, (bsz, K, V))] *)
Definition reshape_probs (t : tensor) : result (nat * list (list (list Q))) :=
  V <- last_dim t ;;
  if length (data t) =? bsz * Kn * V
  then Ok (V, map (chunks Kn V) (chunks bsz (Kn * V) (data t)))
  else Err ReshapeError.

(** Lines 2833-2850: mask the finished beams, then add the running
    log-probability. *)
Definition combine_log_probs (V : nat) (probs : list (list (list Q)))
    (log_probs : list (list Q)) (lengths : list (list Z)) : list (list (list Q)) :=
  tabulate bsz (fun b => tabulate Kn (fun k => tabulate V (fun v =>
    let done_mask := negb (get2 0%Z lengths b k =? 0)%Z in
    let eos_mask := (Z.of_nat v =? Offsets.EOS)%Z in
    let mask := done_mask && eos_mask in
    let p := masked_fill (get3 0%Q probs b k v) done_mask NEG_FILL in
    let p := masked_fill p mask 0%Q in
    (get2 0 log_probs b k + p)%Q))).

(** [valid_lengths = masked_fill(lengths, lengths == 0, i + 1)] *)
Definition valid_lengths (i : Z) (lengths : list (list Z)) : list (list Z) :=
  tabulate bsz (fun b => tabulate Kn (fun k =>
    let l := get2 0%Z lengths b k in
    masked_fill_int l (l =? 0)%Z (i + 1))).

(** [path_scores = probs / self.length_penalty(valid_lengths)] *)
Definition penalized_scores (V : nat) (probs : list (list (list Q)))
    (valid_lengths : list (list Z)) : list (list (list Q)) :=
  tabulate bsz (fun b => tabulate Kn (fun k => tabulate V (fun v =>
    (get3 0 probs b k v / penalty (get2 0%Z valid_lengths b k))%Q))).

(** Lines 2831-2862: the scores to rank, how many there are per row, and the
    value of [probs] the log-probabilities are later gathered from. *)
Definition score (i : Z) (V : nat) (probs : list (list (list Q)))
    (log_probs : list (list Q)) (lengths : list (list Z))
    : result (list (list (list Q)) * list (list Q) * nat) :=
  if (0 <? i)%Z then
    let probs := combine_log_probs V probs log_probs lengths in
    let path_scores := penalized_scores V probs (valid_lengths i lengths) in
    flat_scores <- reshape_rows bsz (map (@concat Q) path_scores) ;;
    Ok (probs, flat_scores, Kn * V)
  else
    flat_scores <- first_step_scores bsz Kn probs ;;
    Ok (probs, flat_scores, V).

(** Lines 2875-2877: beam indices made global to the flattened state. *)
Definition flatten_beams (best_beams : list (list nat)) : list nat :=
  let offsets := tabulate bsz (fun b => b * Kn) in
  let offset_beams :=
    map (fun bo => map (fun beam => beam + snd bo) (fst bo))
        (combine best_beams offsets) in
  concat offset_beams.

(** Lines 2879-2883: copy the origin paths and append the selected tokens. *)
Definition extend_paths (paths : list (list (list Z))) (flat_beams : list nat)
    (best_idx : list (list nat)) : result (list (list (list Z))) :=
  let flat_paths := concat paths in
  new_paths <- gather flat_paths flat_beams ;;
  let new_paths := chunks bsz Kn new_paths in
  Ok (map (fun pt => map (fun p => fst p ++ [Z.of_nat (snd p)])
                         (combine (fst pt) (snd pt)))
          (combine new_paths best_idx)).

(** Lines 2887-2889: the lengths follow their beams. *)
Definition regather_lengths (lengths : list (list Z)) (flat_beams : list nat)
    : result (list (list Z)) :=
  let flat_lengths := concat lengths in
  lengths <- gather flat_lengths flat_beams ;;
  Ok (chunks bsz Kn lengths).

(** Lines 2893-2894: [eoses = paths[:, :, -1] == Offsets.EOS] *)
Definition eoses_of (paths : list (list (list Z))) : list (list bool) :=
  map (map (fun p => (last p 0%Z =? Offsets.EOS)%Z)) paths.

(** Line 2897: the test that guards [break]. *)
Definition exit_test (lengths : list (list Z)) : bool :=
  count_nonzero lengths =? Kn.

(** First half of the loop body, lines 2828-2870: ask the decoder, score the
    candidates and pick the best [K] of each row. *)
Definition rank (i : Z) (st : state Extra) : result (selection Q * Extra) :=
  let (t, extra) := step d (paths st) (extra st) in
  '(V, probs) <- reshape_probs t ;;
  '(probs, flat_scores, ncols) <- score i V probs (log_probs st) (lengths st) ;;
  sel <- select Qgtb Kn V ncols flat_scores probs ;;
  Ok (sel, extra).

(** Second half, lines 2875-2896: move the per-beam state and update the
    lengths. *)
Definition advance (i : Z) (st : state Extra) (sel : selection Q) (extra : Extra)
    : result (state Extra) :=
  let flat_beams := flatten_beams (sel_beams sel) in
  paths <- extend_paths (paths st) flat_beams (sel_idx sel) ;;
  lengths <- regather_lengths (lengths st) flat_beams ;;
  let extra := update d flat_beams extra in
  let lengths := update_lengths lengths (eoses_of paths) (i + 1) in
  Ok {| paths := paths; log_probs := sel_log_probs sel; lengths := lengths;
        extra := extra; best_scores := sel_scores sel |}.

(** One pass through the body of the [for] loop, up to the exit test. *)
Definition body (i : Z) (st : state Extra) : result (state Extra) :=
  '(sel, extra) <- rank i st ;;
  advance i st sel extra.

(** [for i in range(n)] started at [i]; the flag tells whether [break] was
    taken, so that the [else] clause runs exactly when it is [false]. *)
Fixpoint loop (n : nat) (i : Z) (st : state Extra) : result (bool * state Extra) :=
  match n with
  | O => Ok (false, st)
  | S n' =>
      st' <- body i st ;;
      if exit_test (lengths st') then Ok (true, st')
      else loop n' (i + 1)%Z st'
  end.

(** The [else] clause of the loop, lines 2902-2913. *)
Definition finalize (mxlen : Z) (st : state Extra) : result (state Extra) :=
  let (t, extra) := step d (paths st) (extra st) in
  '(V, probs) <- reshape_probs t ;;
  let eos := Z.to_nat Offsets.EOS in
  probs <- (if V <=? eos then Err SliceError
            else Ok (tabulate bsz (fun b => tabulate Kn (fun k =>
                       get3 0%Q probs b k eos)))) ;;
  let probs := tabulate bsz (fun b => tabulate Kn (fun k =>
    masked_fill (get2 0%Q probs b k)
                (negb (get2 0%Z (lengths st) b k =? 0)%Z) 0%Q)) in
  let log_probs := tabulate bsz (fun b => tabulate Kn (fun k =>
    (get2 0 (log_probs st) b k + get2 0 probs b k)%Q)) in
  let paths := map (map (fun p => p ++ [Offsets.EOS])) (paths st) in
  let ones := map (map (fun _ => true)) (lengths st) in
  let lengths := update_lengths (lengths st) ones mxlen in
  let best_scores := tabulate bsz (fun b => tabulate Kn (fun k =>
    (get2 0 log_probs b k / penalty (get2 0%Z lengths b k))%Q)) in
  Ok {| paths := paths; log_probs := log_probs; lengths := lengths;
        extra := extra; best_scores := best_scores |}.

(** The state before the loop, lines 2819-2825. *)
Definition initial (enc : Enc) : state Extra :=
  {| paths := repeat (repeat [Offsets.GO] Kn) bsz;
     log_probs := repeat (repeat 0%Q Kn) bsz;
     lengths := repeat (repeat 0%Z Kn) bsz;
     extra := init d enc;
     best_scores := [] |}.

End Body.

(** What the search returns: [(paths, lengths, best_scores)]. *)
Definition output : Type :=
  (list (list (list Z)) * list (list Z) * list (list Q))%type.

(** [BeamSearchBase.__call__]; [bsz] is the leading dimension of
    [encoder_outputs.output] and [mxlen] the keyword argument of that name
    (100 when the caller leaves it out). *)
Definition __call__ {Enc Extra : Type} (self : config) (d : decoder Enc Extra)
    (encoder_outputs : Enc) (bsz : nat) (mxlen : Z) : result output :=
  if (K self <? 0)%Z then Err FillError
  else
    let Kn := Z.to_nat (K self) in
    let st := initial d bsz Kn encoder_outputs in
    '(broke, st) <- loop (length_penalty self) d bsz Kn (Z.to_nat (mxlen - 1)) 0%Z st ;;
    st <- (if broke : bool then Ok st
           else finalize (length_penalty self) d bsz Kn mxlen st) ;;
    Ok (map (map (@tl Z)) (paths st), lengths st, best_scores st).

End BeamSearchBase.

(** ** Log-probabilities with minus infinity (scenario A)

    The first step does no arithmetic on the scores: it slices, ranks and
    gathers.  [first_step_scores] and [select] are therefore available at
    any ordered score type, and scenario A is run with this one. *)

Inductive logp : Type :=
| NegInf
| Fin (q : Q).

Definition logp_gtb (x y : logp) : bool :=
  match x, y with
  | NegInf, _ => false
  | Fin _, NegInf => true
  | Fin a, Fin b => Qgtb a b
  end.

(** Scenario A: [B=1, K=2, V=4]; both copies of the start hypothesis get the
    distribution [-inf, -inf, -5, 0] over PAD, START, END, A. *)
Definition scenario_A : list (list (list logp)) :=
  [[ [NegInf; NegInf; Fin (-5 # 1); Fin 0];
     [NegInf; NegInf; Fin (-5 # 1); Fin 0] ]].

(** ** Greedy decoding

    The reference the beam search of width one is compared with, written
    from the description of greedy decoding: one hypothesis, extended at each
    step by the arg-max token of the decoder's distribution, stopped by the
    end token or closed with one after the last step. *)

(** The first position holding the greatest entry. *)
Fixpoint max_index (l : list Q) : nat :=
  match l with
  | [] => 0
  | x :: xs =>
      match xs with
      | [] => 0
      | _ :: _ => let j := max_index xs in
                  if Qgtb (nth j xs 0%Q) x then S j else 0
      end
  end.

Section Greedy.
Context {Enc Extra : Type}.
Variable d : BeamSearchBase.decoder Enc Extra.

(** [n] steps are left, [i] have been taken; returns the hypothesis and its
    length. *)
Fixpoint greedy_loop (mxlen : Z) (n : nat) (i : Z) (path : list Z) (e : Extra)
    : list Z * Z :=
  match n with
  | O => (path ++ [Offsets.EOS], mxlen)
  | S n' =>
      let (t, e') := BeamSearchBase.step d [[path]] e in
      let token := Z.of_nat (max_index (data t)) in
      if (token =? Offsets.EOS)%Z then (path ++ [token], (i + 1)%Z)
      else greedy_loop mxlen n' (i + 1)%Z (path ++ [token]) e'
  end.

(** The decoded sequence, start token removed, and its length. *)
Definition greedy_decode (enc : Enc) (mxlen : Z) : list Z * Z :=
  let (path, len) :=
    greedy_loop mxlen (Z.to_nat (mxlen - 1)) 0%Z [Offsets.GO]
                (BeamSearchBase.init d enc) in
  (tl path, len).

End Greedy.

(** ** Shapes *)

Definition shaped2 {A} (n m : nat) (t : list (list A)) : Prop :=
  length t = n /\ Forall (fun r => length r = m) t.

Definition shaped3 {A} (n m p : nat) (t : list (list (list A))) : Prop :=
  length t = n /\ Forall (shaped2 m p) t.

(** The decoder answered with [bsz * Kn] distributions over [V] tokens. *)
Definition answers (bsz Kn V : nat) (t : tensor) : Prop :=
  last_dim t = Ok V /\ length (data t) = bsz * Kn * V.

(** All beams of all rows are finished. *)
Definition all_finished (lengths : list (list Z)) : Prop :=
  Forall (Forall (fun l => l <> 0%Z)) lengths.

(** ** Vocabulary for the statements *)

(** The [j]-th best (score, flat index) pair of row [b] of the scores. *)
Definition picked {A} (gtb : A -> A -> bool) (d : A) (K : nat)
    (flat_scores : list (list A)) (b j : nat) : A * nat :=
  nth j (top_k_row gtb K (nth b flat_scores [])) (d, 0).

(** The decoder's answer after [tf.reshape(probs, (bsz, K, V))]. *)
Definition probs_of (bsz Kn V : nat) (t : tensor) : list (list (list Q)) :=
  map (chunks Kn V) (chunks bsz (Kn * V) (data t)).

(** The step log-probability the combiner gives token [v] of a beam of
    length [len] whose decoder log-probability is [p], lines 2848-2849. *)
Definition masked_log_prob (len : Z) (v : nat) (p : Q) : Q :=
  let done_mask := negb (len =? 0)%Z in
  masked_fill (masked_fill p done_mask NEG_FILL)
              (done_mask && (Z.of_nat v =? Offsets.EOS)%Z) 0%Q.

(** The selection [select] makes, in closed form. *)
Definition chosen {A} (gtb : A -> A -> bool) (d : A) (bsz K V : nat)
    (flat_scores : list (list A)) (probs : list (list (list A))) : selection A :=
  let best := map (top_k_row gtb K) flat_scores in
  {| sel_scores := map (map fst) best;
     sel_log_probs := tabulate bsz (fun b => tabulate K (fun j =>
       nth (snd (picked gtb d K flat_scores b j)) (concat (nth b probs [])) d));
     sel_beams := map (map (fun idx => idx / V)) (map (map snd) best);
     sel_idx := map (map (fun idx => idx mod V)) (map (map snd) best) |}.

(** Candidate log-probabilities and ranking scores of a step [i > 0]. *)
Definition later_candidates {Extra} (bsz Kn V : nat) (t : tensor)
    (st : BeamSearchBase.state Extra) : list (list (list Q)) :=
  BeamSearchBase.combine_log_probs bsz Kn V (probs_of bsz Kn V t)
    (BeamSearchBase.log_probs st) (BeamSearchBase.lengths st).

Definition later_scores {Extra} (penalty : Z -> Q) (bsz Kn V : nat) (i : Z)
    (t : tensor) (st : BeamSearchBase.state Extra) : list (list Q) :=
  map (@concat Q)
    (BeamSearchBase.penalized_scores penalty bsz Kn V
       (later_candidates bsz Kn V t st)
       (BeamSearchBase.valid_lengths bsz Kn i (BeamSearchBase.lengths st))).

(** Ranking scores of the first step: the distribution of beam 0. *)
Definition first_scores (bsz Kn V : nat) (t : tensor) : list (list Q) :=
  map (fun row => nth 0 row []) (probs_of bsz Kn V t).



(** A [bsz x Kn] tensor re-read through the origin beams of the selection. *)
Definition moved {A} (d : A) (bsz Kn : nat) (x : list (list A))
    (beams : list (list nat)) : list (list A) :=
  tabulate bsz (fun b => tabulate Kn (fun j => get2 d x b (get2 0 beams b j))).

(** The paths after a step: the origin path followed by the selected token. *)
Definition next_paths (bsz Kn : nat) (paths : list (list (list Z)))
    (sel : selection Q) : list (list (list Z)) :=
  tabulate bsz (fun b => tabulate Kn (fun j =>
    get2 [] paths b (get2 0 (sel_beams sel) b j)
    ++ [Z.of_nat (get2 0 (sel_idx sel) b j)])).

(** The state [advance] builds, in closed form. *)
Definition next_state {Enc Extra} (d : BeamSearchBase.decoder Enc Extra)
    (bsz Kn : nat) (i : Z) (st : BeamSearchBase.state Extra)
    (sel : selection Q) (e : Extra) : BeamSearchBase.state Extra :=
  let paths := next_paths bsz Kn (BeamSearchBase.paths st) sel in
  {| BeamSearchBase.paths := paths;
     BeamSearchBase.log_probs := sel_log_probs sel;
     BeamSearchBase.lengths :=
       update_lengths (moved 0%Z bsz Kn (BeamSearchBase.lengths st) (sel_beams sel))
                      (BeamSearchBase.eoses_of paths) (i + 1);
     BeamSearchBase.extra :=
       BeamSearchBase.update d (BeamSearchBase.flatten_beams bsz Kn (sel_beams sel)) e;
     BeamSearchBase.best_scores := sel_scores sel |}.

(** The per-beam bookkeeping has the dimensions [bsz x Kn]. *)
Definition shaped_state {Extra} (bsz Kn : nat) (st : BeamSearchBase.state Extra)
    : Prop :=
  shaped2 bsz Kn (BeamSearchBase.paths st) /\
  shaped2 bsz Kn (BeamSearchBase.lengths st).

(** The tensor the decoder answers with when asked at state [st]. *)
Definition asked {Enc Extra} (d : BeamSearchBase.decoder Enc Extra)
    (st : BeamSearchBase.state Extra) : tensor :=
  fst (BeamSearchBase.step d (BeamSearchBase.paths st) (BeamSearchBase.extra st)).

(** ** A table-driven decoder for the concrete runs

    Every batch row comes with a context number; a hypothesis is answered
    with [dist context path].  [init] gives each of the [Kn] beams of a row
    the row's context and [update] moves the contexts with the beams. *)
Definition table_decoder (Kn V : nat) (dist : nat -> list Z -> list Q)
    : BeamSearchBase.decoder (list nat) (list nat) :=
  {| BeamSearchBase.init := fun enc => flat_map (fun c => repeat c Kn) enc;
     BeamSearchBase.step := fun paths extra =>
       ({| shape := [length extra; V];
           data := concat (map (fun cp => dist (fst cp) (snd cp))
                               (combine extra (concat paths))) |}, extra);
     BeamSearchBase.update := fun beams extra => map (fun i => nth i extra 0) beams |}.

(** Context 0 prefers the end token, any other context prefers token 3. *)
Definition demo_dist (context : nat) (path : list Z) : list Q :=
  match context with
  | O => [-9 # 1; -9 # 1; 0; -5 # 1]%Q
  | S _ => [-9 # 1; -9 # 1; -5 # 1; 0]%Q
  end.

Definition demo_decoder (Kn : nat) : BeamSearchBase.decoder (list nat) (list nat) :=
  table_decoder Kn 4 demo_dist.

(** A decoder that, whatever the context, puts nearly all mass on the end
    token and a faint rest on token 3. *)
Definition faint_dist (context : nat) (path : list Z) : list Q :=
  [-300000000 # 1; -300000000 # 1; 0; -200000000 # 1]%Q.

Definition faint_decoder : BeamSearchBase.decoder (list nat) (list nat) :=
  table_decoder 2 4 faint_dist.

(** The state of [demo_decoder 2] on one row of context 1 after its first
    step: beam 0 holds token 3, beam 1 has just finished. *)
Definition demo_state : BeamSearchBase.state (list nat) :=
  {| BeamSearchBase.paths := [[[1; 3]; [1; 2]]]%Z;
     BeamSearchBase.log_probs := [[0; -5 # 1]]%Q;
     BeamSearchBase.lengths := [[0; 1]]%Z;
     BeamSearchBase.extra := [1; 1];
     BeamSearchBase.best_scores := [[0; -5 # 1]]%Q |}.

(** A decoder for a single hypothesis: token 3 is preferred until the
    hypothesis holds three tokens, the end token afterwards. *)
Definition solo_decoder : BeamSearchBase.decoder unit unit :=
  {| BeamSearchBase.init := fun _ => tt;
     BeamSearchBase.step := fun paths _ =>
       ({| shape := [1; 4];
           data := if length (hd [] (concat paths)) <? 3
                   then demo_dist 1 [] else demo_dist 0 [] |}, tt);
     BeamSearchBase.update := fun _ e => e |}.

(** ** Vocabulary for the run invariants *)

(** The 1-based position of the first end token of a sequence, 0 when the
    sequence holds none. *)
Fixpoint first_end (seq : list Z) : Z :=
  match seq with
  | [] => 0%Z
  | t :: rest =>
      if (t =? Offsets.EOS)%Z then 1%Z
      else let r := first_end rest in
           if (r =? 0)%Z then 0%Z else (r + 1)%Z
  end.

(** After [T] passes through the loop body: the bookkeeping is [bsz x Kn],
    every path holds the start token and [T] more, and every length is the
    position of the first end token of its path (start token aside). *)
Definition tracked {Extra} (bsz Kn T : nat) (st : BeamSearchBase.state Extra)
    : Prop :=
  shaped_state bsz Kn st /\
  (1 <= T -> shaped2 bsz Kn (BeamSearchBase.best_scores st)) /\
  forall b k, b < bsz -> k < Kn ->
    length (get2 [] (BeamSearchBase.paths st) b k) = S T /\
    get2 0%Z (BeamSearchBase.lengths st) b k
    = first_end (tl (get2 [] (BeamSearchBase.paths st) b k)).

(** The order [tf.math.top_k] returns its entries in: a greater score first
    and, among equal scores, the lower index first. *)
Definition ranks_before (a b : Q * nat) : Prop :=
  (fst b < fst a)%Q \/ ((fst a == fst b)%Q /\ snd a < snd b).

(** * Scores that are not finite

    The scores are float32 values.  Beside the finite ones, which this
    development takes as exact rationals, a decoder may answer an infinity
    (the log-probability of an impossible token is minus infinity) or a NaN.
    The arithmetic of [masked_fill] on such answers follows IEEE 754: an
    infinity times zero is NaN, and NaN absorbs every operation. *)

Inductive ieee : Type :=
| Num (q : Q)
| Infty (negative : bool)
| NaN.

Definition ieee_opp (x : ieee) : ieee :=
  match x with
  | Num q => Num (- q)
  | Infty s => Infty (negb s)
  | NaN => NaN
  end.

Definition ieee_add (x y : ieee) : ieee :=
  match x, y with
  | NaN, _ | _, NaN => NaN
  | Infty s, Infty s' => if Bool.eqb s s' then Infty s else NaN
  | Infty s, Num _ | Num _, Infty s => Infty s
  | Num a, Num b => Num (a + b)
  end.

Definition ieee_sub (x y : ieee) : ieee := ieee_add x (ieee_opp y).

Definition ieee_mul (x y : ieee) : ieee :=
  match x, y with
  | NaN, _ | _, NaN => NaN
  | Infty s, Infty s' => Infty (xorb s s')
  | Infty s, Num q | Num q, Infty s =>
      if Qeq_bool q 0 then NaN else Infty (xorb s (Qgtb 0 q))
  | Num a, Num b => Num (a * b)
  end.

(** [masked_fill] (lines 82-83) on one entry that need not be finite:
    [t * (1 - tf.cast(mask, t.dtype)) + value * tf.cast(mask, t.dtype)]. *)
Definition masked_fill_ieee (t : ieee) (mask : bool) (value : ieee) : ieee :=
  ieee_add (ieee_mul t (ieee_sub (Num 1) (Num (cast_float mask))))
           (ieee_mul value (Num (cast_float mask))).

(** Lines 2848-2849 on the entry of token [v] of a beam of length [len]:
    the two fills of the combiner. *)
Definition masked_log_prob_ieee (len : Z) (v : nat) (p : ieee) : ieee :=
  let done_mask := negb (len =? 0)%Z in
  let eos_mask := (Z.of_nat v =? Offsets.EOS)%Z in
  let mask := done_mask && eos_mask in
  let p := masked_fill_ieee p done_mask (Num NEG_FILL) in
  masked_fill_ieee p mask (Num 0).

(** Line 2850 on that entry: [tf.expand_dims(log_probs, -1) + probs]. *)
Definition later_candidate_ieee (log_prob : ieee) (len : Z) (v : nat)
    (p : ieee) : ieee :=
  ieee_add log_prob (masked_log_prob_ieee len v p).

(** Lines 2908-2909 on the entry of one beam: the end token's answer [p],
    masked for a finished beam, added to the running log-probability. *)
Definition finalized_log_prob_ieee (log_prob : ieee) (len : Z) (p : ieee)
    : ieee :=
  let probs := masked_fill_ieee p (negb (len =? 0)%Z) (Num 0) in
  ieee_add log_prob probs.

(** * Helper functions around the search *)

(** ** Exceptions of the helper functions *)

Inductive exception : Type :=
| IndexError                              (* list index out of range *)
| InvalidArgumentError                    (* a framework op rejects its arguments *)
| ZeroDivisionError                       (* integer division or modulo by zero *)
| ValueError                              (* a value of the right type that is not accepted *)
| KeyError                                (* a key that is not in the dictionary *)
| AssertionError                          (* an assert statement fails *)
| TypeError                               (* an operation on a value of the wrong type *)
| UnicodeDecodeError                      (* bytes that are not UTF-8 *)
| NotDivisible (d_model num_heads : Z).   (* raise Exception("d_model (..) must be
                                             evenly divisible by num_heads (..)") *)

Inductive outcome (A : Type) : Type :=
| Returns (a : A)
| Raises (e : exception).
Arguments Returns {A} a.
Arguments Raises {A} e.

Definition and_then {A B} (c : outcome A) (k : A -> outcome B) : outcome B :=
  match c with
  | Returns a => k a
  | Raises e => Raises e
  end.

Notation "x <~ c ;; k" := (and_then c (fun x => k))
  (at level 61, c at next level, right associativity).

Fixpoint collect {A B} (f : A -> outcome B) (l : list A) : outcome (list B) :=
  match l with
  | [] => Returns []
  | x :: xs => y <~ f x ;; ys <~ collect f xs ;; Returns (y :: ys)
  end.

(** ** Dense tensors of any rank *)

(** The shape and the entries in row-major order. *)
Record array (A : Type) : Type := { dims : list nat; entries : list A }.
Arguments dims {A} a.
Arguments entries {A} a.

Definition prod_dims (s : list nat) : nat := fold_right Nat.mul 1 s.

(** [length entries] agrees with the shape. *)
Definition dense {A} (t : array A) : Prop :=
  length (entries t) = prod_dims (dims t).

(** Python's [l[i] = v] for [i >= 0]. *)
Definition list_assign {A} (l : list A) (i : nat) (v : A) : outcome (list A) :=
  if i <? length l then Returns (firstn i l ++ v :: skipn (S i) l)
  else Raises IndexError.

(** Python's [l[i]] for [i >= 0]. *)
Definition list_get {A} (l : list A) (i : nat) : outcome A :=
  match nth_error l i with
  | Some x => Returns x
  | None => Raises IndexError
  end.

(** [tf.expand_dims(t, axis)] for [axis >= 0]: a dimension of size one is
    put in at [axis]; the entries stay as they are. *)
Definition expand_dims {A} (t : array A) (axis : nat) : outcome (array A) :=
  if axis <=? length (dims t)
  then Returns {| dims := firstn axis (dims t) ++ 1 :: skipn axis (dims t);
                  entries := entries t |}
  else Raises InvalidArgumentError.

(** The entries of [tf.tile]: along the first axis the rows, each tiled along
    the axes that follow, are laid out [m] times over. *)
Fixpoint tile_entries {A} (s multiples : list nat) (l : list A) : list A :=
  match s, multiples with
  | n :: s', m :: ms =>
      concat (repeat (concat (map (tile_entries s' ms)
                                  (chunks n (prod_dims s') l))) m)
  | _, _ => l
  end.

Fixpoint zip_with {A B C} (f : A -> B -> C) (l : list A) (l' : list B)
    : list C :=
  match l, l' with
  | x :: xs, y :: ys => f x y :: zip_with f xs ys
  | _, _ => []
  end.

(** [tf.tile(t, multiples)]: one multiple per axis, none negative. *)
Definition tile {A} (t : array A) (multiples : list Z) : outcome (array A) :=
  if negb (length multiples =? length (dims t)) then Raises InvalidArgumentError
  else if existsb (fun m => m <? 0)%Z multiples then Raises InvalidArgumentError
  else let ms := map Z.to_nat multiples in
       Returns {| dims := zip_with Nat.mul (dims t) ms;
                  entries := tile_entries (dims t) ms (entries t) |}.

(** [tf.reshape(t, new_shape)]: at most one entry of [new_shape] is [-1] and
    is inferred; the number of entries must not change. *)
Definition reshape {A} (t : array A) (new_shape : list Z) : outcome (array A) :=
  let size := prod_dims (dims t) in
  if existsb (fun n => n <? -1)%Z new_shape then Raises InvalidArgumentError
  else
    let known := prod_dims (map Z.to_nat (filter (fun n => negb (n =? -1)%Z) new_shape)) in
    match count_occ Z.eq_dec new_shape (-1)%Z with
    | 0 => if known =? size
           then Returns {| dims := map Z.to_nat new_shape; entries := entries t |}
           else Raises InvalidArgumentError
    | 1 => if (known =? 0) || negb (size mod known =? 0)
           then Raises InvalidArgumentError
           else Returns {| dims := map (fun n => if (n =? -1)%Z then size / known
                                                 else Z.to_nat n) new_shape;
                           entries := entries t |}
    | _ => Raises InvalidArgumentError
    end.

(** ** [repeat_batch]

    [dim] is given as a natural number: the batch axis counted from the
    front. *)
Definition repeat_batch {A} (t : array A) (K : Z) (dim : nat)
    : outcome (array A) :=
  let shape := dims t in
  let tiling := repeat 1%Z (length shape + 1) in
  tiling <~ list_assign tiling (dim + 1) K ;;
  expanded <~ expand_dims t (dim + 1) ;;
  tiled <~ tile expanded tiling ;;
  old_bsz <~ list_get shape dim ;;
  let new_bsz := (Z.of_nat old_bsz * K)%Z in
  let new_shape := map Z.of_nat (firstn dim shape) ++ [new_bsz]
                   ++ map Z.of_nat (skipn (dim + 1) shape) in
  reshape tiled new_shape.

(** The closed form of what [repeat_batch] lays out: every block of
    [prod shape[dim+1:]] entries, [K] times in a row. *)
Definition repeated {A} (t : array A) (K dim : nat) : array A :=
  {| dims := firstn dim (dims t) ++ [nth dim (dims t) 0 * K]
             ++ skipn (S dim) (dims t);
     entries := concat (map (fun c => concat (repeat c K))
                            (chunks (prod_dims (firstn (S dim) (dims t)))
                                    (prod_dims (skipn (S dim) (dims t)))
                                    (entries t))) |}.

(** ** [subsequent_mask] *)

(** [tf.ones([n, m])] *)
Definition ones (n m : Z) : outcome (list (list Q)) :=
  if ((n <? 0) || (m <? 0))%Z then Raises InvalidArgumentError
  else Returns (repeat (repeat 1%Q (Z.to_nat m)) (Z.to_nat n)).

(** [tf.compat.v1.matrix_band_part]: entry [(i, j)] is kept when
    [(num_lower < 0 or i - j <= num_lower) and (num_upper < 0 or j - i <= num_upper)]
    and set to zero otherwise. *)
Definition in_band (num_lower num_upper : Z) (i j : nat) : bool :=
  ((num_lower <? 0) || (Z.of_nat i - Z.of_nat j <=? num_lower))%Z
  && ((num_upper <? 0) || (Z.of_nat j - Z.of_nat i <=? num_upper))%Z.

Definition matrix_band_part (input : list (list Q)) (num_lower num_upper : Z)
    : list (list Q) :=
  map (fun ri => map (fun xj => if in_band num_lower num_upper (snd ri) (snd xj)
                                then fst xj else 0%Q)
                     (indexed (fst ri)))
      (indexed input).

(** The result has shape [[1, 1, size, size]]. *)
Definition subsequent_mask (size : Z) : outcome (list (list (list (list Q)))) :=
  o <~ ones size size ;;
  let b := matrix_band_part o (-1) 0 in
  Returns [[b]].

(** ** Attention heads *)

(** A [tf.keras.layers.Dense] as far as its constructor goes: the layer
    keeps its [units]. *)
Record projection : Type := { units : Z }.

(** The fields of the layer that [__init__] sets from its arguments: the
    width of one head, the number of heads and the four projections. *)
Record heads : Type :=
  { d_k : Z; h : Z; w_Q : projection; w_K : projection; w_V : projection;
    w_O : projection }.

Module MultiHeadedAttention.

(** [tf.keras.layers.Dense(units=u, name=...)].  The constructor belongs to
    Keras and validates [units]; which values it refuses depends on the
    Keras at hand, so the test is a parameter [accepts].  A refused value
    raises ValueError. *)
Definition Dense (accepts : Z -> bool) (u : Z) : outcome projection :=
  if accepts u then Returns {| units := u |} else Raises ValueError.

(** [__init__(num_heads, d_model, dropout=0.1, scale=False, d_k=None)]:
    [dropout] and [scale] at their defaults, under which the attention
    function built last only keeps a dropout layer. *)
Definition __init__ (accepts : Z -> bool) (num_heads d_model : Z)
    (d_k : option Z) : outcome heads :=
  self_d_k <~
    match d_k with
    | None =>
        if (num_heads =? 0)%Z then Raises ZeroDivisionError
        else
          let q := (d_model / num_heads)%Z in
          if negb (d_model mod num_heads =? 0)%Z
          then Raises (NotDivisible d_model num_heads)
          else Returns q
    | Some v => Returns v
    end ;;
  let self_h := num_heads in
  w_Q <~ Dense accepts (self_d_k * self_h)%Z ;;
  w_K <~ Dense accepts (self_d_k * self_h)%Z ;;
  w_V <~ Dense accepts (self_d_k * self_h)%Z ;;
  w_O <~ Dense accepts (self_d_k * self_h)%Z ;;
  Returns {| d_k := self_d_k; h := self_h;
             w_Q := w_Q; w_K := w_K; w_V := w_V; w_O := w_O |}.

End MultiHeadedAttention.

Module MultiHeadedRelativeAttention.

(** The fields [make_rpr] reads: the window [rpr_k] and the two embedding
    tables, which [__init__] creates with [2 * rpr_k + 1] rows each. *)
Record layer (Row : Type) : Type :=
  { rpr_k : Z; rpr_key : list Row; rpr_value : list Row }.
Arguments rpr_k {Row} l.
Arguments rpr_key {Row} l.
Arguments rpr_value {Row} l.

(** [tf.range(n)]: the integers from 0 up to [n], [n] excluded; a negative
    limit is refused. *)
Definition range (n : Z) : outcome (list Z) :=
  if (n <? 0)%Z then Raises InvalidArgumentError
  else Returns (map Z.of_nat (seq 0 (Z.to_nat n))).

(** [tf.clip_by_value(x, lo, hi)] is [minimum(maximum(x, lo), hi)]. *)
Definition clip_by_value (x lo hi : Z) : Z := Z.min (Z.max x lo) hi.

(** [edges] of [make_rpr]: the row vector minus the column vector, shifted
    and clipped. *)
Definition edges (rpr_k seq_len : Z) : outcome (list (list Z)) :=
  s <~ range seq_len ;;
  let window_len := (2 * rpr_k)%Z in
  Returns
    (map (fun si => map (fun sj => clip_by_value (sj - si + rpr_k) 0 window_len) s)
         s).

(** An embedding layer applied to a matrix of ids: every id must be a row of
    the table. *)
Definition embed {Row} (table : list Row) (ids : list (list Z))
    : outcome (list (list Row)) :=
  collect (collect (fun id =>
             if (id <? 0)%Z then Raises InvalidArgumentError
             else match nth_error table (Z.to_nat id) with
                  | Some r => Returns r
                  | None => Raises InvalidArgumentError
                  end)) ids.

Definition make_rpr {Row} (self : layer Row) (seq_len : Z)
    : outcome (list (list Row) * list (list Row)) :=
  e <~ edges (rpr_k self) seq_len ;;
  k <~ embed (rpr_key self) e ;;
  v <~ embed (rpr_value self) e ;;
  Returns (k, v).

End MultiHeadedRelativeAttention.

(** ** Axis permutations of rank-3 tensors *)

(** [tf.transpose(t, perm)] with a [perm] of three axes, as every caller here
    passes: entry [(a, b, c)] of the result is the entry of [t] whose index
    has [a] on axis [perm[0]], [b] on axis [perm[1]] and [c] on axis
    [perm[2]]. *)
Definition transpose (t : tensor) (perm : list nat) : outcome tensor :=
  match shape t, perm with
  | [d0; d1; d2], [p0; p1; p2] =>
      if (p0 <? 3) && (p1 <? 3) && (p2 <? 3)
         && negb (p0 =? p1) && negb (p0 =? p2) && negb (p1 =? p2)
      then
        let d k := nth k [d0; d1; d2] 0 in
        let on a b c k := if p0 =? k then a else if p1 =? k then b else c in
        Returns
          {| shape := [d p0; d p1; d p2];
             data :=
               concat (tabulate (d p0) (fun a =>
                 concat (tabulate (d p1) (fun b =>
                   tabulate (d p2) (fun c =>
                     nth (on a b c 0 * d1 * d2 + on a b c 1 * d2 + on a b c 2)
                         (data t) 0%Q))))) |}
      else Raises InvalidArgumentError
  | _, _ => Raises InvalidArgumentError
  end.

Definition bth2bht (t : tensor) : outcome tensor := transpose t [0; 2; 1].

Definition tbh2bth (t : tensor) : outcome tensor := transpose t [1; 0; 2].

(** * Embeddings ([eight_mile/embeddings.py]) *)

(** A Python [str], given by its UTF-8 bytes. *)
Definition word : Type := list Z.

Definition word_eq_dec : forall x y : word, {x = y} + {x <> y} :=
  list_eq_dec Z.eq_dec.

(** ** Python dictionaries keyed by [str]

    The items in insertion order; no key occurs twice. *)
Definition dict (V : Type) : Type := list (word * V).

Definition keys {V} (d : dict V) : list word := map fst d.

(** [d.get(k)] / [d[k]] *)
Fixpoint dict_get {V} (d : dict V) (k : word) : option V :=
  match d with
  | [] => None
  | (k', v) :: d' => if word_eq_dec k' k then Some v else dict_get d' k
  end.

(** [k in d] *)
Definition dict_in {V} (d : dict V) (k : word) : bool :=
  match dict_get d k with Some _ => true | None => false end.

(** [d[k] = v]: an existing key keeps its place, a new one goes last. *)
Fixpoint dict_set {V} (d : dict V) (k : word) (v : V) : dict V :=
  match d with
  | [] => [(k, v)]
  | (k', v') :: d' =>
      if word_eq_dec k' k then (k, v) :: d' else (k', v') :: dict_set d' k v
  end.

(** [d.pop(k, default)], the value dropped. *)
Fixpoint dict_pop {V} (d : dict V) (k : word) : dict V :=
  match d with
  | [] => []
  | (k', v') :: d' =>
      if word_eq_dec k' k then d' else (k', v') :: dict_pop d' k
  end.

(** [a[i]] on the first axis of a numpy array or on a list: a negative index
    counts from the end. *)
Definition getitem {A} (a : list A) (i : Z) : outcome A :=
  let n := Z.of_nat (length a) in
  if ((0 <=? i) && (i <? n))%Z then list_get a (Z.to_nat i)
  else if ((- n <=? i) && (i <? 0))%Z then list_get a (Z.to_nat (i + n))
  else Raises IndexError.

Module RandomInitVecModel.

Record model : Type :=
  { vocab : dict Z; dsz : Z; vsz : nat; weights : list (list Q); nullv : list Q }.

Section Init.
(** [Offsets.VALUES] and [Offsets.OFFSET] of [eight_mile/utils.py]. *)
Variable VALUES : list word.
Variable OFFSET : nat.
(** The random draws: entry [(i, j)] of the table drawn first, and entry [j]
    of the row drawn later for the special token [i]. *)
Variable uniform : nat -> nat -> Q.
Variable uniform_row : nat -> nat -> Q.

(** [for i, name in enumerate(names): vocab[name] = i + start] *)
Definition enumerate_into (vocab : dict Z) (names : list word) (start : nat)
    : dict Z :=
  fold_left (fun d ni => dict_set d (fst ni) (Z.of_nat (snd ni + start)))
            (indexed names) vocab.

(** [[v for v, cnt in known_vocab.items() if cnt > 0]] *)
Definition attested (known_vocab : dict Z) : list word :=
  map fst (filter (fun vc => (0 <? snd vc)%Z) known_vocab).

(** [for i in range(1, len(Offsets.VALUES)): weights[i] = <a fresh draw>] *)
Fixpoint redraw (dsz : nat) (range : list nat) (weights : list (list Q))
    : outcome (list (list Q)) :=
  match range with
  | [] => Returns weights
  | i :: range' =>
      w <~ list_assign weights i (tabulate dsz (uniform_row i)) ;;
      redraw dsz range' w
  end.

(** [__init__(dsz, known_vocab, counts, unif_weight)]; returned with the
    model is [known_vocab] as the call leaves it. *)
Definition __init__ (dsz : Z) (known_vocab : dict Z) (counts : bool)
    : outcome (model * dict Z) :=
  let vocab := enumerate_into [] VALUES 0 in
  let vsz := OFFSET in
  let '(vocab, vsz, known_vocab) :=
    if counts then
      let known_vocab := fold_left dict_pop VALUES known_vocab in
      let attested := attested known_vocab in
      (enumerate_into vocab attested OFFSET, vsz + length attested, known_vocab)
    else (known_vocab, length known_vocab, known_vocab) in
  if (dsz <? 0)%Z then Raises ValueError
  else
    let weights := tabulate vsz (fun i => tabulate (Z.to_nat dsz) (uniform i)) in
    let nullv := repeat 0%Q (Z.to_nat dsz) in
    weights <~ list_assign weights 0 nullv ;;
    weights <~ redraw (Z.to_nat dsz) (seq 1 (length VALUES - 1)) weights ;;
    Returns ({| vocab := vocab; dsz := dsz; vsz := vsz; weights := weights;
                nullv := nullv |}, known_vocab).

End Init.

(** [lookup(word, nullifabsent)]; [None] is Python's [None]. *)
Definition lookup (self : model) (w : word) (nullifabsent : bool)
    : outcome (option (list Q)) :=
  if dict_in (vocab self) w then
    match dict_get (vocab self) w with
    | Some i => r <~ getitem (weights self) i ;; Returns (Some r)
    | None => Raises KeyError
    end
  else if nullifabsent then Returns None
  else Returns (Some (nullv self)).

(** [__getitem__(word)] *)
Definition __getitem__ (self : model) (w : word) : outcome (option (list Q)) :=
  lookup self w false.

End RandomInitVecModel.

(** ** Bytes, numbers and text *)

(** ["{}".format(n)] for [n >= 0], as ASCII bytes; [fuel] bounds the number
    of digits. *)
Fixpoint format_digits (fuel n : nat) (acc : list Z) : list Z :=
  let acc' := (48 + Z.of_nat (n mod 10))%Z :: acc in
  match fuel with
  | O => acc'
  | S fuel' => if n / 10 =? 0 then acc' else format_digits fuel' (n / 10) acc'
  end.

Definition format_nat (n : nat) : list Z := format_digits n n [].

Definition is_digit (c : Z) : bool := ((48 <=? c) && (c <=? 57))%Z.

(** ASCII whitespace, as [bytes.split()] sees it. *)
Definition is_space (c : Z) : bool := ((c =? 32) || ((9 <=? c) && (c <=? 13)))%Z.

(** The digits of [int(b)]: single underscores may stand between digits. *)
Fixpoint int_digits (s : list Z) (acc : Z) (after_digit : bool) : option Z :=
  match s with
  | [] => if after_digit then Some acc else None
  | c :: s' =>
      if is_digit c then int_digits s' (10 * acc + (c - 48))%Z true
      else if (c =? 95)%Z && after_digit then int_digits s' acc false
      else None
  end.

(** [int(b)] for a token without whitespace: an optional sign, then digits. *)
Definition int_of_bytes (s : list Z) : outcome Z :=
  let signed :=
    match s with
    | c :: r =>
        if (c =? 43)%Z then int_digits r 0 false
        else if (c =? 45)%Z then option_map Z.opp (int_digits r 0 false)
        else int_digits s 0 false
    | [] => None
    end in
  match signed with
  | Some n => Returns n
  | None => Raises ValueError
  end.

(** [b.split()]: the maximal runs without whitespace; [cur] is the run being
    read. *)
Fixpoint split_ws (s : list Z) (cur : list Z) : list (list Z) :=
  match s with
  | [] => match cur with [] => [] | _ => [cur] end
  | c :: s' =>
      if is_space c
      then match cur with [] => split_ws s' [] | _ => cur :: split_ws s' [] end
      else split_ws s' (cur ++ [c])
  end.

(** Is [s], of which [more] continuation bytes are due, well-formed UTF-8?
    [lo] and [hi] bound the next byte. *)
Fixpoint utf8_from (s : list Z) (more : nat) (lo hi : Z) : bool :=
  match s with
  | [] => more =? 0
  | c :: s' =>
      match more with
      | S m => ((lo <=? c) && (c <=? hi))%Z && utf8_from s' m 128 191
      | O =>
          if ((0 <=? c) && (c <=? 127))%Z then utf8_from s' 0 128 191
          else if ((194 <=? c) && (c <=? 223))%Z then utf8_from s' 1 128 191
          else if (c =? 224)%Z then utf8_from s' 2 160 191
          else if (c =? 237)%Z then utf8_from s' 2 128 159
          else if ((225 <=? c) && (c <=? 239))%Z then utf8_from s' 2 128 191
          else if (c =? 240)%Z then utf8_from s' 3 144 191
          else if (c =? 244)%Z then utf8_from s' 3 128 143
          else if ((241 <=? c) && (c <=? 243))%Z then utf8_from s' 3 128 191
          else false
      end
  end.

Definition utf8_valid (s : list Z) : bool := utf8_from s 0 128 191.

(** [s.lstrip(" \n")] and [s.strip(" \n")] *)
Fixpoint lstrip (s : list Z) : list Z :=
  match s with
  | c :: s' => if ((c =? 32) || (c =? 10))%Z then lstrip s' else s
  | [] => []
  end.

Definition strip (s : list Z) : list Z := rev (lstrip (rev (lstrip s))).

(** [b.decode("utf-8")] *)
Definition decode (s : list Z) : outcome word :=
  if utf8_valid s then Returns s else Raises UnicodeDecodeError.

(** A [float32], given by its four bytes in memory order. *)
Definition float32 : Type := (Z * Z * Z * Z)%type.

(** [vector.tobytes()] *)
Definition tobytes (vector : list float32) : list Z :=
  flat_map (fun x => match x with (a, b, c, d) => [a; b; c; d] end) vector.

(** [np.fromstring(raw, dtype=np.float32)] *)
Fixpoint fromstring (raw : list Z) : outcome (list float32) :=
  match raw with
  | [] => Returns []
  | a :: b :: c :: d :: raw' => v <~ fromstring raw' ;; Returns ((a, b, c, d) :: v)
  | _ => Raises ValueError
  end.

(** [l[i] = v], a negative index counting from the end. *)
Definition setitem {A} (l : list A) (i : Z) (v : A) : outcome (list A) :=
  let n := Z.of_nat (length l) in
  if ((0 <=? i) && (i <? n))%Z then list_assign l (Z.to_nat i) v
  else if ((- n <=? i) && (i <? 0))%Z then list_assign l (Z.to_nat (i + n)) v
  else Raises IndexError.

(** ** [write_word2vec_file]

    [vocab] is a dictionary ([inl]) or a list ([inr]); the result is what the
    file holds when the call returns. *)
Definition write_word2vec_file (VALUES : list word)
    (vocab : dict Z + list word) (word_vectors : list (list float32))
    : outcome (list Z) :=
  prepared <~
    match vocab with
    | inl vocab =>
        let pruned :=
          fold_left (fun co v =>
                       if dict_in (fst co) v
                       then (dict_pop (fst co) v, snd co + 1)
                       else co)
                    VALUES (vocab, 0) in
        let vocab_copy := fst pruned in
        let offset := snd pruned in
        (* [0] * len(vocab_copy); the 0 left in a slot is written as "0" *)
        let vocab_list := repeat [48%Z] (length vocab_copy) in
        vocab_list <~
          fold_left (fun vl wi =>
                       vl <~ vl ;;
                       setitem vl (snd wi - Z.of_nat offset) (fst wi))
                    vocab_copy (Returns vocab_list) ;;
        Returns (offset, vocab_list)
    | inr vocab => Returns (0, vocab)
    end ;;
  let offset := fst prepared in
  let vocab_list := snd prepared in
  let word_vectors_offset := skipn offset word_vectors in
  let vsz := length vocab_list in
  first <~ list_get word_vectors 0 ;;
  let dsz := length first in
  let header := format_nat vsz ++ [32%Z] ++ format_nat dsz ++ [10%Z] in
  if negb (length vocab_list =? length word_vectors_offset)
  then Raises AssertionError
  else Returns (header ++
                flat_map (fun wv => fst wv ++ [32%Z] ++ tobytes (snd wv))
                         (combine vocab_list word_vectors_offset)).

(** ** Reading a word2vec file *)

Module PretrainedEmbeddingsModel.

(** [f.readline()]: the line with its newline, and the rest of the file. *)
Fixpoint readline (f : list Z) : list Z * list Z :=
  match f with
  | [] => ([], [])
  | c :: f' =>
      if (c =? 10)%Z then ([c], f')
      else let r := readline f' in (c :: fst r, snd r)
  end.

(** [f.read(n)] on a buffered binary file: [n = -1] reads to the end, a
    length below -1 raises ValueError. *)
Definition read (f : list Z) (n : Z) : outcome (list Z * list Z) :=
  if (n <? -1)%Z then Raises ValueError
  else if (n <? 0)%Z then Returns (f, [])
  else Returns (firstn (Z.to_nat n) f, skipn (Z.to_nat n) f).

(** The loop of [_readtospc]; at the end of the file [f.read(1)] is empty and
    never equals a space, so the loop does not end: [None]. *)
Fixpoint readtospc_loop (f : list Z) (s : list Z) : option (list Z * list Z) :=
  match f with
  | [] => None
  | ch :: f' =>
      if (ch =? 32)%Z then Some (s, f') else readtospc_loop f' (s ++ [ch])
  end.

Definition _readtospc (f : list Z) : option (outcome word * list Z) :=
  match readtospc_loop f [] with
  | None => None
  | Some (s, f') => Some (s <~ decode s ;; Returns (strip s), f')
  end.

(** What the reader builds up: the vectors, [self.vocab], [known_vocab]
    ([None] for Python's [None]) and the next index. *)
Record reading : Type :=
  { word_vectors : list (list float32);
    vocab : dict Z;
    known_vocab : option (dict Z);
    idx : Z }.

(** [n] passes through the loop of [_read_word2vec_file]. *)
Fixpoint read_entries (n : nat) (width : Z) (keep_unused : bool)
    (f : list Z) (st : reading) : option (outcome reading) :=
  match n with
  | O => Some (Returns st)
  | S n' =>
      match _readtospc f with
      | None => None
      | Some (Raises e, _) => Some (Raises e)
      | Some (Returns word, f) =>
          match read f width with
          | Raises e => Some (Raises e)
          | Returns (raw, f) =>
          if dict_in (vocab st) word then read_entries n' width keep_unused f st
          else
            (* keep_unused is False and word not in known_vocab *)
            let skip :=
              if negb keep_unused then
                match known_vocab st with
                | None => Raises TypeError
                | Some kv => Returns (negb (dict_in kv word))
                end
              else Returns false in
            match skip with
            | Raises e => Some (Raises e)
            | Returns true => read_entries n' width keep_unused f st
            | Returns false =>
                (* if known_vocab and word in known_vocab: known_vocab[word] = 0 *)
                let known_vocab :=
                  match known_vocab st with
                  | Some ((_ :: _) as kv) =>
                      if dict_in kv word then Some (dict_set kv word 0%Z)
                      else Some kv
                  | other => other
                  end in
                match fromstring raw with
                | Raises e => Some (Raises e)
                | Returns vec =>
                    read_entries n' width keep_unused f
                      {| word_vectors := word_vectors st ++ [vec];
                         vocab := dict_set (vocab st) word (idx st);
                         known_vocab := known_vocab;
                         idx := (idx st + 1)%Z |}
                end
            end
          end
      end
  end.

(** [_read_word2vec_file(filename, idx, known_vocab, keep_unused)] on a file
    holding [f], with [self.vocab] as given; the result carries
    [word_vectors], [self.vocab], [known_vocab] and [idx], and [dsz] beside
    them. *)
Definition _read_word2vec_file (self_vocab : dict Z) (f : list Z) (idx : Z)
    (known_vocab : option (dict Z)) (keep_unused : bool)
    : option (outcome (reading * Z)) :=
  let (header, f) := readline f in
  match map int_of_bytes (split_ws header []) with
  | [Returns vsz; Returns dsz] =>
      let width := (4 * dsz)%Z in
      match read_entries (Z.to_nat vsz) width keep_unused f
              {| word_vectors := []; vocab := self_vocab;
                 known_vocab := known_vocab; idx := idx |} with
      | None => None
      | Some (Raises e) => Some (Raises e)
      | Some (Returns st) => Some (Returns (st, dsz))
      end
  | _ => Some (Raises ValueError)
  end.

End PretrainedEmbeddingsModel.

(** The state of the reader after it kept the entry [wv]. *)
Definition kept (st : PretrainedEmbeddingsModel.reading)
    (wv : word * list float32) : PretrainedEmbeddingsModel.reading :=
  {| PretrainedEmbeddingsModel.word_vectors :=
       PretrainedEmbeddingsModel.word_vectors st ++ [snd wv];
     PretrainedEmbeddingsModel.vocab :=
       dict_set (PretrainedEmbeddingsModel.vocab st) (fst wv)
                (PretrainedEmbeddingsModel.idx st);
     PretrainedEmbeddingsModel.known_vocab :=
       match PretrainedEmbeddingsModel.known_vocab st with
       | Some ((_ :: _) as kv) =>
           if dict_in kv (fst wv) then Some (dict_set kv (fst wv) 0%Z)
           else Some kv
       | other => other
       end;
     PretrainedEmbeddingsModel.idx :=
       (PretrainedEmbeddingsModel.idx st + 1)%Z |}.

(** What one entry [wv] of the file does to the reader: a word already in
    the vocabulary is passed over, and so is, unless [keep_unused], a word
    that [known_vocab] does not hold; any other entry is kept. *)
Definition absorbed (keep_unused : bool) (st : PretrainedEmbeddingsModel.reading)
    (wv : word * list float32) : PretrainedEmbeddingsModel.reading :=
  if dict_in (PretrainedEmbeddingsModel.vocab st) (fst wv) then st
  else if negb keep_unused
          && negb (match PretrainedEmbeddingsModel.known_vocab st with
                   | Some kv => dict_in kv (fst wv)
                   | None => false
                   end)
       then st
       else kept st wv.

(** The vocabulary and the vectors of a reader that started at index [idx0]
    go together: no word is held twice, the [j]-th word has index
    [idx0 + j], and the [j]-th vector is one that an entry of [es] gives for
    that word. *)
Definition aligned (idx0 : Z) (es : list (word * list float32))
    (st : PretrainedEmbeddingsModel.reading) : Prop :=
  length (PretrainedEmbeddingsModel.word_vectors st)
  = length (PretrainedEmbeddingsModel.vocab st) /\
  PretrainedEmbeddingsModel.idx st
  = (idx0 + Z.of_nat (length (PretrainedEmbeddingsModel.vocab st)))%Z /\
  NoDup (keys (PretrainedEmbeddingsModel.vocab st)) /\
  forall j, j < length (PretrainedEmbeddingsModel.vocab st) ->
    snd (nth j (PretrainedEmbeddingsModel.vocab st) ([], 0%Z))
    = (idx0 + Z.of_nat j)%Z /\
    In (fst (nth j (PretrainedEmbeddingsModel.vocab st) ([], 0%Z)),
        nth j (PretrainedEmbeddingsModel.word_vectors st) []) es.

(** An entry that reads back as written: the word holds no space, is UTF-8
    and is not changed by [strip(" \n")]; the vector has [dsz] floats. *)
Definition clean_entry (dsz : nat) (wv : word * list float32) : Prop :=
  ~ In 32%Z (fst wv) /\ utf8_valid (fst wv) = true /\ strip (fst wv) = fst wv /\
  length (snd wv) = dsz.

(** * Basic facts *)

Lemma bind_ok {A B} (c : result A) (k : A -> result B) (b : B) :
  bind c k = Ok b -> exists a, c = Ok a /\ k a = Ok b.
Proof.
  destruct c as [a|e]; simpl; intros H; [eauto | discriminate].
Qed.

Lemma mapM_map {A B} (f : A -> result B) (g : A -> B) (l : list A) :
  (forall x, In x l -> f x = Ok (g x)) -> mapM f l = Ok (map g l).
Proof.
  induction l as [|x xs IH]; simpl; intros H; [reflexivity|].
  rewrite (H x (or_introl eq_refl)); simpl.
  rewrite IH by auto. reflexivity.
Qed.

Lemma mapM_inv {A B} (f : A -> result B) (l : list A) (r : list B) :
  mapM f l = Ok r -> Forall2 (fun x y => f x = Ok y) l r.
Proof.
  revert r; induction l as [|x xs IH]; simpl; intros r H.
  - inversion H; constructor.
  - apply bind_ok in H as (y & Hy & H).
    apply bind_ok in H as (ys & Hys & H). inversion H; subst.
    constructor; auto.
Qed.

Lemma tabulate_length {A} n (f : nat -> A) : length (tabulate n f) = n.
Proof. unfold tabulate. now rewrite length_map, length_seq. Qed.

Lemma tabulate_nth {A} n (f : nat -> A) i d : i < n -> nth i (tabulate n f) d = f i.
Proof.
  intros H. unfold tabulate.
  rewrite (nth_indep _ d (f 0)) by now rewrite length_map, length_seq.
  now rewrite map_nth, seq_nth.
Qed.

Lemma get2_tabulate {A} n m (f : nat -> nat -> A) d b k :
  b < n -> k < m ->
  get2 d (tabulate n (fun b => tabulate m (f b))) b k = f b k.
Proof.
  intros Hb Hk. unfold get2.
  rewrite (tabulate_nth n (fun b => tabulate m (f b))) by assumption.
  now apply tabulate_nth.
Qed.

Lemma get3_tabulate {A} n m p (f : nat -> nat -> nat -> A) d b k v :
  b < n -> k < m -> v < p ->
  get3 d (tabulate n (fun b => tabulate m (fun k => tabulate p (f b k)))) b k v
  = f b k v.
Proof.
  intros Hb Hk Hv. unfold get3.
  rewrite (tabulate_nth n (fun b => tabulate m (fun k => tabulate p (f b k))))
    by assumption.
  rewrite (tabulate_nth m (fun k => tabulate p (f b k))) by assumption.
  now apply tabulate_nth.
Qed.

(** ** Reshaping *)

Lemma chunks_length {A} n s (l : list A) : length (chunks n s l) = n.
Proof. revert l; induction n; simpl; intros; [reflexivity | now rewrite IHn]. Qed.

Lemma chunks_shaped {A} n s (l : list A) :
  length l = n * s -> shaped2 n s (chunks n s l).
Proof.
  unfold shaped2. rewrite chunks_length. intros H; split; [reflexivity|].
  revert l H; induction n; simpl; intros l H; constructor.
  - rewrite length_firstn. lia.
  - apply IHn. rewrite length_skipn. lia.
Qed.

Lemma chunks_nth {A} n s (l : list A) b j d :
  b < n -> j < s ->
  nth j (nth b (chunks n s l) []) d = nth (b * s + j) l d.
Proof.
  revert l b; induction n; intros l b Hb Hj; [lia|].
  destruct b as [|b]; simpl.
  - rewrite <- (firstn_skipn s l) at 2.
    destruct (Nat.lt_ge_cases j (length (firstn s l))) as [Hl|Hl].
    + now rewrite app_nth1.
    + rewrite nth_overflow by assumption.
      rewrite length_firstn in Hl.
      assert (length l <= j) by lia.
      rewrite firstn_skipn. now rewrite nth_overflow.
  - rewrite IHn by lia.
    rewrite <- (firstn_skipn s l) at 2.
    destruct (Nat.le_gt_cases s (length l)) as [Hs|Hs].
    + rewrite app_nth2; rewrite length_firstn, Nat.min_l by assumption; [|lia].
      f_equal. lia.
    + rewrite skipn_all2 by lia.
      rewrite firstn_all2 by lia. rewrite app_nil_r.
      rewrite nth_overflow by (simpl; lia).
      rewrite nth_overflow by lia. reflexivity.
Qed.

Lemma concat_chunks {A} n s (l : list A) :
  length l = n * s -> concat (chunks n s l) = l.
Proof.
  revert l; induction n; simpl; intros l H.
  - destruct l; [reflexivity | discriminate].
  - rewrite IHn by (rewrite length_skipn; lia). apply firstn_skipn.
Qed.

Lemma shaped2_nth_length {A} n m (t : list (list A)) b :
  shaped2 n m t -> b < n -> length (nth b t []) = m.
Proof.
  intros [Hn Hf] Hb. rewrite Forall_forall in Hf.
  apply Hf, nth_In. lia.
Qed.

Lemma shaped2_concat_length {A} n m (t : list (list A)) :
  shaped2 n m t -> length (concat t) = n * m.
Proof.
  intros [Hn Hf]; subst n. induction Hf; simpl; [reflexivity|].
  rewrite length_app. lia.
Qed.

(** Row-major addressing of a flattened [n x m] tensor. *)
Lemma concat_nth_error {A} n m (t : list (list A)) b k :
  shaped2 n m t -> b < n -> k < m ->
  nth_error (concat t) (b * m + k) = nth_error (nth b t []) k.
Proof.
  intros [Hn Hf]; revert n b Hn.
  induction Hf as [|r t Hr Hf IH]; simpl; intros n b Hn Hb Hk; [lia|].
  destruct b as [|b]; simpl.
  - rewrite nth_error_app1 by lia. reflexivity.
  - rewrite nth_error_app2 by lia.
    replace (m + b * m + k - length r) with (b * m + k) by lia.
    apply (IH (length t)); [reflexivity | simpl in Hn; lia | assumption].
Qed.

Lemma repeat_shaped2 {A} n m (x : A) : shaped2 n m (repeat (repeat x m) n).
Proof.
  split; [apply repeat_length|].
  apply Forall_forall; intros r Hr. apply repeat_spec in Hr; subst.
  apply repeat_length.
Qed.

Lemma get2_repeat {A} n m (x d : A) b k :
  b < n -> k < m -> get2 d (repeat (repeat x m) n) b k = x.
Proof.
  intros Hb Hk. unfold get2.
  rewrite (nth_indep _ [] (repeat x m)) by now rewrite repeat_length.
  rewrite nth_repeat. rewrite (nth_indep _ d x) by now rewrite repeat_length.
  apply nth_repeat.
Qed.

(** ** Ranking facts *)

Lemma indexed_from_In {A} (l : list A) s x i :
  In (x, i) (combine l (seq s (length l))) ->
  s <= i /\ nth_error l (i - s) = Some x.
Proof.
  revert s; induction l as [|y l IH]; simpl; intros s H; [contradiction|].
  destruct H as [H|H].
  - inversion H; subst. rewrite Nat.sub_diag. split; [lia | reflexivity].
  - apply IH in H as [Hs Hn]. split; [lia|].
    replace (i - s) with (S (i - S s)) by lia. exact Hn.
Qed.

Lemma indexed_snd {A} (l : list A) s :
  map snd (combine l (seq s (length l))) = seq s (length l).
Proof.
  revert s; induction l; simpl; intros; [reflexivity | now rewrite IHl].
Qed.

Lemma NoDup_firstn {A} k (l : list A) : NoDup l -> NoDup (firstn k l).
Proof.
  intros H. rewrite <- (firstn_skipn k l) in H.
  now apply NoDup_app_remove_r in H.
Qed.

Lemma In_firstn {A} k (l : list A) x : In x (firstn k l) -> In x l.
Proof.
  intros H. rewrite <- (firstn_skipn k l). apply in_or_app. now left.
Qed.

Section RankingFacts.
Context {A : Type} (gtb : A -> A -> bool).

Lemma insert_desc_perm x l : Permutation (insert_desc gtb x l) (x :: l).
Proof.
  induction l as [|y l IH]; simpl; [reflexivity|].
  destruct (gtb (fst y) (fst x)); [|reflexivity].
  rewrite IH. apply perm_swap.
Qed.

Lemma sort_desc_perm l : Permutation (sort_desc gtb l) l.
Proof.
  induction l as [|x l IH]; simpl; [reflexivity|].
  rewrite insert_desc_perm. now constructor.
Qed.

Lemma top_k_row_length k row :
  k <= length row -> length (top_k_row gtb k row) = k.
Proof.
  intros H. unfold top_k_row. rewrite length_firstn.
  rewrite (Permutation_length (sort_desc_perm _)).
  unfold indexed. rewrite length_combine, length_seq. lia.
Qed.

Lemma top_k_row_In k row x i :
  In (x, i) (top_k_row gtb k row) -> nth_error row i = Some x.
Proof.
  intros H. unfold top_k_row in H. apply In_firstn in H.
  apply (Permutation_in _ (sort_desc_perm _)) in H.
  apply indexed_from_In in H as [_ H]. now rewrite Nat.sub_0_r in H.
Qed.

Lemma top_k_row_NoDup k row : NoDup (map snd (top_k_row gtb k row)).
Proof.
  unfold top_k_row. rewrite <- firstn_map. apply NoDup_firstn.
  eapply Permutation_NoDup.
  - apply Permutation_map. symmetry. apply sort_desc_perm.
  - unfold indexed. rewrite indexed_snd. apply seq_NoDup.
Qed.

End RankingFacts.

(** ** What [select] returns *)

Lemma stackable_shaped n k (best_idx : list (list nat)) :
  shaped2 n k best_idx -> stackable n k best_idx = true.
Proof.
  intros [Hn Hr]. unfold stackable. rewrite Hn, Nat.eqb_refl. cbn [andb].
  apply forallb_forall. intros r Hin. rewrite Forall_forall in Hr.
  apply Nat.eqb_eq. now apply Hr.
Qed.

Lemma best_idx_shaped {A} (gtb : A -> A -> bool) k n m (fs : list (list A)) :
  shaped2 n m fs -> k <= m ->
  shaped2 n k (map (map snd) (map (top_k_row gtb k) fs)).
Proof.
  intros [Hn Hr] Hk. split; [now rewrite !length_map|].
  rewrite Forall_forall in Hr. apply Forall_forall. intros r Hin.
  apply in_map_iff in Hin as (r' & <- & Hin).
  apply in_map_iff in Hin as (row & <- & Hin).
  rewrite length_map. apply top_k_row_length. rewrite (Hr row Hin). exact Hk.
Qed.

Section SelectFacts.
Context {A : Type} (gtb : A -> A -> bool) (d : A).
Variables (bsz K V ncols : nat).
Local Abbreviation picked := (picked gtb d K).

Lemma picked_In fs b j :
  shaped2 bsz ncols fs -> K <= ncols -> b < bsz -> j < K ->
  In (picked fs b j) (top_k_row gtb K (nth b fs [])).
Proof.
  intros Hfs HK Hb Hj. apply nth_In.
  rewrite top_k_row_length; [assumption|].
  now rewrite (shaped2_nth_length bsz ncols).
Qed.

Lemma picked_lt fs b j :
  shaped2 bsz ncols fs -> K <= ncols -> b < bsz -> j < K ->
  snd (picked fs b j) < ncols.
Proof.
  intros Hfs HK Hb Hj.
  pose proof (picked_In fs b j Hfs HK Hb Hj) as Hin.
  destruct (picked fs b j) as [x i]; simpl.
  apply top_k_row_In in Hin.
  rewrite <- (shaped2_nth_length bsz ncols fs b Hfs Hb).
  apply nth_error_Some. congruence.
Qed.

Lemma picked_score fs b j :
  shaped2 bsz ncols fs -> K <= ncols -> b < bsz -> j < K ->
  nth_error (nth b fs []) (snd (picked fs b j)) = Some (fst (picked fs b j)).
Proof.
  intros Hfs HK Hb Hj.
  pose proof (picked_In fs b j Hfs HK Hb Hj) as Hin.
  destruct (picked fs b j) as [x i]; simpl.
  now apply top_k_row_In in Hin.
Qed.

Lemma picked_inj fs b j j' :
  shaped2 bsz ncols fs -> K <= ncols -> b < bsz -> j < K -> j' < K ->
  snd (picked fs b j) = snd (picked fs b j') -> j = j'.
Proof.
  intros Hfs HK Hb Hj Hj' H.
  pose proof (top_k_row_NoDup gtb K (nth b fs [])) as Hnd.
  assert (Hlen : length (top_k_row gtb K (nth b fs [])) = K).
  { apply top_k_row_length. now rewrite (shaped2_nth_length bsz ncols). }
  unfold picked in H.
  rewrite <- !(map_nth snd) in H.
  eapply (proj1 (NoDup_nth _ _) Hnd); rewrite ?length_map, ?Hlen; eassumption.
Qed.

Lemma nth_best f fs b j (d' : nat) :
  b < length fs -> j < length (top_k_row gtb K (nth b fs [])) ->
  nth_error (nth b (map (map snd) (map (top_k_row gtb K) fs)) []) j
  = Some (snd (nth j (top_k_row gtb K (nth b fs [])) (f, d'))).
Proof.
  intros Hb Hj. rewrite map_map.
  rewrite (nth_indep _ [] (map snd (top_k_row gtb K []))) by now rewrite length_map.
  rewrite (map_nth (fun r => map snd (top_k_row gtb K r))).
  rewrite nth_error_map.
  rewrite (nth_error_nth' _ (f, d')) by assumption. reflexivity.
Qed.

(** [select] succeeds whenever every row offers at least [K] scores and the
    flattened [probs] are at least as wide as the scores; the result is given
    in closed form. *)
Lemma select_ok fs probs :
  shaped2 bsz ncols fs -> K <= ncols -> length probs = bsz ->
  (forall b, b < bsz -> ncols <= length (concat (nth b probs []))) ->
  select gtb K V ncols fs probs = Ok (chosen gtb d bsz K V fs probs).
Proof.
  intros Hfs HK Hp Hw. unfold select, top_k, chosen.
  destruct (Nat.ltb_spec ncols K) as [Hlt|_]; [lia|]. simpl bind.
  unfold gather_k.
  rewrite (stackable_shaped (length fs) K)
    by (rewrite (proj1 Hfs); now apply (best_idx_shaped gtb K bsz ncols)).
  cbn [negb].
  rewrite (mapM_map _ (fun b => tabulate K (fun j =>
             nth (snd (picked fs b j)) (concat (nth b probs [])) d))).
  - simpl. destruct Hfs as [Hlen _]. rewrite Hlen. reflexivity.
  - intros b Hb. apply in_seq in Hb. destruct Hfs as [Hlen Hrows].
    assert (Hb' : b < bsz) by lia.
    apply mapM_map. intros j Hj. apply in_seq in Hj.
    assert (HlenK : length (top_k_row gtb K (nth b fs [])) = K).
    { apply top_k_row_length.
      rewrite (shaped2_nth_length bsz ncols); [assumption | now split | assumption]. }
    rewrite (nth_best d fs b j 0) by lia. simpl bind.
    fold (picked fs b j).
    assert (Hi : snd (picked fs b j) < ncols).
    { apply picked_lt; [now split | assumption | assumption | lia]. }
    rewrite (nth_indep _ [] (concat [])) by (rewrite length_map; lia).
    rewrite (map_nth (@concat A)).
    rewrite (nth_error_nth' _ d); [reflexivity|].
    specialize (Hw b Hb'). lia.
Qed.

Lemma select_topk_error fs probs :
  ncols < K -> select gtb K V ncols fs probs = Err TopKError.
Proof.
  intros H. unfold select, top_k.
  destruct (Nat.ltb_spec ncols K); [reflexivity | lia].
Qed.

End SelectFacts.

Lemma get2_best {A B} (gtb : A -> A -> bool) (d : A) (f : nat -> B) (db : B)
    bsz K ncols fs b j :
  shaped2 bsz ncols fs -> K <= ncols -> b < bsz -> j < K ->
  get2 db (map (map f) (map (map snd) (map (top_k_row gtb K) fs))) b j
  = f (snd (picked gtb d K fs b j)).
Proof.
  intros Hfs HK Hb Hj. unfold get2, picked.
  assert (Hlen : length (top_k_row gtb K (nth b fs [])) = K).
  { apply top_k_row_length. now rewrite (shaped2_nth_length bsz ncols). }
  destruct Hfs as [Hn _].
  rewrite !map_map.
  rewrite (nth_indep _ [] (map f (map snd (top_k_row gtb K []))))
    by (rewrite length_map; lia).
  rewrite (map_nth (fun r => map f (map snd (top_k_row gtb K r)))).
  rewrite map_map.
  rewrite (nth_indep _ db (f (snd (d, 0)))) by (rewrite length_map; lia).
  now rewrite (map_nth (fun x => f (snd x))).
Qed.


(** ** Flattened tabulated tensors *)

Lemma tabulate_shaped2 {A} n m (f : nat -> nat -> A) :
  shaped2 n m (tabulate n (fun b => tabulate m (f b))).
Proof.
  split; [apply tabulate_length|].
  apply Forall_forall; intros r Hr. unfold tabulate in Hr at 1.
  apply in_map_iff in Hr as (b & <- & _). apply tabulate_length.
Qed.

Lemma concat_tabulate_length {A} n m (f : nat -> nat -> A) :
  length (concat (tabulate n (fun b => tabulate m (f b)))) = n * m.
Proof. apply shaped2_concat_length, tabulate_shaped2. Qed.

Lemma concat_tabulate_nth {A} n m (f : nat -> nat -> A) d idx :
  idx < n * m ->
  nth idx (concat (tabulate n (fun k => tabulate m (f k)))) d
  = f (idx / m) (idx mod m).
Proof.
  intros H.
  assert (Hm : m <> 0) by (intros ->; lia).
  assert (Hq : idx / m < n) by (apply Nat.Div0.div_lt_upper_bound; lia).
  assert (Hr : idx mod m < m) by now apply Nat.mod_upper_bound.
  apply nth_error_nth.
  rewrite (Nat.div_mod_eq idx m) at 1. rewrite (Nat.mul_comm m).
  rewrite (concat_nth_error n m) by (auto using tabulate_shaped2).
  rewrite (nth_error_nth' _ d) by (rewrite (shaped2_nth_length n m); auto using tabulate_shaped2).
  f_equal. now apply (get2_tabulate n m f d).
Qed.

Lemma map_concat_tabulate {A} n m p (f : nat -> nat -> nat -> A) :
  shaped2 n (m * p)
    (map (@concat A) (tabulate n (fun b => tabulate m (fun k => tabulate p (f b k))))).
Proof.
  split; [now rewrite length_map, tabulate_length|].
  apply Forall_forall; intros r Hr.
  apply in_map_iff in Hr as (x & <- & Hx). unfold tabulate in Hx at 1.
  apply in_map_iff in Hx as (b & <- & _). apply concat_tabulate_length.
Qed.


(** ** The decoder's answer, reshaped *)

Lemma probs_of_shaped bsz Kn V t :
  length (data t) = bsz * Kn * V -> shaped3 bsz Kn V (probs_of bsz Kn V t).
Proof.
  intros H. unfold probs_of, shaped3. rewrite length_map, chunks_length.
  split; [reflexivity|].
  assert (Hs : shaped2 bsz (Kn * V) (chunks bsz (Kn * V) (data t)))
    by (apply chunks_shaped; lia).
  destruct Hs as [_ Hs]. rewrite Forall_forall in Hs.
  apply Forall_forall; intros r Hr. apply in_map_iff in Hr as (x & <- & Hx).
  apply chunks_shaped. now apply Hs.
Qed.

Lemma shaped3_row {A} n m p (t : list (list (list A))) b :
  shaped3 n m p t -> b < n -> shaped2 m p (nth b t []).
Proof.
  intros [Hn Hf] Hb. rewrite Forall_forall in Hf. apply Hf, nth_In. lia.
Qed.

Lemma reshape_probs_ok bsz Kn V t :
  answers bsz Kn V t ->
  BeamSearchBase.reshape_probs bsz Kn t = Ok (V, probs_of bsz Kn V t).
Proof.
  intros [HV Hlen]. unfold BeamSearchBase.reshape_probs. rewrite HV. simpl.
  rewrite Hlen, Nat.eqb_refl. reflexivity.
Qed.

(** ** What [rank] returns *)

Section RankFacts.
Context {Enc Extra : Type}.
Variable penalty : Z -> Q.
Variable d : BeamSearchBase.decoder Enc Extra.
Variables bsz Kn : nat.

Lemma later_scores_shaped V i t (st : BeamSearchBase.state Extra) :
  shaped2 bsz (Kn * V) (later_scores penalty bsz Kn V i t st).
Proof. apply map_concat_tabulate. Qed.

(** A later step ranks all [Kn * V] candidates of a row. *)
Lemma rank_later i st t e V :
  (0 < i)%Z ->
  BeamSearchBase.step d (BeamSearchBase.paths st) (BeamSearchBase.extra st) = (t, e) ->
  answers bsz Kn V t -> 1 <= bsz -> Kn <= Kn * V ->
  BeamSearchBase.rank penalty d bsz Kn i st
  = Ok (chosen Qgtb 0%Q bsz Kn V (later_scores penalty bsz Kn V i t st)
          (later_candidates bsz Kn V t st), e).
Proof.
  intros Hi Hstep Hans Hb HV. unfold BeamSearchBase.rank. rewrite Hstep.
  rewrite (reshape_probs_ok bsz Kn V t Hans). simpl bind.
  unfold BeamSearchBase.score.
  destruct (Z.ltb_spec 0 i) as [_|]; [|lia].
  unfold reshape_rows. destruct (Nat.eqb_spec bsz 0) as [|_]; [lia|]. simpl bind.
  fold (later_candidates bsz Kn V t st).
  fold (later_scores penalty bsz Kn V i t st).
  rewrite (select_ok Qgtb 0%Q bsz Kn V (Kn * V)).
  - reflexivity.
  - apply later_scores_shaped.
  - exact HV.
  - apply tabulate_length.
  - intros b Hlt. unfold later_candidates, BeamSearchBase.combine_log_probs.
    rewrite (tabulate_nth bsz) by assumption.
    now rewrite concat_tabulate_length.
Qed.

Lemma first_scores_shaped V t :
  length (data t) = bsz * Kn * V -> 1 <= Kn ->
  shaped2 bsz V (first_scores bsz Kn V t).
Proof.
  intros Hlen HK. pose proof (probs_of_shaped bsz Kn V t Hlen) as [Hn Hf].
  split; [unfold first_scores; now rewrite length_map|].
  rewrite Forall_forall in Hf.
  apply Forall_forall; intros r Hr. unfold first_scores in Hr.
  apply in_map_iff in Hr as (x & <- & Hx).
  apply (shaped2_nth_length Kn V x 0 (Hf x Hx)). lia.
Qed.

(** The first step ranks the [V] candidates of beam 0 only. *)
Lemma rank_first i st t e V :
  (i <= 0)%Z ->
  BeamSearchBase.step d (BeamSearchBase.paths st) (BeamSearchBase.extra st) = (t, e) ->
  answers bsz Kn V t -> 1 <= bsz -> 1 <= Kn -> Kn <= V ->
  BeamSearchBase.rank penalty d bsz Kn i st
  = Ok (chosen Qgtb 0%Q bsz Kn V (first_scores bsz Kn V t) (probs_of bsz Kn V t), e).
Proof.
  intros Hi Hstep Hans Hb HK HV. unfold BeamSearchBase.rank. rewrite Hstep.
  rewrite (reshape_probs_ok bsz Kn V t Hans). simpl bind.
  unfold BeamSearchBase.score.
  destruct (Z.ltb_spec 0 i) as [|_]; [lia|].
  unfold first_step_scores, reshape_rows.
  destruct (Nat.eqb_spec Kn 0) as [|_]; [lia|]. simpl bind.
  destruct (Nat.eqb_spec bsz 0) as [|_]; [lia|]. simpl bind.
  fold (first_scores bsz Kn V t).
  destruct Hans as [_ Hlen].
  rewrite (select_ok Qgtb 0%Q bsz Kn V V).
  - reflexivity.
  - now apply first_scores_shaped.
  - assumption.
  - now apply probs_of_shaped.
  - intros b Hlt.
    rewrite (shaped2_concat_length Kn V); [nia|].
    apply (shaped3_row bsz); [now apply probs_of_shaped | assumption].
Qed.

(** More beams than tokens: the first step has nothing valid to return. *)
Lemma rank_first_error i st t e V :
  (i <= 0)%Z ->
  BeamSearchBase.step d (BeamSearchBase.paths st) (BeamSearchBase.extra st) = (t, e) ->
  answers bsz Kn V t -> 1 <= bsz -> V < Kn ->
  BeamSearchBase.rank penalty d bsz Kn i st = Err TopKError.
Proof.
  intros Hi Hstep Hans Hb HV. unfold BeamSearchBase.rank. rewrite Hstep.
  rewrite (reshape_probs_ok bsz Kn V t Hans). simpl bind.
  unfold BeamSearchBase.score.
  destruct (Z.ltb_spec 0 i) as [|_]; [lia|].
  unfold first_step_scores, reshape_rows.
  destruct (Nat.eqb_spec Kn 0) as [|_]; [lia|]. simpl bind.
  destruct (Nat.eqb_spec bsz 0) as [|_]; [lia|]. simpl bind.
  now rewrite select_topk_error.
Qed.

End RankFacts.

Lemma nth_map_default {A B} (f : A -> B) (l : list A) b da db :
  b < length l -> nth b (map f l) db = f (nth b l da).
Proof.
  intros H. rewrite (nth_indep _ db (f da)) by now rewrite length_map.
  apply map_nth.
Qed.

(** ** Reading the closed-form selection *)

Section ChosenFacts.
Context {A : Type} (gtb : A -> A -> bool) (d : A).
Variables (bsz K V ncols : nat).
Variable fs : list (list A).
Variable probs : list (list (list A)).
Hypothesis Hfs : shaped2 bsz ncols fs.
Hypothesis HK : K <= ncols.

Lemma chosen_beam b j :
  b < bsz -> j < K ->
  get2 0 (sel_beams (chosen gtb d bsz K V fs probs)) b j
  = snd (picked gtb d K fs b j) / V.
Proof.
  intros; simpl.
  now apply (get2_best gtb d (fun idx => idx / V) 0 bsz K ncols).
Qed.

Lemma chosen_idx b j :
  b < bsz -> j < K ->
  get2 0 (sel_idx (chosen gtb d bsz K V fs probs)) b j
  = snd (picked gtb d K fs b j) mod V.
Proof.
  intros; simpl.
  now apply (get2_best gtb d (fun idx => idx mod V) 0 bsz K ncols).
Qed.


Lemma chosen_log_prob b j :
  b < bsz -> j < K ->
  get2 d (sel_log_probs (chosen gtb d bsz K V fs probs)) b j
  = nth (snd (picked gtb d K fs b j)) (concat (nth b probs [])) d.
Proof.
  intros; simpl.
  now apply (get2_tabulate bsz K (fun b j =>
    nth (snd (picked gtb d K fs b j)) (concat (nth b probs [])) d)).
Qed.

Lemma chosen_idx_row b :
  b < bsz ->
  nth b (sel_idx (chosen gtb d bsz K V fs probs)) []
  = map (fun idx => idx mod V) (map snd (top_k_row gtb K (nth b fs []))).
Proof.
  intros Hb; simpl. destruct Hfs as [Hn _].
  rewrite (nth_map_default _ _ b []) by (rewrite !length_map; lia).
  rewrite (nth_map_default _ _ b []) by (rewrite !length_map; lia).
  rewrite (nth_map_default _ _ b []) by lia.
  reflexivity.
Qed.

Lemma chosen_idx_row_length b :
  b < bsz -> length (nth b (sel_idx (chosen gtb d bsz K V fs probs)) []) = K.
Proof.
  intros Hb. rewrite chosen_idx_row by assumption. rewrite !length_map.
  apply top_k_row_length. now rewrite (shaped2_nth_length bsz ncols).
Qed.

End ChosenFacts.

Lemma map_id_on {A} (f : A -> A) (l : list A) :
  (forall x, In x l -> f x = x) -> map f l = l.
Proof.
  induction l as [|x l IH]; simpl; intros H; [reflexivity|].
  rewrite H by now left. rewrite IH; auto.
Qed.

Lemma tabulate_ext {A} n (f g : nat -> A) :
  (forall i, i < n -> f i = g i) -> tabulate n f = tabulate n g.
Proof.
  intros H. unfold tabulate. apply map_ext_in. intros i Hi.
  apply in_seq in Hi. apply H. lia.
Qed.

Lemma nth_ext_shaped {A} (d : A) n (l l' : list A) :
  length l = n -> length l' = n ->
  (forall i, i < n -> nth i l d = nth i l' d) -> l = l'.
Proof.
  intros H H' Hi. apply (nth_ext l l' d d); [congruence|].
  intros i Hlt. apply Hi. lia.
Qed.

(** In the first step the indices are tokens of beam 0: distinct, below
    [V], and untouched by [% V]. *)
Lemma first_step_tokens bsz Kn V (fs : list (list Q)) probs b :
  shaped2 bsz V fs -> Kn <= V -> b < bsz ->
  nth b (sel_idx (chosen Qgtb 0%Q bsz Kn V fs probs)) []
  = map snd (top_k_row Qgtb Kn (nth b fs [])).
Proof.
  intros Hfs HK Hb. rewrite (chosen_idx_row Qgtb 0%Q bsz Kn V V) by assumption.
  apply map_id_on. intros idx Hin.
  apply in_map_iff in Hin as ([x i] & <- & Hin). simpl.
  apply top_k_row_In in Hin. apply Nat.mod_small.
  rewrite <- (shaped2_nth_length bsz V fs b Hfs Hb).
  apply nth_error_Some. congruence.
Qed.

Lemma first_block_nth {A} (d : A) Kn V (row : list (list A)) idx :
  shaped2 Kn V row -> 1 <= Kn -> idx < V ->
  nth idx (concat row) d = nth idx (nth 0 row []) d.
Proof.
  intros Hs HK Hi. apply nth_error_nth.
  change idx with (0 * V + idx) at 1.
  rewrite (concat_nth_error Kn V) by (assumption || lia).
  apply nth_error_nth'. rewrite (shaped2_nth_length Kn V); [assumption..|lia].
Qed.

(** In the first step the log-probability carried forward is the score that
    was ranked, so the whole selection is a function of beam 0's scores. *)
Lemma first_step_log_prob bsz Kn V t b j :
  length (data t) = bsz * Kn * V -> 1 <= Kn -> Kn <= V -> b < bsz -> j < Kn ->
  nth (snd (picked Qgtb 0%Q Kn (first_scores bsz Kn V t) b j))
      (concat (nth b (probs_of bsz Kn V t) [])) 0%Q
  = fst (picked Qgtb 0%Q Kn (first_scores bsz Kn V t) b j).
Proof.
  intros Hlen HK HV Hb Hj.
  pose proof (first_scores_shaped bsz Kn V t Hlen HK) as Hfs.
  pose proof (probs_of_shaped bsz Kn V t Hlen) as Hp.
  pose proof (picked_lt Qgtb 0%Q bsz Kn V _ b j Hfs HV Hb Hj) as Hi.
  pose proof (picked_score Qgtb 0%Q bsz Kn V _ b j Hfs HV Hb Hj) as Hs.
  rewrite (first_block_nth 0%Q Kn V)
    by (try apply (shaped3_row bsz Kn V _ b Hp Hb); assumption).
  apply nth_error_nth with (d := 0%Q) in Hs. rewrite <- Hs.
  unfold first_scores. destruct Hp as [Hn _].
  now rewrite (nth_map_default _ _ b []) by lia.
Qed.

Lemma chosen_first_only bsz Kn V t t' :
  length (data t) = bsz * Kn * V -> length (data t') = bsz * Kn * V ->
  1 <= Kn -> Kn <= V ->
  first_scores bsz Kn V t = first_scores bsz Kn V t' ->
  chosen Qgtb 0%Q bsz Kn V (first_scores bsz Kn V t) (probs_of bsz Kn V t)
  = chosen Qgtb 0%Q bsz Kn V (first_scores bsz Kn V t') (probs_of bsz Kn V t').
Proof.
  intros Hlen Hlen' HK HV Heq. unfold chosen. rewrite <- Heq. f_equal.
  apply tabulate_ext; intros b Hb. apply tabulate_ext; intros j Hj.
  rewrite first_step_log_prob by assumption.
  rewrite Heq. rewrite first_step_log_prob by assumption. reflexivity.
Qed.

Lemma first_scores_agree bsz Kn V t t' :
  length (data t) = bsz * Kn * V -> length (data t') = bsz * Kn * V ->
  1 <= Kn ->
  (forall b v, b < bsz -> v < V ->
     get3 0%Q (probs_of bsz Kn V t') b 0 v = get3 0%Q (probs_of bsz Kn V t) b 0 v) ->
  first_scores bsz Kn V t' = first_scores bsz Kn V t.
Proof.
  intros Hlen Hlen' HK Hag.
  pose proof (first_scores_shaped bsz Kn V t Hlen HK) as Hs.
  pose proof (first_scores_shaped bsz Kn V t' Hlen' HK) as Hs'.
  apply (nth_ext_shaped [] bsz); [apply Hs' | apply Hs |].
  intros b Hb.
  apply (nth_ext_shaped 0%Q V);
    [now apply (shaped2_nth_length bsz V) | now apply (shaped2_nth_length bsz V) |].
  intros v Hv. specialize (Hag b v Hb Hv). unfold get3 in Hag.
  pose proof (probs_of_shaped bsz Kn V t Hlen) as [Hn _].
  pose proof (probs_of_shaped bsz Kn V t' Hlen') as [Hn' _].
  unfold first_scores.
  rewrite (nth_map_default _ _ b []) by lia.
  rewrite (nth_map_default _ _ b []) by lia. exact Hag.
Qed.

(** ** Candidates and scores of a later step *)

Section LaterFacts.
Context {Extra : Type}.
Variable penalty : Z -> Q.
Variables bsz Kn V : nat.
Variable i : Z.
Variable t : tensor.
Variable st : BeamSearchBase.state Extra.

Lemma later_candidate b k v :
  b < bsz -> k < Kn -> v < V ->
  get3 0%Q (later_candidates bsz Kn V t st) b k v
  = (get2 0 (BeamSearchBase.log_probs st) b k
     + masked_log_prob (get2 0%Z (BeamSearchBase.lengths st) b k) v
         (get3 0 (probs_of bsz Kn V t) b k v))%Q.
Proof.
  intros Hb Hk Hv. unfold later_candidates, BeamSearchBase.combine_log_probs.
  now rewrite (get3_tabulate bsz Kn V) by assumption.
Qed.

Lemma flat_index_split idx :
  idx < Kn * V -> idx / V < Kn /\ idx mod V < V.
Proof.
  intros H. assert (V <> 0) by (intros ->; lia). split.
  - apply Nat.Div0.div_lt_upper_bound; lia.
  - now apply Nat.mod_upper_bound.
Qed.

Lemma later_candidate_flat b idx :
  b < bsz -> idx < Kn * V ->
  nth idx (concat (nth b (later_candidates bsz Kn V t st) [])) 0%Q
  = get3 0%Q (later_candidates bsz Kn V t st) b (idx / V) (idx mod V).
Proof.
  intros Hb Hi. destruct (flat_index_split idx Hi) as [Hq Hr].
  unfold later_candidates at 1, BeamSearchBase.combine_log_probs.
  rewrite (tabulate_nth bsz) by assumption.
  rewrite concat_tabulate_nth by assumption.
  symmetry. now apply later_candidate.
Qed.


End LaterFacts.

Lemma masked_log_prob_live v p : (masked_log_prob 0 v p == p)%Q.
Proof. unfold masked_log_prob, masked_fill; simpl. ring. Qed.

Lemma masked_log_prob_done_eos len v p :
  len <> 0%Z -> Z.of_nat v = Offsets.EOS -> (masked_log_prob len v p == 0)%Q.
Proof.
  intros Hl Hv. unfold masked_log_prob, masked_fill.
  destruct (Z.eqb_spec len 0) as [|_]; [contradiction|].
  rewrite Hv, Z.eqb_refl. simpl. ring.
Qed.

Lemma masked_log_prob_done_other len v p :
  len <> 0%Z -> Z.of_nat v <> Offsets.EOS ->
  (masked_log_prob len v p == NEG_FILL)%Q.
Proof.
  intros Hl Hv. unfold masked_log_prob, masked_fill.
  destruct (Z.eqb_spec len 0) as [|_]; [contradiction|].
  destruct (Z.eqb_spec (Z.of_nat v) Offsets.EOS) as [|_]; [contradiction|].
  simpl. ring.
Qed.

(** ** Moving the per-beam state *)

Lemma gather_ok {A} (d : A) params indices :
  (forall x, In x indices -> x < length params) ->
  gather params indices = Ok (map (fun x => nth x params d) indices).
Proof.
  intros H. unfold gather. apply mapM_map. intros x Hx.
  now rewrite (nth_error_nth' _ d) by auto.
Qed.

Lemma map_as_tabulate {A B} (g : A -> B) (d : A) n (l : list A) :
  length l = n -> map g l = tabulate n (fun j => g (nth j l d)).
Proof.
  intros H. apply (nth_ext_shaped (g d) n);
    [now rewrite length_map | apply tabulate_length |].
  intros j Hj. rewrite tabulate_nth by assumption. apply map_nth.
Qed.

Lemma zip_tabulate {A B C} (f : A -> B -> C) (da : A) (db : B) n l l' :
  length l = n -> length l' = n ->
  map (fun p => f (fst p) (snd p)) (combine l l')
  = tabulate n (fun j => f (nth j l da) (nth j l' db)).
Proof.
  intros H H'.
  rewrite (map_as_tabulate _ (da, db) n)
    by (rewrite length_combine; lia).
  apply tabulate_ext. intros j Hj.
  now rewrite combine_nth by congruence.
Qed.

Lemma zip2_tabulate {A B C} (f : A -> B -> C) (da : A) (db : B) n m x y :
  shaped2 n m x -> shaped2 n m y ->
  map (fun r => map (fun p => f (fst p) (snd p)) (combine (fst r) (snd r)))
      (combine x y)
  = tabulate n (fun b => tabulate m (fun j => f (get2 da x b j) (get2 db y b j))).
Proof.
  intros Hx Hy.
  rewrite (zip_tabulate (fun r r' => map (fun p => f (fst p) (snd p)) (combine r r'))
             [] [] n) by (apply Hx || apply Hy).
  apply tabulate_ext. intros b Hb.
  apply zip_tabulate; now apply (shaped2_nth_length n m).
Qed.

Lemma chunks_concat {A} n m (t : list (list A)) :
  shaped2 n m t -> chunks n m (concat t) = t.
Proof.
  intros [Hn Hf]; revert n Hn.
  induction Hf as [|r t Hr Hf IH]; intros n Hn; subst n; simpl; [reflexivity|].
  rewrite firstn_app, skipn_app, Hr, Nat.sub_diag, firstn_all2, skipn_all2 by lia.
  simpl. rewrite app_nil_r. now rewrite IH.
Qed.

Lemma concat_tabulate_map {A B} (g : A -> B) n m (f : nat -> nat -> A) :
  map g (concat (tabulate n (fun b => tabulate m (f b))))
  = concat (tabulate n (fun b => tabulate m (fun j => g (f b j)))).
Proof.
  unfold tabulate. rewrite concat_map, map_map. f_equal.
  apply map_ext. intros b. now rewrite map_map.
Qed.

Lemma update_lengths_tabulate bsz Kn lengths eoses idx :
  shaped2 bsz Kn lengths -> shaped2 bsz Kn eoses ->
  update_lengths lengths eoses idx
  = tabulate bsz (fun b => tabulate Kn (fun k =>
      update_lengths_entry (get2 0%Z lengths b k) (get2 false eoses b k) idx)).
Proof.
  intros Hl He. unfold update_lengths.
  now apply (zip2_tabulate (fun l e => update_lengths_entry l e idx)).
Qed.

Lemma update_lengths_entry_frozen len eos idx :
  len <> 0%Z -> update_lengths_entry len eos idx = len.
Proof.
  intros H. unfold update_lengths_entry, masked_fill_int.
  destruct (Z.eqb_spec len 0) as [|_]; [contradiction|]. simpl. lia.
Qed.

Lemma update_lengths_entry_open eos idx :
  update_lengths_entry 0 eos idx = if eos then idx else 0%Z.
Proof.
  unfold update_lengths_entry, masked_fill_int. destruct eos; simpl; lia.
Qed.

Lemma map_map_shaped2 {A B} (f : A -> B) n m (t : list (list A)) :
  shaped2 n m t -> shaped2 n m (map (map f) t).
Proof.
  intros [Hn Hf]. split; [now rewrite length_map|].
  rewrite Forall_forall in Hf.
  apply Forall_forall; intros r Hr. apply in_map_iff in Hr as (x & <- & Hx).
  rewrite length_map. now apply Hf.
Qed.

Lemma get2_map_map {A B} (f : A -> B) (da : A) (db : B) n m t b k :
  shaped2 n m t -> b < n -> k < m ->
  get2 db (map (map f) t) b k = f (get2 da t b k).
Proof.
  intros Hs Hb Hk. unfold get2.
  rewrite (nth_map_default _ _ b []) by (destruct Hs; lia).
  apply nth_map_default. now rewrite (shaped2_nth_length n m).
Qed.

Lemma get2_nth_error {A} (d : A) n m t b k :
  shaped2 n m t -> b < n -> k < m ->
  nth_error (nth b t []) k = Some (get2 d t b k).
Proof.
  intros Hs Hb Hk. apply nth_error_nth'. now rewrite (shaped2_nth_length n m).
Qed.

Section AdvanceFacts.
Context {Enc Extra : Type}.
Variable penalty : Z -> Q.
Variable d : BeamSearchBase.decoder Enc Extra.
Variables bsz Kn : nat.

Lemma flatten_beams_tabulate beams :
  shaped2 bsz Kn beams ->
  BeamSearchBase.flatten_beams bsz Kn beams
  = concat (tabulate bsz (fun b => tabulate Kn (fun j => get2 0 beams b j + b * Kn))).
Proof.
  intros Hs. unfold BeamSearchBase.flatten_beams. f_equal.
  rewrite (zip_tabulate (fun r o => map (fun beam => beam + o) r) [] 0 bsz)
    by (apply Hs || apply tabulate_length).
  apply tabulate_ext. intros b Hb.
  rewrite tabulate_nth by assumption.
  apply (map_as_tabulate (fun beam => beam + b * Kn) 0 Kn).
  now apply (shaped2_nth_length bsz Kn).
Qed.

Lemma gather_moved {A} (da : A) x beams :
  shaped2 bsz Kn x -> shaped2 bsz Kn beams ->
  (forall b j, b < bsz -> j < Kn -> get2 0 beams b j < Kn) ->
  gather (concat x) (BeamSearchBase.flatten_beams bsz Kn beams)
  = Ok (concat (moved da bsz Kn x beams)).
Proof.
  intros Hx Hb Hlt. rewrite flatten_beams_tabulate by assumption.
  rewrite (gather_ok da).
  - f_equal. rewrite concat_tabulate_map. f_equal. unfold moved.
    apply tabulate_ext. intros b Hlb. apply tabulate_ext. intros j Hj.
    apply nth_error_nth. rewrite Nat.add_comm.
    rewrite (concat_nth_error bsz Kn) by auto.
    now apply (get2_nth_error da bsz Kn); auto.
  - intros idx Hin. apply in_concat in Hin as (row & Hrow & Hin).
    unfold tabulate in Hrow. apply in_map_iff in Hrow as (b & <- & Hlb).
    apply in_map_iff in Hin as (j & <- & Hj).
    apply in_seq in Hlb, Hj.
    rewrite (shaped2_concat_length bsz Kn) by assumption.
    specialize (Hlt b j ltac:(lia) ltac:(lia)). nia.
Qed.

(** [advance] succeeds on well-shaped inputs and builds [next_state]. *)
Lemma advance_ok i st sel e :
  shaped_state bsz Kn st ->
  shaped2 bsz Kn (sel_beams sel) -> shaped2 bsz Kn (sel_idx sel) ->
  (forall b j, b < bsz -> j < Kn -> get2 0 (sel_beams sel) b j < Kn) ->
  BeamSearchBase.advance d bsz Kn i st sel e = Ok (next_state d bsz Kn i st sel e).
Proof.
  intros [Hp Hl] Hbeams Hidx Hlt.
  unfold BeamSearchBase.advance, BeamSearchBase.extend_paths,
    BeamSearchBase.regather_lengths.
  rewrite (gather_moved []) by assumption. simpl bind.
  rewrite (gather_moved 0%Z) by assumption. simpl bind.
  rewrite !chunks_concat by apply tabulate_shaped2.
  rewrite (zip2_tabulate (fun p tok => p ++ [Z.of_nat tok]) [] 0 bsz Kn)
    by (assumption || apply tabulate_shaped2).
  unfold next_state, next_paths. f_equal. f_equal.
  - apply tabulate_ext. intros b Hb. apply tabulate_ext. intros j Hj.
    unfold moved. now rewrite (get2_tabulate bsz Kn) by assumption.
  - f_equal. f_equal.
    apply tabulate_ext. intros b Hb. apply tabulate_ext. intros j Hj.
    unfold moved. now rewrite (get2_tabulate bsz Kn) by assumption.
Qed.

Lemma next_state_shaped i st sel e :
  shaped_state bsz Kn (next_state d bsz Kn i st sel e).
Proof.
  split; simpl.
  - apply tabulate_shaped2.
  - rewrite (update_lengths_tabulate bsz Kn).
    + apply tabulate_shaped2.
    + apply tabulate_shaped2.
    + apply map_map_shaped2, tabulate_shaped2.
Qed.

Lemma initial_shaped enc :
  shaped_state bsz Kn (BeamSearchBase.initial d bsz Kn enc).
Proof. split; apply repeat_shaped2. Qed.

End AdvanceFacts.

Lemma best_shaped {A B} (gtb : A -> A -> bool) (f : nat -> B) bsz K ncols fs :
  shaped2 bsz ncols fs -> K <= ncols ->
  shaped2 bsz K (map (map f) (map (map snd) (map (top_k_row gtb K) fs))).
Proof.
  intros [Hn Hf] HK. split; [now rewrite !length_map|].
  rewrite Forall_forall in Hf.
  apply Forall_forall; intros r Hr.
  apply in_map_iff in Hr as (x & <- & Hx).
  apply in_map_iff in Hx as (y & <- & Hy).
  apply in_map_iff in Hy as (row & <- & Hrow).
  rewrite !length_map. apply top_k_row_length. rewrite (Hf row Hrow). exact HK.
Qed.

(** ** Reading a successful step backwards *)

Section Inversion.
Context {Enc Extra : Type}.
Variable penalty : Z -> Q.
Variable d : BeamSearchBase.decoder Enc Extra.
Variables bsz Kn : nat.

Lemma reshape_probs_inv t V probs :
  BeamSearchBase.reshape_probs bsz Kn t = Ok (V, probs) ->
  answers bsz Kn V t /\ probs = probs_of bsz Kn V t.
Proof.
  unfold BeamSearchBase.reshape_probs, answers. intros H.
  apply bind_ok in H as (V' & HV & H).
  destruct (Nat.eqb_spec (length (data t)) (bsz * Kn * V')) as [Hl|]; [|discriminate].
  inversion H; subst. auto.
Qed.

(** A step that succeeded was asked on at least one row, got [bsz * Kn]
    distributions, and made the selection given in closed form. *)
Lemma rank_inv i st sel e :
  BeamSearchBase.rank penalty d bsz Kn i st = Ok (sel, e) ->
  exists V,
    answers bsz Kn V (asked d st) /\ 1 <= bsz /\
    e = snd (BeamSearchBase.step d (BeamSearchBase.paths st) (BeamSearchBase.extra st)) /\
    (((0 < i)%Z /\ Kn <= Kn * V /\
      sel = chosen Qgtb 0%Q bsz Kn V
              (later_scores penalty bsz Kn V i (asked d st) st)
              (later_candidates bsz Kn V (asked d st) st)) \/
     ((i <= 0)%Z /\ 1 <= Kn /\ Kn <= V /\
      sel = chosen Qgtb 0%Q bsz Kn V (first_scores bsz Kn V (asked d st))
              (probs_of bsz Kn V (asked d st)))).
Proof.
  intros H.
  assert (Hstep : BeamSearchBase.step d (BeamSearchBase.paths st) (BeamSearchBase.extra st)
                  = (asked d st,
                     snd (BeamSearchBase.step d (BeamSearchBase.paths st)
                            (BeamSearchBase.extra st))))
    by (unfold asked; apply surjective_pairing).
  pose proof H as H'. unfold BeamSearchBase.rank in H'. rewrite Hstep in H'.
  apply bind_ok in H' as ([V probs] & Hre & H').
  apply reshape_probs_inv in Hre as [Hans ->].
  apply bind_ok in H' as ([[probs' fs] ncols] & Hsc & H').
  apply bind_ok in H' as (sel' & Hsel & H').
  exists V. unfold BeamSearchBase.score in Hsc.
  assert (Hbsz : 1 <= bsz).
  { destruct (0 <? i)%Z.
    - apply bind_ok in Hsc as (x & Hx & _). unfold reshape_rows in Hx.
      destruct (Nat.eqb_spec bsz 0); [discriminate | lia].
    - apply bind_ok in Hsc as (x & Hx & _). unfold first_step_scores in Hx.
      apply bind_ok in Hx as (y & _ & Hx). unfold reshape_rows in Hx.
      destruct (Nat.eqb_spec bsz 0); [discriminate | lia]. }
  assert (Hncols : Kn <= ncols).
  { unfold select, top_k in Hsel.
    destruct (Nat.ltb_spec ncols Kn); [discriminate | assumption]. }
  destruct (Z.ltb_spec 0 i) as [Hpos|Hz].
  - apply bind_ok in Hsc as (x & _ & Hx). inversion Hx; subst; clear Hx.
    rewrite (rank_later penalty d bsz Kn i st _ _ V Hpos Hstep Hans Hbsz Hncols) in H.
    inversion H; subst. auto 10.
  - apply bind_ok in Hsc as (x & Hx & Hsc). inversion Hsc; subst; clear Hsc.
    assert (HK : 1 <= Kn).
    { unfold first_step_scores in Hx. destruct (Nat.eqb_spec Kn 0); [discriminate | lia]. }
    rewrite (rank_first penalty d bsz Kn i st _ _ ncols Hz Hstep Hans Hbsz HK Hncols) in H.
    inversion H; subst. auto 10.
Qed.

End Inversion.

Lemma chosen_wf {A} (gtb : A -> A -> bool) (d : A) bsz Kn V ncols fs probs :
  shaped2 bsz ncols fs -> Kn <= ncols -> ncols <= Kn * V ->
  shaped2 bsz Kn (sel_beams (chosen gtb d bsz Kn V fs probs)) /\
  shaped2 bsz Kn (sel_idx (chosen gtb d bsz Kn V fs probs)) /\
  (forall b j, b < bsz -> j < Kn ->
     get2 0 (sel_beams (chosen gtb d bsz Kn V fs probs)) b j < Kn).
Proof.
  intros Hfs HK Hn. split; [|split].
  - now apply (best_shaped gtb _ bsz Kn ncols).
  - now apply (best_shaped gtb _ bsz Kn ncols).
  - intros b j Hb Hj. rewrite (chosen_beam gtb d bsz Kn V ncols) by assumption.
    pose proof (picked_lt gtb d bsz Kn ncols fs b j Hfs HK Hb Hj) as Hi.
    apply (flat_index_split Kn V). lia.
Qed.

Section BodyFacts.
Context {Enc Extra : Type}.
Variable penalty : Z -> Q.
Variable d : BeamSearchBase.decoder Enc Extra.
Variables bsz Kn : nat.

(** A successful pass through the loop body leaves [next_state] of the
    selection that [rank] made. *)
Lemma body_inv i st st' :
  shaped_state bsz Kn st ->
  BeamSearchBase.body penalty d bsz Kn i st = Ok st' ->
  exists sel e,
    BeamSearchBase.rank penalty d bsz Kn i st = Ok (sel, e) /\
    st' = next_state d bsz Kn i st sel e /\
    (forall b j, b < bsz -> j < Kn -> get2 0 (sel_beams sel) b j < Kn).
Proof.
  intros Hst H. unfold BeamSearchBase.body in H.
  apply bind_ok in H as ([sel e] & Hrank & H).
  exists sel, e. split; [exact Hrank|].
  destruct (rank_inv penalty d bsz Kn i st sel e Hrank)
    as (V & [_ Hlen] & Hb & _ & [(Hpos & HKV & Hsel) | (Hz & HK & HV & Hsel)]).
  - destruct (chosen_wf Qgtb 0%Q bsz Kn V (Kn * V)
                (later_scores penalty bsz Kn V i (asked d st) st)
                (later_candidates bsz Kn V (asked d st) st))
      as (Hs1 & Hs2 & Hlt); [apply later_scores_shaped | exact HKV | lia |].
    rewrite <- Hsel in Hs1, Hs2, Hlt.
    rewrite (advance_ok d bsz Kn i st sel e Hst Hs1 Hs2 Hlt) in H.
    inversion H. auto.
  - destruct (chosen_wf Qgtb 0%Q bsz Kn V V
                (first_scores bsz Kn V (asked d st))
                (probs_of bsz Kn V (asked d st)))
      as (Hs1 & Hs2 & Hlt); [now apply first_scores_shaped | exact HV | nia |].
    rewrite <- Hsel in Hs1, Hs2, Hlt.
    rewrite (advance_ok d bsz Kn i st sel e Hst Hs1 Hs2 Hlt) in H.
    inversion H. auto.
Qed.

(** On well-shaped answers the loop body does not fail. *)
Lemma body_ok i st V :
  shaped_state bsz Kn st -> answers bsz Kn V (asked d st) ->
  1 <= bsz -> 1 <= Kn -> Kn <= V ->
  exists sel e,
    BeamSearchBase.rank penalty d bsz Kn i st = Ok (sel, e) /\
    BeamSearchBase.body penalty d bsz Kn i st = Ok (next_state d bsz Kn i st sel e) /\
    (forall b j, b < bsz -> j < Kn -> get2 0 (sel_beams sel) b j < Kn).
Proof.
  intros Hst Hans Hb HK HV.
  assert (Hstep : BeamSearchBase.step d (BeamSearchBase.paths st) (BeamSearchBase.extra st)
                  = (asked d st,
                     snd (BeamSearchBase.step d (BeamSearchBase.paths st)
                            (BeamSearchBase.extra st))))
    by (unfold asked; apply surjective_pairing).
  pose proof Hans as [_ Hlen].
  assert (HKV : Kn <= Kn * V) by nia.
  destruct (Z.ltb_spec 0 i) as [Hpos|Hz].
  - destruct (chosen_wf Qgtb 0%Q bsz Kn V (Kn * V)
                (later_scores penalty bsz Kn V i (asked d st) st)
                (later_candidates bsz Kn V (asked d st) st))
      as (Hs1 & Hs2 & Hlt); [apply later_scores_shaped | exact HKV | lia |].
    pose proof (rank_later penalty d bsz Kn i st _ _ V Hpos Hstep Hans Hb HKV) as Hr.
    eexists _, _. split; [exact Hr|]. split; [|exact Hlt].
    unfold BeamSearchBase.body. rewrite Hr. simpl bind. now apply advance_ok.
  - destruct (chosen_wf Qgtb 0%Q bsz Kn V V
                (first_scores bsz Kn V (asked d st))
                (probs_of bsz Kn V (asked d st)))
      as (Hs1 & Hs2 & Hlt); [now apply first_scores_shaped | exact HV | nia |].
    pose proof (rank_first penalty d bsz Kn i st _ _ V Hz Hstep Hans Hb HK HV) as Hr.
    eexists _, _. split; [exact Hr|]. split; [|exact Hlt].
    unfold BeamSearchBase.body. rewrite Hr. simpl bind. now apply advance_ok.
Qed.

Lemma body_shaped i st st' :
  shaped_state bsz Kn st ->
  BeamSearchBase.body penalty d bsz Kn i st = Ok st' -> shaped_state bsz Kn st'.
Proof.
  intros Hst H. apply body_inv in H as (sel & e & _ & -> & _); [|assumption].
  apply next_state_shaped.
Qed.

Lemma loop_shaped n i st flag st' :
  shaped_state bsz Kn st ->
  BeamSearchBase.loop penalty d bsz Kn n i st = Ok (flag, st') ->
  shaped_state bsz Kn st'.
Proof.
  revert i st; induction n as [|n IH]; simpl; intros i st Hst H.
  - inversion H; subst. exact Hst.
  - apply bind_ok in H as (st1 & Hbody & H).
    pose proof (body_shaped i st st1 Hst Hbody) as Hst1.
    destruct (BeamSearchBase.exit_test Kn (BeamSearchBase.lengths st1)).
    + inversion H; subst. exact Hst1.
    + exact (IH _ _ Hst1 H).
Qed.

(** Lengths right after a step: the length of the origin beam, updated. *)
Lemma next_lengths i st sel e b j :
  b < bsz -> j < Kn ->
  get2 0%Z (BeamSearchBase.lengths (next_state d bsz Kn i st sel e)) b j
  = update_lengths_entry
      (get2 0%Z (BeamSearchBase.lengths st) b (get2 0 (sel_beams sel) b j))
      (Z.of_nat (get2 0%nat (sel_idx sel) b j) =? Offsets.EOS)%Z (i + 1).
Proof.
  intros Hb Hj. simpl.
  rewrite (update_lengths_tabulate bsz Kn)
    by (apply tabulate_shaped2 || apply map_map_shaped2, tabulate_shaped2).
  rewrite (get2_tabulate bsz Kn) by assumption.
  unfold moved at 1. rewrite (get2_tabulate bsz Kn) by assumption.
  f_equal. unfold BeamSearchBase.eoses_of.
  rewrite (get2_map_map _ [] false bsz Kn) by (assumption || apply tabulate_shaped2).
  unfold next_paths. rewrite (get2_tabulate bsz Kn) by assumption.
  now rewrite last_last.
Qed.

Lemma next_path i st sel e b j :
  b < bsz -> j < Kn ->
  get2 [] (BeamSearchBase.paths (next_state d bsz Kn i st sel e)) b j
  = get2 [] (BeamSearchBase.paths st) b (get2 0 (sel_beams sel) b j)
    ++ [Z.of_nat (get2 0 (sel_idx sel) b j)].
Proof.
  intros Hb Hj. simpl. unfold next_paths.
  now rewrite (get2_tabulate bsz Kn) by assumption.
Qed.

End BodyFacts.

(** ** The [else] clause in closed form *)

Section FinalizeFacts.
Context {Enc Extra : Type}.
Variable penalty : Z -> Q.
Variable d : BeamSearchBase.decoder Enc Extra.
Variables bsz Kn : nat.

Lemma finalize_ok mxlen st V :
  answers bsz Kn V (asked d st) -> 3 <= V ->
  exists st',
    BeamSearchBase.finalize penalty d bsz Kn mxlen st = Ok st' /\
    BeamSearchBase.extra st'
    = snd (BeamSearchBase.step d (BeamSearchBase.paths st) (BeamSearchBase.extra st)) /\
    BeamSearchBase.paths st'
    = map (map (fun p => p ++ [Offsets.EOS])) (BeamSearchBase.paths st) /\
    BeamSearchBase.lengths st'
    = update_lengths (BeamSearchBase.lengths st)
        (map (map (fun _ => true)) (BeamSearchBase.lengths st)) mxlen /\
    forall b k, b < bsz -> k < Kn ->
      get2 0%Q (BeamSearchBase.log_probs st') b k
      = (get2 0 (BeamSearchBase.log_probs st) b k
         + masked_fill (get3 0 (probs_of bsz Kn V (asked d st)) b k 2)
             (negb (get2 0%Z (BeamSearchBase.lengths st) b k =? 0)%Z) 0)%Q /\
      get2 0%Q (BeamSearchBase.best_scores st') b k
      = (get2 0 (BeamSearchBase.log_probs st') b k
         / penalty (get2 0%Z (BeamSearchBase.lengths st') b k))%Q.
Proof.
  intros Hans HV.
  assert (Hstep : BeamSearchBase.step d (BeamSearchBase.paths st) (BeamSearchBase.extra st)
                  = (asked d st,
                     snd (BeamSearchBase.step d (BeamSearchBase.paths st)
                            (BeamSearchBase.extra st))))
    by (unfold asked; apply surjective_pairing).
  unfold BeamSearchBase.finalize. rewrite Hstep.
  change (Z.to_nat Offsets.EOS) with 2.
  rewrite (reshape_probs_ok bsz Kn V _ Hans). unfold bind at 1.
  destruct (Nat.leb_spec V 2) as [|_]; [lia|]. unfold bind.
  eexists. split; [reflexivity|]. simpl.
  split; [reflexivity|]. split; [reflexivity|]. split; [reflexivity|].
  intros b k Hb Hk. split.
  - rewrite (get2_tabulate bsz Kn) by assumption.
    rewrite (get2_tabulate bsz Kn) by assumption.
    now rewrite (get2_tabulate bsz Kn) by assumption.
  - now rewrite (get2_tabulate bsz Kn) by assumption.
Qed.

Lemma forced_lengths lengths mxlen b k :
  shaped2 bsz Kn lengths -> b < bsz -> k < Kn ->
  get2 0%Z (update_lengths lengths (map (map (fun _ => true)) lengths) mxlen) b k
  = if (get2 0%Z lengths b k =? 0)%Z then mxlen else get2 0%Z lengths b k.
Proof.
  intros Hs Hb Hk.
  rewrite (update_lengths_tabulate bsz Kn) by (try apply map_map_shaped2; assumption).
  rewrite (get2_tabulate bsz Kn) by assumption.
  rewrite (get2_map_map _ 0%Z false bsz Kn) by assumption.
  destruct (Z.eqb_spec (get2 0%Z lengths b k) 0) as [->|Hn].
  - now rewrite update_lengths_entry_open.
  - now apply update_lengths_entry_frozen.
Qed.

End FinalizeFacts.

(** ** Width one: [top_k] is arg-max *)

Lemma max_index_lt (l : list Q) : l <> [] -> max_index l < length l.
Proof.
  induction l as [|x xs IH]; [congruence|]. intros _.
  destruct xs as [|y ys]; [simpl; lia|].
  change (max_index (x :: y :: ys))
    with (if Qgtb (nth (max_index (y :: ys)) (y :: ys) 0%Q) x
          then S (max_index (y :: ys)) else 0).
  specialize (IH ltac:(discriminate)).
  destruct (Qgtb _ x); simpl in *; lia.
Qed.

Lemma sort_desc_head (row : list Q) s :
  row <> [] ->
  exists rest,
    sort_desc Qgtb (combine row (seq s (length row)))
    = (nth (max_index row) row 0%Q, s + max_index row) :: rest.
Proof.
  revert s; induction row as [|x xs IH]; [congruence|]. intros s _.
  destruct xs as [|y ys].
  - simpl. rewrite Nat.add_0_r. eexists; reflexivity.
  - destruct (IH (S s) ltac:(discriminate)) as [rest Hrest].
    change (sort_desc Qgtb (combine (x :: y :: ys) (seq s (length (x :: y :: ys)))))
      with (insert_desc Qgtb (x, s)
              (sort_desc Qgtb (combine (y :: ys) (seq (S s) (length (y :: ys)))))).
    rewrite Hrest.
    change (max_index (x :: y :: ys))
      with (if Qgtb (nth (max_index (y :: ys)) (y :: ys) 0%Q) x
            then S (max_index (y :: ys)) else 0).
    cbn [insert_desc fst].
    destruct (Qgtb (nth (max_index (y :: ys)) (y :: ys) 0%Q) x).
    + eexists. apply f_equal2; [apply f_equal2; [reflexivity | lia] | reflexivity].
    + eexists. rewrite Nat.add_0_r. reflexivity.
Qed.

Lemma top_1_row (row : list Q) :
  row <> [] ->
  top_k_row Qgtb 1 row = [(nth (max_index row) row 0%Q, max_index row)].
Proof.
  intros H. unfold top_k_row, indexed.
  destruct (sort_desc_head row 0 H) as [rest ->]. reflexivity.
Qed.

(** The arg-max only depends on how the entries compare. *)
Lemma max_index_cmp_ext (l l' : list Q) :
  length l = length l' ->
  (forall j k, j < length l -> k < length l ->
     Qgtb (nth j l 0%Q) (nth k l 0%Q) = Qgtb (nth j l' 0%Q) (nth k l' 0%Q)) ->
  max_index l = max_index l'.
Proof.
  revert l'; induction l as [|x xs IH]; intros [|x' xs'] Hlen H;
    try discriminate; [reflexivity|].
  destruct xs as [|y ys]; destruct xs' as [|y' ys']; try discriminate;
    [reflexivity|].
  assert (IHeq : max_index (y :: ys) = max_index (y' :: ys')).
  { apply IH; [simpl in *; lia|].
    intros j k Hj Hk. apply (H (S j) (S k)); simpl in *; lia. }
  change (max_index (x :: y :: ys))
    with (if Qgtb (nth (max_index (y :: ys)) (y :: ys) 0%Q) x
          then S (max_index (y :: ys)) else 0).
  change (max_index (x' :: y' :: ys'))
    with (if Qgtb (nth (max_index (y' :: ys')) (y' :: ys') 0%Q) x'
          then S (max_index (y' :: ys')) else 0).
  pose proof (max_index_lt (y :: ys) ltac:(discriminate)) as Hlt.
  specialize (H (S (max_index (y :: ys))) 0 ltac:(simpl in *; lia) ltac:(simpl; lia)).
  change (Qgtb (nth (max_index (y :: ys)) (y :: ys) 0%Q) x
          = Qgtb (nth (max_index (y :: ys)) (y' :: ys') 0%Q) x') in H.
  rewrite <- IHeq. rewrite <- H. reflexivity.
Qed.

Lemma Qgtb_shift (lp a b : Q) (v w : nat) (l1 l2 : Z) :
  Qgtb ((lp + masked_log_prob 0 v a) / no_length_penalty l1)
       ((lp + masked_log_prob 0 w b) / no_length_penalty l2)
  = Qgtb a b.
Proof.
  unfold Qgtb. f_equal. apply eq_true_iff_eq. rewrite !Qle_bool_iff.
  rewrite !masked_log_prob_live. unfold no_length_penalty.
  assert (Hdiv : forall x : Q, (x / 1 == x)%Q) by (intros x; field).
  rewrite !Hdiv. split; intros H; lra.
Qed.

Lemma chosen_single (row : list Q) probs V :
  row <> [] -> max_index row < V ->
  sel_beams (chosen Qgtb 0%Q 1 1 V [row] probs) = [[0]] /\
  sel_idx (chosen Qgtb 0%Q 1 1 V [row] probs) = [[max_index row]].
Proof.
  intros Hrow Hlt. unfold chosen. cbn [map sel_beams sel_idx].
  rewrite (top_1_row row Hrow). cbn [map snd].
  now rewrite Nat.div_small, Nat.mod_small by assumption.
Qed.

Lemma probs_of_single V t :
  length (data t) = 1 * 1 * V -> probs_of 1 1 V t = [[data t]].
Proof.
  intros H. unfold probs_of. cbn [chunks map].
  assert (Hf : firstn V (data t) = data t) by (apply firstn_all2; lia).
  rewrite Nat.mul_1_l. now rewrite !Hf.
Qed.

(** ** One row, one beam *)

Section SingleRow.
Context {Enc Extra : Type}.
Variable d : BeamSearchBase.decoder Enc Extra.
Variable V : nat.
Hypothesis HV : 3 <= V.
Hypothesis Hans :
  forall p e, answers 1 1 V (fst (BeamSearchBase.step d [[p]] e)).
Hypothesis Hupd : forall e, BeamSearchBase.update d [0] e = e.

Lemma single_asked (st : BeamSearchBase.state Extra) p :
  BeamSearchBase.paths st = [[p]] -> answers 1 1 V (asked d st).
Proof. intros Hp. unfold asked. rewrite Hp. apply Hans. Qed.

Lemma single_selection i (st : BeamSearchBase.state Extra) p sel e :
  BeamSearchBase.paths st = [[p]] ->
  BeamSearchBase.lengths st = [[0%Z]] ->
  BeamSearchBase.rank no_length_penalty d 1 1 i st = Ok (sel, e) ->
  sel_beams sel = [[0]] /\ sel_idx sel = [[max_index (data (asked d st))]].
Proof.
  intros Hpath Hlen Hrank.
  destruct (rank_inv _ _ _ _ _ _ _ _ Hrank)
    as (V' & Hans' & _ & _ & Hcases).
  assert (V' = V) as ->.
  { destruct Hans' as [HV' _]. destruct (single_asked st p Hpath) as [HV0 _].
    congruence. }
  destruct Hans' as [_ Hdata].
  assert (Hne : data (asked d st) <> []).
  { intros Heq. rewrite Heq in Hdata. simpl in Hdata. lia. }
  pose proof (max_index_lt _ Hne) as Hm.
  destruct Hcases as [(Hpos & _ & ->) | (_ & _ & _ & ->)].
  - (* later step: the scores are the answer shifted by the log-probability *)
    set (row := tabulate V (fun v =>
           (get3 0 (later_candidates 1 1 V (asked d st) st) 0 0 v
            / no_length_penalty
                (get2 0%Z (BeamSearchBase.valid_lengths 1 1 i
                             (BeamSearchBase.lengths st)) 0 0))%Q)).
    assert (Hfs : later_scores no_length_penalty 1 1 V i (asked d st) st = [row]).
    { unfold later_scores, BeamSearchBase.penalized_scores.
      unfold tabulate at 1 2. cbn [seq map concat]. now rewrite app_nil_r. }
    assert (Hrow : max_index row = max_index (data (asked d st))).
    { apply max_index_cmp_ext; [unfold row; rewrite tabulate_length; lia|].
      unfold row. rewrite tabulate_length. intros j k Hj Hk.
      rewrite !tabulate_nth by assumption.
      rewrite !later_candidate by lia.
      rewrite Hlen, (probs_of_single V _ Hdata).
      apply Qgtb_shift. }
    rewrite Hfs. rewrite <- Hrow. apply chosen_single.
    + intros Heq. apply (f_equal (@length Q)) in Heq. unfold row in Heq.
      rewrite tabulate_length in Heq. simpl in Heq. lia.
    + rewrite Hrow. lia.
  - (* first step: the scores are the answer itself *)
    assert (Hfs : first_scores 1 1 V (asked d st) = [data (asked d st)]).
    { unfold first_scores. now rewrite (probs_of_single V _ Hdata). }
    rewrite Hfs. apply chosen_single; [assumption | lia].
Qed.

(** One pass through the body appends the arg-max token. *)
Lemma single_step i (st : BeamSearchBase.state Extra) p :
  BeamSearchBase.paths st = [[p]] -> BeamSearchBase.lengths st = [[0%Z]] ->
  let token := Z.of_nat (max_index (data (asked d st))) in
  exists st1,
    BeamSearchBase.body no_length_penalty d 1 1 i st = Ok st1 /\
    BeamSearchBase.paths st1 = [[p ++ [token]]] /\
    BeamSearchBase.lengths st1
    = [[if (token =? Offsets.EOS)%Z then (i + 1)%Z else 0%Z]] /\
    BeamSearchBase.extra st1
    = snd (BeamSearchBase.step d (BeamSearchBase.paths st) (BeamSearchBase.extra st)).
Proof.
  intros Hp Hl token.
  assert (Hst : shaped_state 1 1 st).
  { split; [rewrite Hp | rewrite Hl]; split; repeat constructor. }
  destruct (body_ok no_length_penalty d 1 1 i st V Hst (single_asked st p Hp))
    as (sel & e & Hrank & Hbody & _); [lia | lia | lia |].
  destruct (single_selection i st p sel e Hp Hl Hrank) as [Hbeams Hidx].
  destruct (rank_inv _ _ _ _ _ _ _ _ Hrank) as (_ & _ & _ & He & _).
  exists (next_state d 1 1 i st sel e). split; [exact Hbody|].
  unfold next_state, next_paths. cbn [BeamSearchBase.paths BeamSearchBase.lengths
    BeamSearchBase.extra].
  rewrite Hbeams, Hidx, Hp, Hl. split; [reflexivity|]. split.
  - unfold moved, tabulate, BeamSearchBase.eoses_of, update_lengths, get2.
    cbn [seq map combine fst snd nth]. rewrite last_last.
    now rewrite update_lengths_entry_open.
  - unfold BeamSearchBase.flatten_beams, tabulate.
    cbn [seq map combine fst snd concat app Nat.mul Nat.add].
    rewrite Hupd. rewrite Hp in He. exact He.
Qed.

(** The loop followed by the [else] clause carries out greedy decoding. *)
Lemma single_loop mxlen n : forall i (st : BeamSearchBase.state Extra) p,
  (0 <= i)%Z ->
  BeamSearchBase.paths st = [[p]] -> BeamSearchBase.lengths st = [[0%Z]] ->
  exists st',
    ('(broke, st1) <- BeamSearchBase.loop no_length_penalty d 1 1 n i st ;;
     if broke : bool then Ok st1
     else BeamSearchBase.finalize no_length_penalty d 1 1 mxlen st1) = Ok st' /\
    BeamSearchBase.paths st'
    = [[fst (greedy_loop d mxlen n i p (BeamSearchBase.extra st))]] /\
    BeamSearchBase.lengths st'
    = [[snd (greedy_loop d mxlen n i p (BeamSearchBase.extra st))]].
Proof.
  induction n as [|n IH]; intros i st p Hi Hp Hl.
  - cbn [BeamSearchBase.loop bind greedy_loop fst snd].
    destruct (finalize_ok no_length_penalty d 1 1 mxlen st V (single_asked st p Hp) HV)
      as (st' & Hfin & _ & Hpaths & Hlen & _).
    exists st'. split; [exact Hfin|]. rewrite Hpaths, Hlen, Hp, Hl. split.
    + reflexivity.
    + unfold update_lengths. cbn [map combine fst snd].
      now rewrite update_lengths_entry_open.
  - destruct (single_step i st p Hp Hl) as (st1 & Hbody & Hp1 & Hl1 & He1).
    cbn [BeamSearchBase.loop greedy_loop]. rewrite Hbody. cbn [bind].
    rewrite <- Hp. rewrite (surjective_pairing (BeamSearchBase.step d _ _)).
    fold (asked d st). rewrite <- He1.
    set (token := Z.of_nat (max_index (data (asked d st)))) in *.
    rewrite Hl1. unfold BeamSearchBase.exit_test, count_nonzero.
    destruct (Z.eqb_spec token Offsets.EOS) as [Heos|Hne].
    + cbn [concat app filter].
      destruct (Z.eqb_spec (i + 1) 0) as [|_]; [lia|].
      cbn [negb length Nat.eqb]. exists st1.
      split; [reflexivity|]. cbn [fst snd]. rewrite Hp1, Hl1.
      destruct (Z.eqb_spec token Offsets.EOS); [|contradiction].
      split; reflexivity.
    + cbn [concat app filter Z.eqb negb length Nat.eqb].
      apply (IH (i + 1)%Z st1 (p ++ [token])); [lia | exact Hp1 | exact Hl1].
Qed.

(** Greedy equivalence for a single input: a search of width one with the
    default penalty returns the greedy sequence and its length.  The scores
    are exact rationals here: adding the running log-probability keeps the
    order of two candidates, which float32 addition may round to a tie. *)
Theorem greedy_equivalence_single_row enc mxlen :
  exists scores,
    BeamSearchBase.__call__ (BeamSearchBase.__init__ 1 None) d enc 1 mxlen
    = Ok ([[fst (greedy_decode d enc mxlen)]],
          [[snd (greedy_decode d enc mxlen)]], scores).
Proof.
  unfold BeamSearchBase.__call__, greedy_decode.
  change (BeamSearchBase.K (BeamSearchBase.__init__ 1 None)) with 1%Z.
  change (BeamSearchBase.length_penalty (BeamSearchBase.__init__ 1 None))
    with no_length_penalty.
  change (Z.to_nat 1) with 1. change (1 <? 0)%Z with false. cbv iota zeta.
  destruct (single_loop mxlen (Z.to_nat (mxlen - 1)) 0
              (BeamSearchBase.initial d 1 1 enc) [Offsets.GO])
    as (st' & Hrun & Hp & Hl); [lia | reflexivity | reflexivity |].
  cbn [BeamSearchBase.initial BeamSearchBase.extra] in Hp, Hl.
  destruct (BeamSearchBase.loop no_length_penalty d 1 1 (Z.to_nat (mxlen - 1)) 0
              (BeamSearchBase.initial d 1 1 enc)) as [[broke st1]|err];
    [|discriminate].
  cbn [bind] in Hrun |- *. rewrite Hrun. cbn [bind].
  rewrite Hp, Hl.
  destruct (greedy_loop d mxlen (Z.to_nat (mxlen - 1)) 0 [Offsets.GO]
              (BeamSearchBase.init d enc)) as [gp gl].
  eexists. reflexivity.
Qed.

End SingleRow.

(** * The claims *)

Import BeamSearchBase.

(** C4. First-step diversity: at [i = 0] the ranking reads the distribution
    of beam 0 only.  Every row gets [Kn] pairwise distinct tokens, all with
    origin beam 0, and a decoder answer that differs only on the other beams
    leads to the very same selection. *)
Theorem C4_first_step_diversity :
  forall {Enc Extra : Type} (penalty : Z -> Q) (d : decoder Enc Extra)
         (bsz Kn V : nat) (st : state Extra),
    1 <= bsz -> 1 <= Kn -> Kn <= V -> answers bsz Kn V (asked d st) ->
    exists sel e,
      rank penalty d bsz Kn 0 st = Ok (sel, e) /\
      (forall b, b < bsz ->
         length (nth b (sel_idx sel) []) = Kn /\
         NoDup (nth b (sel_idx sel) []) /\
         (forall j, j < Kn -> get2 0 (sel_beams sel) b j = 0)) /\
      (forall (d' : decoder Enc Extra) (st' : state Extra),
         answers bsz Kn V (asked d' st') ->
         (forall b v, b < bsz -> v < V ->
            get3 0%Q (probs_of bsz Kn V (asked d' st')) b 0 v =
            get3 0%Q (probs_of bsz Kn V (asked d st)) b 0 v) ->
         exists e', rank penalty d' bsz Kn 0 st' = Ok (sel, e')).
Proof.
  intros Enc Extra penalty d bsz Kn V st Hb HK HV Hans.
  pose proof Hans as [_ Hlen].
  pose proof (first_scores_shaped bsz Kn V _ Hlen HK) as Hfs.
  eexists _, _. split; [|split].
  - apply (rank_first penalty d bsz Kn 0 st (asked d st)
             (snd (step d (paths st) (extra st))) V); try assumption; try lia.
    unfold asked. apply surjective_pairing.
  - intros b Hlt. split; [|split].
    + now apply (chosen_idx_row_length Qgtb 0%Q bsz Kn V V).
    + rewrite first_step_tokens by assumption. apply top_k_row_NoDup.
    + intros j Hj. rewrite (chosen_beam Qgtb 0%Q bsz Kn V V) by assumption.
      apply Nat.div_small. now apply (picked_lt Qgtb 0%Q bsz).
  - intros d' st' Hans' Hag. pose proof Hans' as [_ Hlen'].
    eexists.
    rewrite (rank_first penalty d' bsz Kn 0 st' (asked d' st')
               (snd (step d' (paths st') (extra st'))) V); try assumption; try lia.
    + f_equal. f_equal. apply chosen_first_only; try assumption.
      now apply first_scores_agree.
    + unfold asked. apply surjective_pairing.
Qed.

Lemma C4_witness :
  (1 <= 1 /\ 1 <= 2 /\ 2 <= 4) /\
  exists sel e,
    rank no_length_penalty (demo_decoder 2) 1 2 0
         (initial (demo_decoder 2) 1 2 [1]) = Ok (sel, e) /\
    NoDup (nth 0 (sel_idx sel) []).
Proof.
  split; [lia|].
  destruct (C4_first_step_diversity no_length_penalty (demo_decoder 2) 1 2 4
              (initial (demo_decoder 2) 1 2 [1]))
    as (sel & e & Hrank & Hrows & _); [lia | lia | lia | split; reflexivity |].
  exists sel, e. split; [exact Hrank|]. apply (Hrows 0). lia.
Defined.

(** C10. Width precondition of the first step: with [Kn <= V] the selection
    succeeds and returns, for every row, [Kn] flat indices that all lie in the
    block of beam 0 (beam 0, token below [V]); with [Kn > V] the ranking
    primitive has no valid result and the step fails. *)
Theorem C10_first_step_width :
  forall {Enc Extra : Type} (penalty : Z -> Q) (d : decoder Enc Extra)
         (bsz Kn V : nat) (st : state Extra),
    1 <= bsz -> 1 <= Kn -> answers bsz Kn V (asked d st) ->
    (Kn <= V ->
     exists sel e,
       rank penalty d bsz Kn 0 st = Ok (sel, e) /\
       forall b, b < bsz ->
         length (nth b (sel_idx sel) []) = Kn /\
         forall j, j < Kn ->
           let flat := snd (picked Qgtb 0%Q Kn (first_scores bsz Kn V (asked d st)) b j) in
           flat < V /\
           get2 0 (sel_beams sel) b j = 0 /\
           get2 0 (sel_idx sel) b j = flat) /\
    (V < Kn -> rank penalty d bsz Kn 0 st = Err TopKError).
Proof.
  intros Enc Extra penalty d bsz Kn V st Hb HK Hans.
  assert (Hstep : step d (paths st) (extra st)
                  = (asked d st, snd (step d (paths st) (extra st))))
    by (unfold asked; apply surjective_pairing).
  split.
  - intros HV. pose proof Hans as [_ Hlen].
    pose proof (first_scores_shaped bsz Kn V _ Hlen HK) as Hfs.
    eexists _, _. split.
    + apply (rank_first penalty d bsz Kn 0 st _ _ V (Z.le_refl 0) Hstep); assumption.
    + intros b Hlt. split.
      * now apply (chosen_idx_row_length Qgtb 0%Q bsz Kn V V).
      * intros j Hj flat.
        assert (Hflat : flat < V) by now apply (picked_lt Qgtb 0%Q bsz).
        split; [exact Hflat|]. split.
        -- rewrite (chosen_beam Qgtb 0%Q bsz Kn V V) by assumption.
           now apply Nat.div_small.
        -- rewrite (chosen_idx Qgtb 0%Q bsz Kn V V) by assumption.
           now apply Nat.mod_small.
  - intros HV.
    now apply (rank_first_error penalty d bsz Kn 0 st _ _ V (Z.le_refl 0) Hstep).
Qed.

Lemma C10_witness :
  (1 <= 1 /\ 1 <= 2) /\
  (exists sel e,
     rank no_length_penalty (demo_decoder 2) 1 2 0
          (initial (demo_decoder 2) 1 2 [1]) = Ok (sel, e) /\
     length (nth 0 (sel_idx sel) []) = 2).
Proof.
  split; [lia|].
  destruct (C10_first_step_width no_length_penalty (demo_decoder 2) 1 2 4
              (initial (demo_decoder 2) 1 2 [1]))
    as [Hok _]; [lia | lia | split; reflexivity |].
  destruct (Hok ltac:(lia)) as (sel & e & Hrank & Hrows).
  exists sel, e. split; [exact Hrank|]. apply (Hrows 0). lia.
Defined.

(** C5, as stated, fails: on scenario A the first-step selection does not
    give token A (id 3) to both beams. *)
Lemma C5_counterexample :
  ~ (exists fs sel,
       first_step_scores 1 2 scenario_A = Ok fs /\
       select logp_gtb 2 4 4 fs scenario_A = Ok sel /\
       sel_idx sel = [[3; 3]]).
Proof.
  intros (fs & sel & Hfs & Hsel & Hidx).
  vm_compute in Hfs. inversion Hfs; subst fs; clear Hfs.
  vm_compute in Hsel. inversion Hsel; subst sel; clear Hsel.
  simpl in Hidx. discriminate.
Qed.

(** C5, amended. Scenario A: the first-step selection does not fail; both
    beams extend beam 0, the first with token A (id 3, log-probability 0) and
    the second with the end token (id 2, log-probability -5), the two best
    distinct tokens of the start hypothesis. *)
Theorem C5_scenario_A :
  exists fs,
    first_step_scores 1 2 scenario_A = Ok fs /\
    select logp_gtb 2 4 4 fs scenario_A
    = Ok {| sel_scores := [[Fin 0; Fin (-5 # 1)]];
            sel_log_probs := [[Fin 0; Fin (-5 # 1)]];
            sel_beams := [[0; 0]];
            sel_idx := [[3; 2]] |}.
Proof.
  eexists. split; reflexivity.
Qed.


Lemma demo_state_reached :
  body no_length_penalty (demo_decoder 2) 1 2 0 (initial (demo_decoder 2) 1 2 [1])
  = Ok demo_state.
Proof. reflexivity. Qed.


(** ** The fills on answers that need not be finite *)

Lemma masked_fill_ieee_finite t mask value :
  masked_fill_ieee (Num t) mask (Num value) = Num (masked_fill t mask value).
Proof. reflexivity. Qed.

Lemma masked_fill_ieee_infinite negative mask value :
  masked_fill_ieee (Infty negative) mask (Num value)
  = if mask then NaN else Infty negative.
Proof. destruct mask, negative; reflexivity. Qed.

Lemma masked_fill_ieee_nan mask value : masked_fill_ieee NaN mask value = NaN.
Proof. reflexivity. Qed.

Lemma masked_log_prob_ieee_finite len v p :
  masked_log_prob_ieee len v (Num p) = Num (masked_log_prob len v p).
Proof. reflexivity. Qed.

Lemma masked_log_prob_ieee_infinite len v negative :
  masked_log_prob_ieee len v (Infty negative)
  = if (len =? 0)%Z then Infty negative else NaN.
Proof.
  unfold masked_log_prob_ieee. cbv zeta.
  rewrite masked_fill_ieee_infinite.
  destruct (len =? 0)%Z; cbn [negb andb].
  - apply masked_fill_ieee_infinite.
  - apply masked_fill_ieee_nan.
Qed.

Lemma ieee_add_nan x : ieee_add x NaN = NaN.
Proof. now destruct x. Qed.

(** On finite values the entries are those of the rational model: see
    [later_candidate] and [finalize_ok]. *)
Lemma later_candidate_ieee_finite log_prob len v p :
  later_candidate_ieee (Num log_prob) len v (Num p)
  = Num (log_prob + masked_log_prob len v p).
Proof. reflexivity. Qed.

Lemma finalized_log_prob_ieee_finite log_prob len p :
  finalized_log_prob_ieee (Num log_prob) len (Num p)
  = Num (log_prob + masked_fill p (negb (len =? 0)%Z) 0).
Proof. reflexivity. Qed.

Lemma later_candidate_ieee_infinite log_prob len v negative :
  later_candidate_ieee log_prob len v (Infty negative)
  = if (len =? 0)%Z then ieee_add log_prob (Infty negative) else NaN.
Proof.
  unfold later_candidate_ieee. rewrite masked_log_prob_ieee_infinite.
  destruct (len =? 0)%Z; [reflexivity | apply ieee_add_nan].
Qed.

Lemma finalized_log_prob_ieee_infinite log_prob len negative :
  finalized_log_prob_ieee log_prob len (Infty negative)
  = if (len =? 0)%Z then ieee_add log_prob (Infty negative) else NaN.
Proof.
  unfold finalized_log_prob_ieee. cbv zeta.
  rewrite masked_fill_ieee_infinite.
  destruct (len =? 0)%Z; [reflexivity | apply ieee_add_nan].
Qed.

(** From the second step on and for finite answers of the decoder, the
    candidates of a finished beam are its log-probability plus 0 for the end
    token and plus -1e8 for every other token.  A slot filled from a finished
    beam carries that beam's log-probability unchanged when the token is the
    end token, and the log-probability lowered by 1e8 when it is not: such a
    continuation is ranked low, not excluded. *)
Lemma finished_beam_masking_finite :
  forall {Enc Extra : Type} (penalty : Z -> Q) (d : decoder Enc Extra)
         (bsz Kn V : nat) (i : Z) (st : state Extra),
    1 <= bsz -> 1 <= V -> (0 < i)%Z -> answers bsz Kn V (asked d st) ->
    (forall b k v, b < bsz -> k < Kn -> v < V ->
       get2 0%Z (lengths st) b k <> 0%Z ->
       (get3 0%Q (later_candidates bsz Kn V (asked d st) st) b k v ==
          get2 0%Q (log_probs st) b k
          + (if (Z.of_nat v =? Offsets.EOS)%Z then 0 else NEG_FILL))%Q) /\
    exists sel e,
      rank penalty d bsz Kn i st = Ok (sel, e) /\
      forall b j, b < bsz -> j < Kn ->
        let beam := get2 0 (sel_beams sel) b j in
        let token := get2 0 (sel_idx sel) b j in
        get2 0%Z (lengths st) b beam <> 0%Z ->
        (Z.of_nat token = Offsets.EOS ->
           (get2 0%Q (sel_log_probs sel) b j == get2 0%Q (log_probs st) b beam)%Q) /\
        (Z.of_nat token <> Offsets.EOS ->
           (get2 0%Q (sel_log_probs sel) b j ==
              get2 0%Q (log_probs st) b beam + NEG_FILL)%Q).
Proof.
  intros Enc Extra penalty d bsz Kn V i st Hb HV Hi Hans.
  assert (Hcand : forall b k v, b < bsz -> k < Kn -> v < V ->
            get2 0%Z (lengths st) b k <> 0%Z ->
            (get3 0%Q (later_candidates bsz Kn V (asked d st) st) b k v ==
               get2 0%Q (log_probs st) b k
               + (if (Z.of_nat v =? Offsets.EOS)%Z then 0 else NEG_FILL))%Q).
  { intros b k v Hlt Hk Hv Hlen. rewrite later_candidate by assumption.
    destruct (Z.eqb_spec (Z.of_nat v) Offsets.EOS) as [He|He].
    - now rewrite masked_log_prob_done_eos.
    - now rewrite masked_log_prob_done_other. }
  split; [exact Hcand|].
  assert (Hstep : step d (paths st) (extra st)
                  = (asked d st, snd (step d (paths st) (extra st))))
    by (unfold asked; apply surjective_pairing).
  pose proof (later_scores_shaped penalty bsz Kn V i (asked d st) st) as Hfs.
  assert (HKV : Kn <= Kn * V) by nia.
  eexists _, _. split.
  - apply (rank_later penalty d bsz Kn i st _ _ V Hi Hstep Hans Hb HKV).
  - intros b j Hlt Hj. cbv zeta.
    set (ranked := picked Qgtb 0%Q Kn
                     (later_scores penalty bsz Kn V i (asked d st) st) b j).
    assert (Hidx : snd ranked < Kn * V) by now apply (picked_lt Qgtb 0%Q bsz).
    rewrite (chosen_beam Qgtb 0%Q bsz Kn V (Kn * V)) by assumption.
    rewrite (chosen_idx Qgtb 0%Q bsz Kn V (Kn * V)) by assumption.
    rewrite chosen_log_prob by assumption. fold ranked.
    rewrite later_candidate_flat by assumption.
    destruct (flat_index_split Kn V _ Hidx) as [Hq Hr].
    intros Hlen. specialize (Hcand b _ _ Hlt Hq Hr Hlen). split; intros He.
    + rewrite Hcand. rewrite He, Z.eqb_refl. ring.
    + rewrite Hcand. destruct (Z.eqb_spec (Z.of_nat (snd ranked mod V)) Offsets.EOS);
        [contradiction | reflexivity].
Qed.

(** C2 describes what the code should do, and the code does not do it: the
    fills of lines 2848-2849 are there so that a finished beam is only
    continued by the end token, and they work by multiplying the decoder's
    answer by the mask.  First, the value filled in for the other tokens is
    the finite -1e8, which takes part in the ranking: with [faint_decoder]
    and two beams, beam 0 finishes in the first step, and in the second step
    slot 1 is filled from that finished beam with the padding token, so the
    finished path [1; 2] is continued to [1; 2; 0].  Second, where the
    decoder answers an infinity for a token of a finished beam, the candidate
    is NaN whatever the log-probability of the beam, for the end token as for
    any other: neither 0 nor -1e8 is assigned. *)
Theorem C2_finished_beam_continued :
  (exists st sel e st',
     loop no_length_penalty faint_decoder 1 2 1 0 (initial faint_decoder 1 2 [0])
       = Ok (false, st) /\
     rank no_length_penalty faint_decoder 1 2 1 st = Ok (sel, e) /\
     get2 0%Z (lengths st) 0 (get2 0 (sel_beams sel) 0 1) <> 0%Z /\
     Z.of_nat (get2 0 (sel_idx sel) 0 1) <> Offsets.EOS /\
     body no_length_penalty faint_decoder 1 2 1 st = Ok st' /\
     paths st = [[[1; 2]; [1; 3]]]%Z /\
     paths st' = [[[1; 2; 2]; [1; 2; 0]]]%Z) /\
  (forall log_prob len v negative,
     later_candidate_ieee log_prob len v (Infty negative)
     = if (len =? 0)%Z then ieee_add log_prob (Infty negative) else NaN) /\
  later_candidate_ieee (Num (-5 # 1)) 1 (Z.to_nat Offsets.EOS) (Infty true) = NaN /\
  later_candidate_ieee (Num (-5 # 1)) 1 (Z.to_nat Offsets.EOS) (Infty true)
  <> Num (-5 # 1).
Proof.
  split; [|split; [|split]].
  - eexists _, _, _, _.
    split; [vm_compute; reflexivity|].
    split; [vm_compute; reflexivity|].
    split; [vm_compute; discriminate|].
    split; [vm_compute; discriminate|].
    split; [vm_compute; reflexivity|].
    split; reflexivity.
  - exact later_candidate_ieee_infinite.
  - reflexivity.
  - discriminate.
Qed.

(** C7. Frozen lengths: [update_lengths] leaves every non-zero entry as it
    is.  Hence, in a step of the loop, the slot filled from an origin beam
    whose length is non-zero carries exactly that length afterwards, and the
    forced finalization changes no non-zero length either. *)
Theorem C7_frozen_length :
  forall {Enc Extra : Type} (penalty : Z -> Q) (d : decoder Enc Extra)
         (bsz Kn V : nat) (i mxlen : Z) (st : state Extra),
    shaped_state bsz Kn st -> 1 <= bsz -> 1 <= Kn -> Kn <= V -> 3 <= V ->
    answers bsz Kn V (asked d st) ->
    (forall lens eoses idx b k,
       shaped2 bsz Kn lens -> shaped2 bsz Kn eoses -> b < bsz -> k < Kn ->
       get2 0%Z lens b k <> 0%Z ->
       get2 0%Z (update_lengths lens eoses idx) b k = get2 0%Z lens b k) /\
    (exists sel e st',
       rank penalty d bsz Kn i st = Ok (sel, e) /\
       body penalty d bsz Kn i st = Ok st' /\
       forall b j, b < bsz -> j < Kn ->
         let beam := get2 0 (sel_beams sel) b j in
         beam < Kn /\
         get2 [] (paths st') b j
         = get2 [] (paths st) b beam ++ [Z.of_nat (get2 0 (sel_idx sel) b j)] /\
         (get2 0%Z (lengths st) b beam <> 0%Z ->
          get2 0%Z (lengths st') b j = get2 0%Z (lengths st) b beam)) /\
    (exists st',
       finalize penalty d bsz Kn mxlen st = Ok st' /\
       forall b k, b < bsz -> k < Kn ->
         get2 0%Z (lengths st) b k <> 0%Z ->
         get2 0%Z (lengths st') b k = get2 0%Z (lengths st) b k).
Proof.
  intros Enc Extra penalty d bsz Kn V i mxlen st Hst Hb HK HV HV3 Hans.
  split; [|split].
  - intros lens eoses idx b k Hl He Hlt Hk Hnz.
    rewrite (update_lengths_tabulate bsz Kn) by assumption.
    rewrite (get2_tabulate bsz Kn) by assumption.
    now apply update_lengths_entry_frozen.
  - destruct (body_ok penalty d bsz Kn i st V Hst Hans Hb HK HV)
      as (sel & e & Hrank & Hbody & Hlt).
    exists sel, e, (next_state d bsz Kn i st sel e).
    split; [exact Hrank|]. split; [exact Hbody|].
    intros b j Hlb Hj beam. split; [now apply Hlt|]. split.
    + now apply next_path.
    + intros Hnz. rewrite next_lengths by assumption.
      now apply update_lengths_entry_frozen.
  - destruct (finalize_ok penalty d bsz Kn mxlen st V Hans HV3)
      as (st' & Hfin & _ & _ & Hlen & _).
    exists st'. split; [exact Hfin|].
    intros b k Hlb Hk Hnz. rewrite Hlen.
    rewrite (forced_lengths bsz Kn) by (apply Hst || assumption).
    destruct (Z.eqb_spec (get2 0%Z (lengths st) b k) 0); [contradiction | reflexivity].
Qed.

Lemma C7_witness :
  (1 <= 1 /\ 1 <= 2 /\ 2 <= 4 /\ 3 <= 4) /\
  get2 0%Z (update_lengths (lengths demo_state) [[true; true]] 7) 0 1
  = get2 0%Z (lengths demo_state) 0 1.
Proof.
  split; [lia|].
  destruct (C7_frozen_length no_length_penalty (demo_decoder 2) 1 2 4 1 7 demo_state)
    as (Hupd & _);
    [split; split; repeat constructor | lia | lia | lia | lia | split; reflexivity |].
  apply Hupd;
    [split; repeat constructor | split; repeat constructor | lia | lia | discriminate].
Defined.

(** Forced finalization on finite answers: when the loop runs out of
    iterations without [break], the search asks the decoder once more and
    returns the finalized state.  Of that answer only the end token's
    log-probability is used: it is added to the log-probability of a beam
    whose length is still zero and replaced by 0 for a beam already finished;
    every path gets the end token appended; every zero length becomes
    [mxlen]; the score is the log-probability divided by the penalty of the
    length. *)
Lemma forced_finalization_finite :
  forall {Enc Extra : Type} (self : config) (d : decoder Enc Extra) (enc : Enc)
         (bsz V : nat) (mxlen : Z) (st : state Extra),
    (0 <= K self)%Z ->
    loop (length_penalty self) d bsz (Z.to_nat (K self)) (Z.to_nat (mxlen - 1)) 0
         (initial d bsz (Z.to_nat (K self)) enc) = Ok (false, st) ->
    answers bsz (Z.to_nat (K self)) V (asked d st) -> 3 <= V ->
    exists st',
      finalize (length_penalty self) d bsz (Z.to_nat (K self)) mxlen st = Ok st' /\
      __call__ self d enc bsz mxlen
      = Ok (map (map (@tl Z)) (paths st'), lengths st', best_scores st') /\
      extra st' = snd (step d (paths st) (extra st)) /\
      paths st' = map (map (fun p => p ++ [Offsets.EOS])) (paths st) /\
      forall b k, b < bsz -> k < Z.to_nat (K self) ->
        let len := get2 0%Z (lengths st) b k in
        let eos_log_prob :=
          get3 0%Q (probs_of bsz (Z.to_nat (K self)) V (asked d st)) b k 2 in
        (get2 0%Q (log_probs st') b k ==
           get2 0%Q (log_probs st) b k
           + (if (len =? 0)%Z then eos_log_prob else 0))%Q /\
        get2 0%Z (lengths st') b k = (if (len =? 0)%Z then mxlen else len) /\
        (get2 0%Q (best_scores st') b k ==
           get2 0%Q (log_probs st') b k
           / length_penalty self (get2 0%Z (lengths st') b k))%Q.
Proof.
  intros Enc Extra self d enc bsz V mxlen st HK Hloop Hans HV.
  pose proof (loop_shaped _ _ _ _ _ _ _ _ _ (initial_shaped d bsz _ enc) Hloop) as Hst.
  destruct (finalize_ok (length_penalty self) d bsz _ mxlen st V Hans HV)
    as (st' & Hfin & Hextra & Hpaths & Hlen & Hpt).
  exists st'. split; [exact Hfin|]. split; [|split; [exact Hextra|split; [exact Hpaths|]]].
  - unfold __call__. destruct (Z.ltb_spec (K self) 0) as [|_]; [lia|].
    cbv zeta. rewrite Hloop. simpl bind. rewrite Hfin. reflexivity.
  - intros b k Hb Hk. cbv zeta.
    destruct (Hpt b k Hb Hk) as [Hlp Hsc]. split; [|split].
    + rewrite Hlp. unfold masked_fill.
      destruct (get2 0%Z (lengths st) b k =? 0)%Z; simpl; ring.
    + rewrite Hlen. apply (forced_lengths bsz (Z.to_nat (K self)));
        [apply Hst | assumption | assumption].
    + rewrite Hsc. reflexivity.
Qed.

(** C3 describes what the code should do, and the code does not do it for a
    decoder that answers an infinity: line 2908 masks the end token's answer
    of a finished beam by multiplying it by zero.  Where that answer is
    infinite, as the log-probability of an impossible end token is, the
    product is NaN, and line 2909 adds it: the log-probability of the
    finished beam, -5 say, is not left unchanged, it becomes NaN.  A beam
    still open takes the infinity as it is. *)
Theorem C3_finished_beam_not_neutral :
  (forall log_prob len negative,
     finalized_log_prob_ieee log_prob len (Infty negative)
     = if (len =? 0)%Z then ieee_add log_prob (Infty negative) else NaN) /\
  finalized_log_prob_ieee (Num (-5 # 1)) 1 (Infty true) = NaN /\
  finalized_log_prob_ieee (Num (-5 # 1)) 1 (Infty true) <> Num (-5 # 1) /\
  finalized_log_prob_ieee (Num (-5 # 1)) 0 (Infty true) = Infty true.
Proof.
  split; [|split; [|split]].
  - exact finalized_log_prob_ieee_infinite.
  - reflexivity.
  - discriminate.
  - reflexivity.
Qed.

(** ** The exit test *)

Lemma count_nonzero_row (row : list Z) :
  count_nonzero [row] = length row <-> Forall (fun l => l <> 0%Z) row.
Proof.
  unfold count_nonzero. simpl. rewrite app_nil_r.
  induction row as [|l row IH]; simpl.
  - split; constructor.
  - pose proof (filter_length_le (fun l => negb (l =? 0)%Z) row) as Hle.
    destruct (Z.eqb_spec l 0) as [->|Hn]; simpl.
    + split; [lia|]. intros H. inversion H; subst. contradiction.
    + split.
      * intros H. constructor; [assumption|]. apply IH. lia.
      * intros H. inversion H; subst. f_equal. now apply IH.
Qed.

(** With a single batch row the test of line 2897 is the intended one. *)
Lemma exit_test_single_row (Kn : nat) (lens : list (list Z)) :
  shaped2 1 Kn lens -> (exit_test Kn lens = true <-> all_finished lens).
Proof.
  intros [Hn Hf]. destruct lens as [|row [|? ?]]; try discriminate.
  inversion Hf; subst. unfold exit_test, all_finished.
  rewrite Nat.eqb_eq, count_nonzero_row. split.
  - intros H. constructor; [assumption | constructor].
  - intros H. now inversion H.
Qed.

Lemma count_nonzero_all_finished bsz Kn (lens : list (list Z)) :
  shaped2 bsz Kn lens -> all_finished lens -> count_nonzero lens = bsz * Kn.
Proof.
  intros [Hn Hf] Hall. subst bsz. unfold count_nonzero.
  induction lens as [|row lens IH]; [reflexivity|].
  inversion Hf as [|? ? Hrow Hf']; subst. inversion Hall as [|? ? Hr Hall']; subst.
  cbn [concat]. rewrite filter_app, length_app, (IH Hf' Hall').
  apply count_nonzero_row in Hr. unfold count_nonzero in Hr.
  cbn [concat] in Hr. rewrite app_nil_r in Hr. rewrite Hr. simpl. lia.
Qed.

(** With two rows or more the test fails to see that every beam of the batch
    is finished. *)
Lemma exit_test_full_batch bsz Kn (lens : list (list Z)) :
  2 <= bsz -> 1 <= Kn -> shaped2 bsz Kn lens -> all_finished lens ->
  exit_test Kn lens = false.
Proof.
  intros Hb HK Hs Hall. unfold exit_test.
  rewrite (count_nonzero_all_finished bsz Kn lens Hs Hall).
  apply Nat.eqb_neq. nia.
Qed.

(** C1 describes what the code should do, and the code does not do it for a
    batch of more than one row: the test compares the number of finished
    beams with [K], not with [B * K].  With two rows and one beam, row 0
    finishing in the first step while row 1 goes on makes the loop stop at
    once, row 1 unfinished; and when both rows finish in the first step the
    loop does not stop, it runs to the last iteration. *)
Theorem C1_exit_test_compares_with_K :
  (exists st,
     body no_length_penalty (demo_decoder 1) 2 1 0
          (initial (demo_decoder 1) 2 1 [0; 1]) = Ok st /\
     lengths st = [[1]; [0]]%Z /\
     exit_test 1 (lengths st) = true /\
     ~ all_finished (lengths st) /\
     __call__ (__init__ 1 None) (demo_decoder 1) [0; 1] 2 4
     = Ok ([[[2]]; [[3]]]%Z, [[1]; [0]]%Z, [[0]; [0]]%Q)) /\
  (exists st,
     body no_length_penalty (demo_decoder 1) 2 1 0
          (initial (demo_decoder 1) 2 1 [0; 0]) = Ok st /\
     lengths st = [[1]; [1]]%Z /\
     exit_test 1 (lengths st) = false /\
     all_finished (lengths st) /\
     __call__ (__init__ 1 None) (demo_decoder 1) [0; 0] 2 4
     = Ok ([[[2; 2; 2; 2]]; [[2; 2; 2; 2]]]%Z, [[1]; [1]]%Z, [[0]; [0]]%Q)).
Proof.
  split.
  - eexists. split; [vm_compute; reflexivity|].
    split; [reflexivity|]. split; [reflexivity|]. split; [|vm_compute; reflexivity].
    intros H. inversion H as [|? ? _ H2]; subst.
    inversion H2 as [|? ? H3 _]; subst. inversion H3 as [|? ? H4 _]; subst.
    now apply H4.
  - eexists. split; [vm_compute; reflexivity|].
    split; [reflexivity|]. split; [reflexivity|]. split; [|vm_compute; reflexivity].
    repeat constructor; discriminate.
Qed.






(** The single-row equivalence at work on [solo_decoder]. *)
Example greedy_single_row_demo :
  greedy_decode solo_decoder tt 10 = ([3; 3; 2]%Z, 3%Z) /\
  exists scores,
    __call__ (__init__ 1 None) solo_decoder tt 1 10
    = Ok ([[[3; 3; 2]%Z]], [[3%Z]], scores).
Proof.
  split; [reflexivity|].
  destruct (greedy_equivalence_single_row solo_decoder 4) with (enc := tt) (mxlen := 10%Z)
    as [scores H].
  - lia.
  - intros p e. split; [reflexivity|]. simpl. now destruct (length p <? 3).
  - reflexivity.
  - exists scores. exact H.
Qed.

(** C8 describes what the code should do, and the code does not do it in a
    batch: a search of width one over the two inputs 0 and 1 stops as soon as
    input 0 has finished (the exit test of line 2897 counts one finished beam
    and compares it with [K = 1]), so input 1 comes back with the single
    token 3 and length 0, while greedy decoding of input 1, and the search
    run on input 1 alone, give 3, 3, 3 and the end token. *)
Theorem C8_greedy_lost_in_batch :
  __call__ (__init__ 1 None) (demo_decoder 1) [0; 1] 2 4
  = Ok ([[[2]]; [[3]]]%Z, [[1]; [0]]%Z, [[0]; [0]]%Q) /\
  greedy_decode (demo_decoder 1) [1] 4 = ([3; 3; 3; 2]%Z, 4%Z) /\
  __call__ (__init__ 1 None) (demo_decoder 1) [1] 1 4
  = Ok ([[[3; 3; 3; 2]]]%Z, [[4]]%Z, [[-5 # 1]]%Q).
Proof. repeat split; vm_compute; reflexivity. Qed.

(** * Further properties of the search *)

(** ** Lengths point at the first end token *)

Lemma first_end_bounds (seq : list Z) :
  (0 <= first_end seq <= Z.of_nat (length seq))%Z.
Proof.
  induction seq as [|t rest IH]; [simpl; lia|].
  cbn [first_end length]. destruct (t =? Offsets.EOS)%Z; [lia|].
  cbv zeta. destruct (Z.eqb_spec (first_end rest) 0); lia.
Qed.

Lemma first_end_app (seq : list Z) (t : Z) :
  first_end (seq ++ [t])
  = if (first_end seq =? 0)%Z
    then (if (t =? Offsets.EOS)%Z then Z.of_nat (length seq) + 1 else 0)%Z
    else first_end seq.
Proof.
  induction seq as [|x rest IH].
  - simpl. destruct (t =? Offsets.EOS)%Z; reflexivity.
  - cbn [app first_end length]. destruct (x =? Offsets.EOS)%Z; [reflexivity|].
    cbv zeta. rewrite IH. pose proof (first_end_bounds rest) as Hb.
    rewrite Nat2Z.inj_succ.
    destruct (first_end rest =? 0)%Z eqn:E; cbv iota.
    + rewrite Z.eqb_refl. destruct (t =? Offsets.EOS)%Z; [|reflexivity].
      destruct (Z.eqb_spec (Z.of_nat (length rest) + 1) 0); lia.
    + rewrite E. destruct (Z.eqb_spec (first_end rest + 1) 0); [lia | reflexivity].
Qed.

(** A non-zero value of [first_end] is the position of an end token that no
    end token precedes. *)
Lemma first_end_spec (seq : list Z) :
  first_end seq <> 0%Z ->
  nth (Z.to_nat (first_end seq) - 1) seq 0%Z = Offsets.EOS /\
  ~ In Offsets.EOS (firstn (Z.to_nat (first_end seq) - 1) seq).
Proof.
  induction seq as [|t rest IH]; [simpl; congruence|].
  cbn [first_end]. destruct (Z.eqb_spec t Offsets.EOS) as [He|He].
  - intros _. simpl. auto.
  - cbv zeta. pose proof (first_end_bounds rest) as Hb.
    destruct (Z.eqb_spec (first_end rest) 0) as [Hz|Hz]; [congruence|].
    intros _. destruct (IH Hz) as [Hn Hf].
    replace (Z.to_nat (first_end rest + 1) - 1) with (S (Z.to_nat (first_end rest) - 1))
      by lia.
    split; [exact Hn|]. cbn [firstn]. intros [Hin|Hin]; [congruence | auto].
Qed.

Lemma first_end_none (seq : list Z) :
  first_end seq = 0%Z -> ~ In Offsets.EOS seq.
Proof.
  induction seq as [|t rest IH]; [auto|].
  cbn [first_end]. destruct (Z.eqb_spec t Offsets.EOS) as [He|He]; [discriminate|].
  cbv zeta. pose proof (first_end_bounds rest) as Hb.
  destruct (Z.eqb_spec (first_end rest) 0) as [Hz|Hz]; [|lia].
  intros _ [Hin|Hin]; [congruence | now apply IH].
Qed.

Lemma scores_shaped {A} (gtb : A -> A -> bool) bsz K ncols fs :
  shaped2 bsz ncols fs -> K <= ncols ->
  shaped2 bsz K (map (map fst) (map (top_k_row gtb K) fs)).
Proof.
  intros [Hn Hf] HK. split; [now rewrite !length_map|].
  rewrite Forall_forall in Hf.
  apply Forall_forall; intros r Hr.
  apply in_map_iff in Hr as (x & <- & Hx).
  apply in_map_iff in Hx as (row & <- & Hrow).
  rewrite length_map. apply top_k_row_length. rewrite (Hf row Hrow). exact HK.
Qed.

Section RunInvariant.
Context {Enc Extra : Type}.
Variable penalty : Z -> Q.
Variable d : decoder Enc Extra.
Variables bsz Kn : nat.

Lemma initial_tracked enc : tracked bsz Kn 0 (initial d bsz Kn enc).
Proof.
  split; [apply initial_shaped|]. split; [lia|].
  intros b k Hb Hk. cbn [initial paths lengths].
  rewrite !get2_repeat by assumption. split; reflexivity.
Qed.

Lemma rank_scores_shaped i st sel e :
  rank penalty d bsz Kn i st = Ok (sel, e) -> shaped2 bsz Kn (sel_scores sel).
Proof.
  intros Hrank.
  destruct (rank_inv penalty d bsz Kn i st sel e Hrank)
    as (V & [_ Hlen] & Hb & _ & [(Hpos & HKV & ->) | (Hz & HK & HV & ->)]).
  - apply (scores_shaped Qgtb bsz Kn (Kn * V)); [apply later_scores_shaped | exact HKV].
  - apply (scores_shaped Qgtb bsz Kn V); [now apply first_scores_shaped | exact HV].
Qed.

Lemma body_tracked T st st' :
  tracked bsz Kn T st ->
  body penalty d bsz Kn (Z.of_nat T) st = Ok st' ->
  tracked bsz Kn (S T) st'.
Proof.
  intros (Hst & _ & Hpt) Hbody.
  destruct (body_inv penalty d bsz Kn _ st st' Hst Hbody)
    as (sel & e & Hrank & -> & Hlt).
  split; [apply next_state_shaped|]. split.
  - intros _. cbn [next_state best_scores]. exact (rank_scores_shaped _ _ _ _ Hrank).
  - intros b j Hb Hj.
    rewrite next_path, next_lengths by assumption.
    destruct (Hpt b _ Hb (Hlt b j Hb Hj)) as [Hlen Hfirst].
    set (p := get2 [] (paths st) b (get2 0 (sel_beams sel) b j)) in *.
    set (token := Z.of_nat (get2 0 (sel_idx sel) b j)).
    split; [rewrite length_app, Hlen; simpl; lia|].
    destruct p as [|go rest]; [discriminate|]. cbn [tl app] in *.
    rewrite Hfirst, first_end_app.
    assert (HT : length rest = T) by (simpl in Hlen; lia). rewrite HT.
    destruct (Z.eqb_spec (first_end rest) 0) as [Hz|Hz].
    + rewrite Hz. apply update_lengths_entry_open.
    + now apply update_lengths_entry_frozen.
Qed.

Lemma finalize_inv mxlen st st' :
  finalize penalty d bsz Kn mxlen st = Ok st' ->
  paths st' = map (map (fun p => p ++ [Offsets.EOS])) (paths st) /\
  lengths st'
  = update_lengths (lengths st) (map (map (fun _ => true)) (lengths st)) mxlen /\
  shaped2 bsz Kn (best_scores st').
Proof.
  unfold finalize. destruct (step d (paths st) (extra st)) as [t e].
  intros H. apply bind_ok in H as ([V probs] & _ & H).
  apply bind_ok in H as (eos_probs & _ & H).
  inversion H; subst; clear H. cbn [paths lengths best_scores].
  split; [reflexivity|]. split; [reflexivity|]. apply tabulate_shaped2.
Qed.

Lemma finalize_tracked T mxlen st st' :
  tracked bsz Kn T st -> mxlen = Z.of_nat (S T) ->
  finalize penalty d bsz Kn mxlen st = Ok st' ->
  tracked bsz Kn (S T) st'.
Proof.
  intros ([Hp Hl] & _ & Hpt) Hmx Hfin.
  destruct (finalize_inv mxlen st st' Hfin) as (Hpaths & Hlens & Hsc).
  split; [split|split].
  - rewrite Hpaths. now apply map_map_shaped2.
  - rewrite Hlens.
    rewrite (update_lengths_tabulate bsz Kn) by (try apply map_map_shaped2; assumption).
    apply tabulate_shaped2.
  - intros _. exact Hsc.
  - intros b k Hb Hk. destruct (Hpt b k Hb Hk) as [Hlen Hfirst].
    rewrite Hpaths, Hlens.
    rewrite (get2_map_map _ [] [] bsz Kn) by assumption.
    rewrite (forced_lengths bsz Kn) by assumption.
    set (p := get2 [] (paths st) b k) in *.
    split; [rewrite length_app, Hlen; simpl; lia|].
    destruct p as [|go rest]; [discriminate|]. cbn [tl app] in *.
    rewrite Hfirst, first_end_app.
    assert (HT : length rest = T) by (simpl in Hlen; lia). rewrite HT.
    rewrite Z.eqb_refl. destruct (first_end rest =? 0)%Z; [lia | reflexivity].
Qed.

Lemma loop_tracked n : forall T st flag st',
  tracked bsz Kn T st ->
  loop penalty d bsz Kn n (Z.of_nat T) st = Ok (flag, st') ->
  exists T',
    tracked bsz Kn T' st' /\ T <= T' <= T + n /\
    (flag = false -> T' = T + n) /\
    (flag = true -> T < T' /\ exit_test Kn (lengths st') = true).
Proof.
  induction n as [|n IH]; intros T st flag st' Htr Hloop.
  - cbn [loop] in Hloop. inversion Hloop; subst.
    exists T. split; [exact Htr|]. split; [lia|]. split; [lia | discriminate].
  - cbn [loop] in Hloop. apply bind_ok in Hloop as (st1 & Hbody & Hloop).
    pose proof (body_tracked T st st1 Htr Hbody) as Htr1.
    destruct (exit_test Kn (lengths st1)) eqn:Hexit.
    + inversion Hloop; subst. exists (S T).
      split; [exact Htr1|]. split; [lia|]. split; [discriminate|].
      intros _. split; [lia | exact Hexit].
    + replace (Z.of_nat T + 1)%Z with (Z.of_nat (S T)) in Hloop by lia.
      destruct (IH (S T) st1 flag st' Htr1 Hloop) as (T' & Htr' & Hle & Hf & Ht).
      exists T'. split; [exact Htr'|]. split; [lia|]. split.
      * intros Hfl. specialize (Hf Hfl). lia.
      * intros Hfl. destruct (Ht Hfl). split; [lia | assumption].
Qed.

End RunInvariant.

(** What a successful call returns is a tracked state, its start tokens
    removed, reached after between 1 and [mxlen] tokens. *)
Lemma call_tracked {Enc Extra : Type} (self : config) (d : decoder Enc Extra)
    enc bsz mxlen out :
  (1 <= mxlen)%Z ->
  __call__ self d enc bsz mxlen = Ok out ->
  exists T (st : state Extra) (broke : bool),
    tracked bsz (Z.to_nat (K self)) T st /\ 1 <= T /\ (Z.of_nat T <= mxlen)%Z /\
    out = (map (map (@tl Z)) (paths st), lengths st, best_scores st) /\
    (broke = true -> exit_test (Z.to_nat (K self)) (lengths st) = true) /\
    (broke = false ->
     Z.of_nat T = mxlen /\
     forall b k, b < bsz -> k < Z.to_nat (K self) ->
       get2 0%Z (lengths st) b k <> 0%Z).
Proof.
  intros Hmx Hcall. unfold __call__ in Hcall.
  destruct (K self <? 0)%Z; [discriminate|]. cbv zeta in Hcall.
  apply bind_ok in Hcall as ([broke st] & Hloop & Hcall).
  apply bind_ok in Hcall as (st' & Hfin & Hcall). inversion Hcall; subst; clear Hcall.
  destruct (loop_tracked _ _ _ _ _ 0 _ _ _ (initial_tracked d bsz _ enc) Hloop)
    as (T & Htr & Hle & Hf & Ht).
  destruct broke.
  - inversion Hfin; subst. destruct (Ht eq_refl) as [Hpos Hexit].
    exists T, st', true. split; [exact Htr|]. split; [lia|]. split; [lia|].
    split; [reflexivity|]. split; [auto | discriminate].
  - specialize (Hf eq_refl).
    exists (S T), st', false. split.
    + apply (finalize_tracked (length_penalty self) d bsz _ T mxlen st st' Htr);
        [lia | exact Hfin].
    + split; [lia|]. split; [lia|]. split; [reflexivity|]. split; [discriminate|].
      intros _. split; [lia|]. intros b k Hb Hk.
      destruct (finalize_inv _ _ _ _ _ _ _ Hfin) as (_ & Hlens & _).
      rewrite Hlens.
      rewrite (forced_lengths bsz (Z.to_nat (K self))) by (apply Htr || assumption).
      destruct (Z.eqb_spec (get2 0%Z (lengths st) b k) 0); [lia | assumption].
Qed.

Lemma all_finished_get2 bsz Kn (lens : list (list Z)) b k :
  shaped2 bsz Kn lens -> all_finished lens -> b < bsz -> k < Kn ->
  get2 0%Z lens b k <> 0%Z.
Proof.
  intros Hs Hall Hb Hk. unfold all_finished in Hall.
  rewrite Forall_forall in Hall.
  assert (Hrow : In (nth b lens []) lens) by (apply nth_In; destruct Hs; lia).
  specialize (Hall _ Hrow). rewrite Forall_forall in Hall.
  apply Hall. apply nth_In. now rewrite (shaped2_nth_length bsz Kn).
Qed.

(** X1. Whatever the search returns for [mxlen >= 1] has one sequence, one
    length and one score for each of the [K] beams of each of the [B] rows;
    all sequences hold the same number [T] of tokens, [1 <= T <= mxlen], and
    every length lies between 0 and [T]. *)
Theorem X1_output_shape_and_length_bound :
  forall {Enc Extra : Type} (self : config) (d : decoder Enc Extra) (enc : Enc)
         (bsz : nat) (mxlen : Z) ps ls scs,
    (1 <= mxlen)%Z ->
    __call__ self d enc bsz mxlen = Ok (ps, ls, scs) ->
    shaped2 bsz (Z.to_nat (K self)) ps /\
    shaped2 bsz (Z.to_nat (K self)) ls /\
    shaped2 bsz (Z.to_nat (K self)) scs /\
    exists T,
      1 <= T /\ (Z.of_nat T <= mxlen)%Z /\
      forall b k, b < bsz -> k < Z.to_nat (K self) ->
        length (get2 [] ps b k) = T /\
        (0 <= get2 0%Z ls b k <= Z.of_nat T)%Z.
Proof.
  intros Enc Extra self d enc bsz mxlen ps ls scs Hmx Hcall.
  destruct (call_tracked self d enc bsz mxlen _ Hmx Hcall)
    as (T & st & broke & ([Hp Hl] & Hsc & Hpt) & HT & HTm & Hout & _).
  inversion Hout; subst; clear Hout.
  split; [now apply map_map_shaped2|]. split; [exact Hl|]. split; [now apply Hsc|].
  exists T. split; [exact HT|]. split; [exact HTm|].
  intros b k Hb Hk. destruct (Hpt b k Hb Hk) as [Hlen Hfirst].
  rewrite (get2_map_map _ [] [] bsz (Z.to_nat (K self))) by assumption.
  assert (Htl : length (tl (get2 [] (paths st) b k)) = T).
  { destruct (get2 [] (paths st) b k); simpl in *; lia. }
  split; [exact Htl|]. rewrite Hfirst.
  pose proof (first_end_bounds (tl (get2 [] (paths st) b k))). lia.
Qed.

Lemma X1_witness :
  (1 <= 3)%Z /\
  exists T,
    1 <= T /\ (Z.of_nat T <= 3)%Z /\
    length (get2 [] [[[3; 3; 2]; [3; 2; 2]]]%Z 0 1) = T.
Proof.
  split; [lia|].
  destruct (X1_output_shape_and_length_bound (__init__ 2 None) (demo_decoder 2)
              [1] 1 3 [[[3; 3; 2]; [3; 2; 2]]]%Z [[3; 2]]%Z [[-5 # 1; -5 # 1]]%Q)
    as (_ & _ & _ & T & HT & HTm & Hpt); [lia | reflexivity |].
  exists T. split; [exact HT|]. split; [exact HTm|].
  apply (Hpt 0 1); simpl; lia.
Defined.

(** X2. In whatever the search returns for [mxlen >= 1], a length is the
    position of the first end token of its sequence: a sequence of length 0
    holds no end token, and a sequence of length [l > 0] has an end token at
    position [l] and none before. *)
Theorem X2_length_is_first_end_token :
  forall {Enc Extra : Type} (self : config) (d : decoder Enc Extra) (enc : Enc)
         (bsz : nat) (mxlen : Z) ps ls scs,
    (1 <= mxlen)%Z ->
    __call__ self d enc bsz mxlen = Ok (ps, ls, scs) ->
    forall b k, b < bsz -> k < Z.to_nat (K self) ->
      let seq := get2 [] ps b k in
      let l := get2 0%Z ls b k in
      l = first_end seq /\
      (l = 0%Z -> ~ In Offsets.EOS seq) /\
      (l <> 0%Z ->
       nth (Z.to_nat l - 1) seq 0%Z = Offsets.EOS /\
       ~ In Offsets.EOS (firstn (Z.to_nat l - 1) seq)).
Proof.
  intros Enc Extra self d enc bsz mxlen ps ls scs Hmx Hcall b k Hb Hk.
  destruct (call_tracked self d enc bsz mxlen _ Hmx Hcall)
    as (T & st & broke & ([Hp Hl] & Hsc & Hpt) & HT & HTm & Hout & _).
  inversion Hout; subst; clear Hout. cbv zeta.
  destruct (Hpt b k Hb Hk) as [Hlen Hfirst].
  rewrite (get2_map_map _ [] [] bsz (Z.to_nat (K self))) by assumption.
  rewrite Hfirst. split; [reflexivity|]. split.
  - apply first_end_none.
  - apply first_end_spec.
Qed.

Lemma X2_witness :
  (1 <= 3)%Z /\
  get2 0%Z [[3; 2]]%Z 0 1 = first_end (get2 [] [[[3; 3; 2]; [3; 2; 2]]]%Z 0 1).
Proof.
  split; [lia|].
  apply (X2_length_is_first_end_token (__init__ 2 None) (demo_decoder 2)
           [1] 1 3 [[[3; 3; 2]; [3; 2; 2]]]%Z [[3; 2]]%Z [[-5 # 1; -5 # 1]]%Q);
    [lia | reflexivity | lia | simpl; lia].
Defined.

(** X3. For a single input ([B = 1]) and [mxlen >= 1] every returned beam is
    finished: its length is at least 1 and at most [mxlen], and its sequence
    holds an end token at that position. *)
Theorem X3_single_row_all_finished :
  forall {Enc Extra : Type} (self : config) (d : decoder Enc Extra) (enc : Enc)
         (mxlen : Z) ps ls scs,
    (1 <= mxlen)%Z ->
    __call__ self d enc 1 mxlen = Ok (ps, ls, scs) ->
    forall k, k < Z.to_nat (K self) ->
      (1 <= get2 0%Z ls 0 k <= mxlen)%Z /\
      nth (Z.to_nat (get2 0%Z ls 0 k) - 1) (get2 [] ps 0 k) 0%Z = Offsets.EOS.
Proof.
  intros Enc Extra self d enc mxlen ps ls scs Hmx Hcall k Hk.
  destruct (call_tracked self d enc 1 mxlen _ Hmx Hcall)
    as (T & st & broke & ([Hp Hl] & Hsc & Hpt) & HT & HTm & Hout & Hbr & Hnb).
  inversion Hout; subst; clear Hout.
  destruct (Hpt 0 k ltac:(lia) Hk) as [Hlen Hfirst].
  assert (Hnz : get2 0%Z (lengths st) 0 k <> 0%Z).
  { destruct broke.
    - apply (all_finished_get2 1 (Z.to_nat (K self))); try assumption; try lia.
      apply (proj1 (exit_test_single_row (Z.to_nat (K self)) (lengths st) Hl)).
      now apply Hbr.
    - apply Hnb; [reflexivity | lia | assumption]. }
  rewrite (get2_map_map _ [] [] 1 (Z.to_nat (K self))) by (assumption || lia).
  pose proof (first_end_bounds (tl (get2 [] (paths st) 0 k))) as Hbd.
  assert (Htl : length (tl (get2 [] (paths st) 0 k)) = T).
  { destruct (get2 [] (paths st) 0 k); simpl in *; lia. }
  split; [rewrite Hfirst in *; lia|].
  rewrite Hfirst in *. now apply first_end_spec.
Qed.

Lemma X3_witness :
  (1 <= 3)%Z /\ (1 <= get2 0%Z [[3; 2]]%Z 0 1 <= 3)%Z.
Proof.
  split; [lia|].
  apply (X3_single_row_all_finished (__init__ 2 None) (demo_decoder 2)
           [1] 3 [[[3; 3; 2]; [3; 2; 2]]]%Z [[3; 2]]%Z [[-5 # 1; -5 # 1]]%Q);
    [lia | reflexivity | simpl; lia].
Defined.

(** ** The search does not fail on well-shaped answers *)

Section Totality.
Context {Enc Extra : Type}.
Variable penalty : Z -> Q.
Variable d : decoder Enc Extra.
Variables bsz Kn V : nat.
Hypothesis Hb : 1 <= bsz.
Hypothesis HK : 1 <= Kn.
Hypothesis HKV : Kn <= V.
Hypothesis Hwf :
  forall ps e, shaped2 bsz Kn ps -> answers bsz Kn V (fst (step d ps e)).

Lemma loop_ok n : forall i st,
  shaped_state bsz Kn st ->
  exists flag st',
    loop penalty d bsz Kn n i st = Ok (flag, st') /\ shaped_state bsz Kn st'.
Proof.
  induction n as [|n IH]; intros i st Hst.
  - exists false, st. split; [reflexivity | exact Hst].
  - destruct (body_ok penalty d bsz Kn i st V Hst (Hwf _ _ (proj1 Hst)) Hb HK HKV)
      as (sel & e & _ & Hbody & _).
    cbn [loop]. rewrite Hbody. cbn [bind].
    pose proof (next_state_shaped d bsz Kn i st sel e) as Hst1.
    destruct (exit_test Kn (lengths (next_state d bsz Kn i st sel e))).
    + eexists _, _. split; [reflexivity | exact Hst1].
    + apply IH. exact Hst1.
Qed.

End Totality.

(** X4. With at least one row, a beam width between 1 and the vocabulary
    size, a vocabulary of at least three tokens and a decoder that answers
    every [B x K] batch of hypotheses with [B * K] distributions over the
    vocabulary, the search returns a result, whatever [mxlen] is. *)
Theorem X4_search_succeeds :
  forall {Enc Extra : Type} (self : config) (d : decoder Enc Extra) (enc : Enc)
         (bsz V : nat) (mxlen : Z),
    1 <= bsz -> (1 <= K self)%Z -> Z.to_nat (K self) <= V -> 3 <= V ->
    (forall ps e, shaped2 bsz (Z.to_nat (K self)) ps ->
                  answers bsz (Z.to_nat (K self)) V (fst (step d ps e))) ->
    exists out, __call__ self d enc bsz mxlen = Ok out.
Proof.
  intros Enc Extra self d enc bsz V mxlen Hb HK HKV HV Hwf.
  unfold __call__. destruct (Z.ltb_spec (K self) 0) as [|_]; [lia|]. cbv zeta.
  destruct (loop_ok (length_penalty self) d bsz (Z.to_nat (K self)) V Hb
              ltac:(lia) HKV Hwf (Z.to_nat (mxlen - 1)) 0%Z
              (initial d bsz (Z.to_nat (K self)) enc) (initial_shaped d bsz _ enc))
    as (flag & st & Hloop & Hst).
  rewrite Hloop. cbn [bind]. destruct flag.
  - cbn [bind]. eexists; reflexivity.
  - destruct (finalize_ok (length_penalty self) d bsz (Z.to_nat (K self)) mxlen st V
                (Hwf _ _ (proj1 Hst)) HV) as (st' & Hfin & _).
    rewrite Hfin. cbn [bind]. eexists; reflexivity.
Qed.

Lemma X4_witness :
  (1 <= 1 /\ (1 <= 1)%Z /\ 1 <= 4 /\ 3 <= 4) /\
  exists out, __call__ (__init__ 1 None) solo_decoder tt 1 10 = Ok out.
Proof.
  split; [lia|].
  apply (X4_search_succeeds (__init__ 1 None) solo_decoder tt 1 4 10);
    [lia | simpl; lia | simpl; lia | lia |].
  intros ps e _. split; [reflexivity|]. simpl.
  destruct (length (hd [] (concat ps)) <? 3); reflexivity.
Defined.

(** ** Pruning keeps the best candidates *)



Lemma ranks_before_trans_le (a b c : Q * nat) :
  ranks_before a b -> (fst c <= fst b)%Q -> snd a < snd c -> ranks_before a c.
Proof.
  unfold ranks_before. intros [Hlt | [Heq Hidx]] Hle Hac.
  - left. lra.
  - destruct (Qlt_le_dec (fst c) (fst a)) as [Hl|Hl]; [now left|].
    right. split; [lra | assumption].
Qed.













(** ** [update_lengths], [gather_k] and [top_k] on their own *)

Lemma update_lengths_shaped bsz Kn lengths eoses idx :
  shaped2 bsz Kn lengths -> shaped2 bsz Kn eoses ->
  shaped2 bsz Kn (update_lengths lengths eoses idx).
Proof.
  intros Hl He. rewrite (update_lengths_tabulate bsz Kn) by assumption.
  apply tabulate_shaped2.
Qed.

Lemma get2_update_lengths bsz Kn lengths eoses idx b k :
  shaped2 bsz Kn lengths -> shaped2 bsz Kn eoses -> b < bsz -> k < Kn ->
  get2 0%Z (update_lengths lengths eoses idx) b k
  = update_lengths_entry (get2 0%Z lengths b k) (get2 false eoses b k) idx.
Proof.
  intros Hl He Hb Hk. rewrite (update_lengths_tabulate bsz Kn) by assumption.
  now rewrite get2_tabulate.
Qed.

(** X7. Two updates in a row, on int32 lengths and with indices in the int32
    range: a length that was already set is kept; an open one takes the index
    of the first update that reports an end token, so a later end token never
    moves a length, provided the first index is not zero.  Every length
    stays in the int32 range. *)
Theorem X7_update_lengths_first_end_wins :
  forall (bsz Kn : nat) (lengths : list (list Z)) (e1 e2 : list (list bool))
         (i1 i2 : Z),
    shaped2 bsz Kn lengths -> shaped2 bsz Kn e1 -> shaped2 bsz Kn e2 ->
    (forall b k, b < bsz -> k < Kn -> in_int32 (get2 0%Z lengths b k) = true) ->
    in_int32 i1 = true -> in_int32 i2 = true ->
    i1 <> 0%Z ->
    shaped2 bsz Kn (update_lengths (update_lengths lengths e1 i1) e2 i2) /\
    forall b k, b < bsz -> k < Kn ->
      in_int32 (get2 0%Z (update_lengths lengths e1 i1) b k) = true /\
      in_int32 (get2 0%Z (update_lengths (update_lengths lengths e1 i1) e2 i2) b k)
      = true /\
      get2 0%Z (update_lengths (update_lengths lengths e1 i1) e2 i2) b k
      = if (get2 0%Z lengths b k =? 0)%Z
        then if get2 false e1 b k then i1
             else if get2 false e2 b k then i2 else 0%Z
        else get2 0%Z lengths b k.
Proof.
  intros bsz Kn lengths e1 e2 i1 i2 Hl H1 H2 Hr Hr1 Hr2 Hi.
  pose proof (update_lengths_shaped bsz Kn lengths e1 i1 Hl H1) as Hs.
  split; [now apply update_lengths_shaped|].
  intros b k Hb Hk. specialize (Hr b k Hb Hk).
  rewrite (get2_update_lengths bsz Kn _ e2) by assumption.
  rewrite (get2_update_lengths bsz Kn lengths) by assumption.
  destruct (Z.eqb_spec (get2 0%Z lengths b k) 0) as [E | E].
  - rewrite E, update_lengths_entry_open.
    destruct (get2 false e1 b k).
    + rewrite update_lengths_entry_frozen by assumption. now repeat split.
    + rewrite update_lengths_entry_open.
      split; [reflexivity|]. now destruct (get2 false e2 b k).
  - rewrite (update_lengths_entry_frozen _ _ i1) by assumption.
    rewrite update_lengths_entry_frozen by assumption. now repeat split.
Qed.

Lemma X7_witness :
  (in_int32 1 = true /\ in_int32 2 = true /\ 1%Z <> 0%Z) /\
  get2 0%Z (update_lengths (update_lengths [[0; 0; 4]]%Z [[true; false; true]] 1)
                           [[true; true; true]] 2) 0 1 = 2%Z.
Proof.
  assert (Hs : forall {A} (x y z : A), shaped2 1 3 [[x; y; z]])
    by (intros; split; [reflexivity | repeat constructor]).
  assert (Hr : forall b k, b < 1 -> k < 3 ->
                 in_int32 (get2 0%Z [[0; 0; 4]]%Z b k) = true).
  { intros b k Hb Hk.
    destruct b as [|b]; [|lia].
    destruct k as [|[|[|k]]]; [reflexivity | reflexivity | reflexivity | lia]. }
  split; [repeat split; discriminate|].
  apply (proj2 (X7_update_lengths_first_end_wins 1 3 [[0; 0; 4]]%Z
                  [[true; false; true]] [[true; true; true]] 1 2
                  (Hs _ _ _ _) (Hs _ _ _ _) (Hs _ _ _ _) Hr eq_refl eq_refl
                  ltac:(discriminate))
               0 1); lia.
Defined.

Lemma mapM_err {A B} (f : A -> result B) (l : list A) (e : error) :
  (forall x e', In x l -> f x = Err e' -> e' = e) ->
  (exists x, In x l /\ f x = Err e) ->
  mapM f l = Err e.
Proof.
  induction l as [|y l IH]; intros Hall (x & Hin & Hx); [destruct Hin|].
  simpl. destruct (f y) as [v | e'] eqn:Ey.
  - simpl. rewrite IH; [reflexivity | |].
    + intros z e' Hz. apply Hall. now right.
    + destruct Hin as [-> | Hin]; [congruence | now exists x].
  - simpl. f_equal. apply (Hall y); [now left | assumption].
Qed.

Lemma top_k_inv {A} (gtb : A -> A -> bool) ncols fs k best :
  top_k gtb ncols fs k = Ok best ->
  k <= ncols /\ best = map (top_k_row gtb k) fs.
Proof.
  unfold top_k. destruct (Nat.ltb_spec ncols k); [discriminate|].
  intros [= <-]. now split.
Qed.

(** X8. Reading a score tensor back at the indices [top_k] returned gives the
    values [top_k] returned: [gather_k a a best_idx k] is [best_scores]. *)
Theorem X8_gather_k_at_top_k_indices :
  forall (n m k : nat) (a : list (list Q)) (best : list (list (Q * nat))),
    shaped2 n m a ->
    top_k Qgtb m a k = Ok best ->
    gather_k a a (map (map snd) best) k = Ok (map (map fst) best).
Proof.
  intros n m k a best Ha Htop.
  apply top_k_inv in Htop as [Hk ->].
  assert (Hlen : forall b, b < n -> length (top_k_row Qgtb k (nth b a [])) = k).
  { intros b Hb. apply top_k_row_length.
    now rewrite (shaped2_nth_length n m). }
  unfold gather_k.
  rewrite (stackable_shaped (length a) k)
    by (rewrite (proj1 Ha); now apply (best_idx_shaped Qgtb k n m)).
  cbn [negb].
  rewrite (mapM_map _ (fun b => tabulate k (fun j => fst (picked Qgtb 0%Q k a b j)))).
  - f_equal. destruct Ha as [Hn Hrows]. rewrite Hn.
    apply (nth_ext_shaped [] n);
      [apply tabulate_length | now rewrite !length_map |].
    intros b Hb. fold (tabulate n (fun b => tabulate k (fun j => fst (picked Qgtb 0%Q k a b j)))).
    rewrite tabulate_nth by assumption.
    rewrite map_map.
    rewrite (nth_map_default _ _ b []) by lia.
    apply (nth_ext_shaped 0%Q k);
      [apply tabulate_length | rewrite length_map; apply Hlen; assumption |].
    intros j Hj. rewrite tabulate_nth by assumption.
    unfold picked.
    now rewrite (nth_map_default _ _ j (0%Q, 0)) by (rewrite Hlen; assumption).
  - intros b Hb. apply in_seq in Hb.
    assert (Hb' : b < n) by (destruct Ha; lia).
    apply mapM_map. intros j Hj. apply in_seq in Hj.
    rewrite (nth_best Qgtb k 0%Q a b j 0)
      by (destruct Ha; rewrite ?Hlen; lia).
    simpl bind. fold (picked Qgtb 0%Q k a b j).
    rewrite (picked_score Qgtb 0%Q n k m) by (assumption || lia).
    reflexivity.
Qed.

Lemma X8_witness :
  shaped2 1 3 [[1#2; 3#1; 2#1]] /\
  gather_k [[1#2; 3#1; 2#1]] [[1#2; 3#1; 2#1]] [[1; 2]] 2 = Ok [[3#1; 2#1]].
Proof.
  assert (H : shaped2 1 3 [[1#2; 3#1; 2#1]])
    by (split; [reflexivity | repeat constructor]).
  split; [exact H|].
  exact (X8_gather_k_at_top_k_indices 1 3 2 [[1#2; 3#1; 2#1]] _ H eq_refl).
Defined.

(** X9. [gather_k] returns exactly when every index it is handed lies inside
    its row of [b]: then entry [(r, j)] of the result is [b[r, best_idx[r, j]]];
    one index past the end of its row makes the whole call fail. *)
Theorem X9_gather_k_in_range :
  forall {A : Type} (d : A) (n k : nat) (a b : list (list A))
         (best_idx : list (list nat)),
    length a = n -> shaped2 n k best_idx ->
    ((forall r j, r < n -> j < k ->
        get2 0 best_idx r j < length (nth r b [])) ->
     exists out,
       gather_k a b best_idx k = Ok out /\ shaped2 n k out /\
       forall r j, r < n -> j < k ->
         get2 d out r j = get2 d b r (get2 0 best_idx r j)) /\
    ((exists r j, r < n /\ j < k /\
        length (nth r b []) <= get2 0 best_idx r j) ->
     gather_k a b best_idx k = Err GatherError).
Proof.
  intros A d n k a b best_idx Ha Hidx.
  assert (Hentry : forall r j, r < n -> j < k ->
            nth_error (nth r best_idx []) j = Some (get2 0 best_idx r j)).
  { intros r j Hr Hj. now apply (get2_nth_error 0 n k). }
  assert (Honly : forall (o : option A) e', of_option GatherError o = Err e' ->
                                            e' = GatherError).
  { intros [x|] e'; simpl; congruence. }
  split.
  - intros Hin.
    exists (tabulate n (fun r => tabulate k (fun j =>
              get2 d b r (get2 0 best_idx r j)))).
    split; [|split].
    + unfold gather_k. rewrite Ha.
      rewrite (stackable_shaped n k best_idx Hidx). cbn [negb].
      apply (mapM_map (fun r => mapM _ (seq 0 k))
               (fun r => tabulate k (fun j => get2 d b r (get2 0 best_idx r j)))).
      intros r Hr. apply in_seq in Hr.
      apply mapM_map. intros j Hj. apply in_seq in Hj.
      rewrite Hentry by lia. simpl bind.
      unfold get2 at 1.
      rewrite (nth_error_nth' _ d) by (apply Hin; lia). reflexivity.
    + apply tabulate_shaped2.
    + intros r j Hr Hj. now rewrite get2_tabulate.
  - intros (r & j & Hr & Hj & Hout).
    unfold gather_k. rewrite Ha.
    rewrite (stackable_shaped n k best_idx Hidx). cbn [negb].
    apply mapM_err.
    + intros r' e' _ He'.
      destruct (mapM _ (seq 0 k)) as [v|e''] eqn:Em in He'; [discriminate|].
      injection He' as ->.
      clear - Em Honly. revert Em. generalize (seq 0 k) as js.
      induction js as [|j' js IH]; simpl; [discriminate|].
      destruct (nth_error (nth r' best_idx []) j') as [i|]; simpl;
        [|congruence].
      destruct (nth_error (nth r' b []) i); simpl; [|congruence].
      destruct (mapM _ js) eqn:Ejs; simpl; [discriminate|].
      intros [= <-]. now apply IH.
    + exists r. split; [apply in_seq; lia|].
      apply mapM_err.
      * intros j' e' _. 
        destruct (nth_error (nth r best_idx []) j') as [i|]; simpl;
          [|congruence].
        apply Honly.
      * exists j. split; [apply in_seq; lia|].
        rewrite Hentry by assumption. simpl bind.
        apply nth_error_None in Hout. now rewrite Hout.
Qed.

Lemma X9_witness :
  (length [[5%Z; 6%Z]] = 1 /\ shaped2 1 2 [[1; 0]]) /\
  (exists out, gather_k [[5%Z; 6%Z]] [[5%Z; 6%Z]] [[1; 0]] 2 = Ok out /\
               get2 0%Z out 0 0 = 6%Z) /\
  gather_k [[5%Z; 6%Z]] [[5%Z; 6%Z]] [[1; 2]] 2 = Err GatherError.
Proof.
  assert (Hs : forall x y : nat, shaped2 1 2 [[x; y]])
    by (intros; split; [reflexivity | repeat constructor]).
  split; [split; [reflexivity | apply Hs]|]. split.
  - destruct (proj1 (X9_gather_k_in_range 0%Z 1 2 [[5%Z; 6%Z]] [[5%Z; 6%Z]]
                       [[1; 0]] eq_refl (Hs 1 0)))
      as (out & Hout & _ & Hget).
    + intros [|r] [|[|j]] Hr Hj; unfold get2; simpl; lia.
    + exists out. split; [exact Hout|]. apply (Hget 0 0); lia.
  - apply (proj2 (X9_gather_k_in_range 0%Z 1 2 [[5%Z; 6%Z]] [[5%Z; 6%Z]]
                    [[1; 2]] eq_refl (Hs 1 2))).
    exists 0, 1. unfold get2; simpl. lia.
Defined.

(** ** [repeat_batch] *)

Lemma prod_dims_app s s' : prod_dims (s ++ s') = prod_dims s * prod_dims s'.
Proof.
  induction s as [|n s IH]; simpl; [lia|]. rewrite IH. lia.
Qed.

Lemma chunks_firstn {A} n s m (l : list A) :
  n * s <= m -> chunks n s (firstn m l) = chunks n s l.
Proof.
  revert m l; induction n as [|n IH]; intros m l H; simpl; [reflexivity|].
  rewrite firstn_firstn, Nat.min_l by lia.
  rewrite skipn_firstn_comm. rewrite IH by lia. reflexivity.
Qed.

Lemma chunks_add {A} n n' s (l : list A) :
  chunks (n + n') s l = chunks n s l ++ chunks n' s (skipn (n * s) l).
Proof.
  revert l; induction n as [|n IH]; intros l; simpl; [reflexivity|].
  rewrite IH. now rewrite skipn_skipn, (Nat.add_comm (n * s) s).
Qed.

Lemma chunks_chunks {A} n p q (l : list A) :
  concat (map (chunks p q) (chunks n (p * q) l)) = chunks (n * p) q l.
Proof.
  revert l; induction n as [|n IH]; intros l; simpl; [reflexivity|].
  rewrite IH, chunks_add. f_equal. now apply chunks_firstn.
Qed.

Lemma concat_map_concat {A B} (f : A -> list B) (t : list (list A)) :
  concat (map f (concat t)) = concat (map (fun r => concat (map f r)) t).
Proof.
  induction t as [|r t IH]; simpl; [reflexivity|].
  now rewrite map_app, concat_app, IH.
Qed.

Lemma concat_repeat_mul {A} (c : list A) n m :
  concat (repeat (concat (repeat c m)) n) = concat (repeat c (n * m)).
Proof.
  induction n as [|n IH]; simpl; [reflexivity|].
  now rewrite repeat_app, concat_app, IH.
Qed.

Lemma chunks_In_length {A} n s (l c : list A) :
  length l = n * s -> In c (chunks n s l) -> length c = s.
Proof.
  intros H Hin. pose proof (chunks_shaped n s l H) as [_ Hf].
  rewrite Forall_forall in Hf. now apply Hf.
Qed.

Lemma tile_ones {A} s (l : list A) :
  length l = prod_dims s -> tile_entries s (repeat 1 (length s)) l = l.
Proof.
  revert l; induction s as [|n s IH]; intros l H; [reflexivity|].
  simpl in *. rewrite app_nil_r.
  rewrite map_id_on; [now apply concat_chunks|].
  intros c Hc. apply IH. now apply (chunks_In_length n _ l).
Qed.

Lemma tile_axis {A} pre post K (l : list A) :
  length l = prod_dims pre * prod_dims post ->
  tile_entries (pre ++ 1 :: post)
               (repeat 1 (length pre) ++ K :: repeat 1 (length post)) l
  = concat (map (fun c => concat (repeat c K))
                (chunks (prod_dims pre) (prod_dims post) l)).
Proof.
  revert l; induction pre as [|n pre IH]; intros l H.
  - change (prod_dims []) with 1 in *. rewrite Nat.mul_1_l in H.
    cbn [app length repeat tile_entries chunks map concat].
    rewrite !app_nil_r. rewrite firstn_all2 by lia.
    now rewrite tile_ones.
  - cbn [app length repeat tile_entries prod_dims fold_right].
    fold (prod_dims (pre ++ 1 :: post)). fold (prod_dims pre).
    cbn [concat]. rewrite app_nil_r.
    rewrite prod_dims_app. cbn [prod_dims fold_right]. fold (prod_dims post).
    rewrite Nat.mul_1_l.
    rewrite (map_ext_in _ (fun c => concat (map (fun c => concat (repeat c K))
                                    (chunks (prod_dims pre) (prod_dims post) c)))).
    + rewrite <- chunks_chunks, concat_map_concat, map_map. reflexivity.
    + intros c Hc. apply IH.
      apply (chunks_In_length n _ l); [|assumption].
      simpl in H. fold (prod_dims pre) in H. lia.
Qed.

Lemma zip_with_mul_axis pre post K :
  zip_with Nat.mul (pre ++ 1 :: post)
           (repeat 1 (length pre) ++ K :: repeat 1 (length post))
  = pre ++ K :: post.
Proof.
  induction pre as [|n pre IH]; simpl.
  - f_equal; [lia|]. induction post as [|m post IHp]; simpl; [reflexivity|].
    f_equal; [lia | assumption].
  - f_equal; [lia | assumption].
Qed.

Lemma split_at {A} (d : A) dim (s : list A) :
  dim < length s ->
  s = firstn dim s ++ nth dim s d :: skipn (S dim) s.
Proof.
  revert s; induction dim as [|dim IH]; intros [|x s] H; simpl in *; try lia.
  - reflexivity.
  - f_equal. apply IH. lia.
Qed.

Lemma reshape_nat {A} (t : array A) (s : list nat) :
  prod_dims s = prod_dims (dims t) ->
  reshape t (map Z.of_nat s) = Returns {| dims := s; entries := entries t |}.
Proof.
  intros H. unfold reshape.
  assert (Hneg : existsb (fun n => (n <? -1)%Z) (map Z.of_nat s) = false).
  { clear. induction s as [|n s IH]; simpl; [reflexivity|].
    destruct (Z.ltb_spec (Z.of_nat n) (-1)); [lia|]. simpl. apply IH. }
  rewrite Hneg.
  assert (Hcount : count_occ Z.eq_dec (map Z.of_nat s) (-1)%Z = 0).
  { apply count_occ_not_In. intros Hin. apply in_map_iff in Hin as (n & Hn & _).
    lia. }
  rewrite Hcount.
  assert (Hfilter : filter (fun n => negb (n =? -1)%Z) (map Z.of_nat s)
                    = map Z.of_nat s).
  { clear. induction s as [|n s IH]; simpl; [reflexivity|].
    destruct (Z.eqb_spec (Z.of_nat n) (-1)); [lia|]. simpl. now rewrite IH. }
  rewrite Hfilter.
  assert (Hback : map Z.to_nat (map Z.of_nat s) = s).
  { rewrite map_map. apply map_id_on. intros; apply Nat2Z.id. }
  rewrite Hback, H, Nat.eqb_refl. reflexivity.
Qed.

Lemma firstn_repeat_le {A} (x : A) n m :
  n <= m -> firstn n (repeat x m) = repeat x n.
Proof.
  revert m; induction n as [|n IH]; intros [|m] H; simpl; try lia;
    [reflexivity | reflexivity | f_equal; apply IH; lia].
Qed.

Lemma skipn_repeat {A} (x : A) n m : skipn n (repeat x m) = repeat x (m - n).
Proof.
  revert m; induction n as [|n IH]; intros [|m]; simpl; try reflexivity.
  apply IH.
Qed.

Lemma firstn_S_nth {A} (d : A) dim (s : list A) :
  dim < length s -> firstn (S dim) s = firstn dim s ++ [nth dim s d].
Proof.
  revert s; induction dim as [|dim IH]; intros [|x s] H; simpl in *; try lia.
  - reflexivity.
  - f_equal. apply IH. lia.
Qed.

Lemma list_get_nth {A} (d : A) (l : list A) i :
  i < length l -> list_get l i = Returns (nth i l d).
Proof.
  intros H. unfold list_get. now rewrite (nth_error_nth' _ d).
Qed.

(** [repeat_batch] in closed form. *)
Lemma repeat_batch_ok {A} (t : array A) (K : Z) (dim : nat) :
  dense t -> dim < length (dims t) -> (0 <= K)%Z ->
  repeat_batch t K dim = Returns (repeated t (Z.to_nat K) dim).
Proof.
  intros Hd Hdim HK. unfold repeat_batch, repeated. cbv zeta.
  set (s := dims t) in *. set (len := length s) in *.
  set (pre := firstn (S dim) s). set (post := skipn (S dim) s).
  assert (Hpre : length pre = S dim)
    by (unfold pre; rewrite length_firstn; fold len; lia).
  assert (Hpost : length post = len - S dim)
    by (unfold post; rewrite length_skipn; reflexivity).
  assert (Hs : s = pre ++ post) by (symmetry; apply firstn_skipn).
  rewrite !Nat.add_1_r.
  (* tiling[dim + 1] = K *)
  unfold list_assign. rewrite repeat_length.
  destruct (Nat.ltb_spec (S dim) (S len)) as [_|]; [|lia].
  rewrite firstn_repeat_le, skipn_repeat by lia.
  cbn [and_then].
  (* tf.expand_dims(t, dim + 1) *)
  unfold expand_dims. fold s. fold len.
  destruct (Nat.leb_spec (S dim) len) as [_|]; [|lia].
  cbn [and_then]. fold pre. fold post.
  (* tf.tile *)
  unfold tile. cbn [dims entries].
  rewrite !length_app. cbn [length]. rewrite !repeat_length, Hpre, Hpost.
  replace (S dim + S (S len - S (S dim)) =? S dim + S (len - S dim)) with true
    by (symmetry; apply Nat.eqb_eq; lia).
  cbn [negb].
  rewrite existsb_app. cbn [existsb].
  assert (Hones : forall n, existsb (fun m => (m <? 0)%Z) (repeat 1%Z n) = false)
    by (induction n; simpl; auto).
  rewrite !Hones.
  destruct (Z.ltb_spec K 0) as [|_]; [lia|]. cbn [orb].
  cbn [and_then].
  rewrite map_app. cbn [map].
  assert (Hmap : forall n, map Z.to_nat (repeat 1%Z n) = repeat 1 n)
    by (induction n as [|n IHn]; cbn [repeat map];
        [reflexivity | rewrite IHn; reflexivity]).
  rewrite !Hmap.
  replace (S len - S (S dim)) with (length post) by lia.
  rewrite <- Hpre.
  rewrite zip_with_mul_axis.
  rewrite tile_axis
    by (unfold dense in Hd; fold s in Hd; rewrite Hd, Hs at 1;
        apply prod_dims_app).
  (* shape[dim] *)
  rewrite (list_get_nth 0) by assumption. cbn [and_then].
  (* tf.reshape *)
  assert (Hnew : map Z.of_nat (firstn dim s)
                  ++ [(Z.of_nat (nth dim s 0%nat) * K)%Z] ++ map Z.of_nat post
                 = map Z.of_nat (firstn dim s ++ [nth dim s 0 * Z.to_nat K] ++ post)).
  { rewrite !map_app. cbn [map]. do 3 f_equal. rewrite Nat2Z.inj_mul. lia. }
  rewrite Hnew. rewrite reshape_nat; [reflexivity|].
  cbn [dims]. unfold pre. rewrite (firstn_S_nth 0) by assumption.
  rewrite !prod_dims_app. cbn [prod_dims fold_right app].
  fold (prod_dims post). lia.
Qed.

Lemma repeat_rows_shaped {A} (c : list A) K m :
  length c = m -> shaped2 K m (repeat c K).
Proof.
  intros H. split; [apply repeat_length|].
  apply Forall_forall. intros x Hx. apply repeat_spec in Hx. now subst.
Qed.

Lemma repeated_rows_shaped {A} (X : list (list A)) K n m :
  shaped2 n m X ->
  shaped2 n (K * m) (map (fun c => concat (repeat c K)) X).
Proof.
  intros [Hn Hf]. split; [now rewrite length_map|].
  apply Forall_forall. intros x Hx. apply in_map_iff in Hx as (c & <- & Hc).
  rewrite Forall_forall in Hf.
  apply (shaped2_concat_length K m), repeat_rows_shaped. now apply Hf.
Qed.

Lemma repeated_blocks_shaped {A} (X : list (list A)) K n m :
  shaped2 n m X ->
  shaped2 (n * K) m (concat (map (fun c => repeat c K) X)).
Proof.
  intros [Hn Hf]. revert n Hn.
  induction Hf as [|c X Hc Hf IH]; intros n Hn; subst n; simpl.
  - split; [reflexivity | constructor].
  - destruct (IH _ eq_refl) as [Hlen Hall].
    destruct (repeat_rows_shaped c K m Hc) as [Hlen' Hall'].
    split; [rewrite length_app; lia | now apply Forall_app].
Qed.

Lemma concat_concat {A} (T : list (list (list A))) :
  concat (concat T) = concat (map (@concat A) T).
Proof.
  induction T as [|x T IH]; simpl; [reflexivity|].
  now rewrite concat_app, IH.
Qed.

Section Repeated.
Context {A : Type} (t : array A) (dim : nat).
Hypothesis Hd : dense t.
Hypothesis Hdim : dim < length (dims t).

Local Abbreviation outer := (prod_dims (firstn (S dim) (dims t))).
Local Abbreviation inner := (prod_dims (skipn (S dim) (dims t))).

Lemma dense_blocks : length (entries t) = outer * inner.
Proof.
  unfold dense in Hd. rewrite Hd.
  rewrite <- (firstn_skipn (S dim) (dims t)) at 1. apply prod_dims_app.
Qed.

Lemma outer_split :
  outer = prod_dims (firstn dim (dims t)) * nth dim (dims t) 0.
Proof.
  rewrite (firstn_S_nth 0) by assumption.
  rewrite prod_dims_app. simpl. lia.
Qed.

Lemma repeated_dims_split K :
  firstn dim (dims (repeated t K dim)) = firstn dim (dims t) /\
  nth dim (dims (repeated t K dim)) 0 = nth dim (dims t) 0 * K /\
  skipn (S dim) (dims (repeated t K dim)) = skipn (S dim) (dims t) /\
  length (dims (repeated t K dim)) = length (dims t).
Proof.
  assert (Hpre : length (firstn dim (dims t)) = dim)
    by (rewrite length_firstn; lia).
  unfold repeated; cbn [dims]. repeat split.
  - rewrite firstn_app, Hpre, Nat.sub_diag. cbn [firstn].
    rewrite app_nil_r. rewrite firstn_all2 by lia. reflexivity.
  - rewrite app_nth2 by lia. rewrite Hpre, Nat.sub_diag. reflexivity.
  - rewrite skipn_app, Hpre. rewrite skipn_all2 by lia.
    replace (S dim - dim) with 1 by lia. reflexivity.
  - rewrite !length_app, Hpre, length_skipn. simpl. lia.
Qed.

Lemma repeated_dense K : dense (repeated t K dim).
Proof.
  unfold dense, repeated; cbn [dims entries].
  rewrite (shaped2_concat_length outer (K * inner)).
  - rewrite !prod_dims_app, outer_split. simpl. lia.
  - apply repeated_rows_shaped, chunks_shaped, dense_blocks.
Qed.

Lemma repeated_entry (d : A) K o r i :
  o < outer -> r < K -> i < inner ->
  nth ((o * K + r) * inner + i) (entries (repeated t K dim)) d
  = nth (o * inner + i) (entries t) d.
Proof.
  intros Ho Hr Hi.
  pose proof (chunks_shaped outer inner (entries t) dense_blocks) as Hch.
  apply nth_error_nth. unfold repeated; cbn [entries].
  replace ((o * K + r) * inner + i) with (o * (K * inner) + (r * inner + i))
    by nia.
  rewrite (concat_nth_error outer (K * inner));
    [| now apply repeated_rows_shaped | assumption | nia].
  rewrite (nth_map_default _ _ o []) by (destruct Hch; lia).
  rewrite (concat_nth_error K inner);
    [| apply repeat_rows_shaped; now apply (shaped2_nth_length outer)
     | assumption | assumption].
  rewrite nth_repeat_lt by assumption.
  rewrite (nth_error_nth' _ d)
    by (rewrite (shaped2_nth_length outer inner); assumption).
  f_equal. now apply chunks_nth.
Qed.

End Repeated.

Lemma repeated_one {A} (t : array A) (dim : nat) :
  dense t -> dim < length (dims t) -> repeated t 1 dim = t.
Proof.
  intros Hd Hdim. pose proof (dense_blocks t dim Hd) as Hb.
  unfold repeated. destruct t as [s l]; cbn [dims entries] in *.
  f_equal.
  - rewrite Nat.mul_1_r. symmetry. now apply split_at.
  - rewrite map_id_on by (intros c _; simpl; apply app_nil_r).
    now apply concat_chunks.
Qed.

Lemma repeated_repeated {A} (t : array A) (dim K K' : nat) :
  dense t -> dim < length (dims t) ->
  repeated (repeated t K dim) K' dim = repeated t (K * K') dim.
Proof.
  intros Hd Hdim.
  destruct (repeated_dims_split t dim Hdim K) as (Hpre & Hn & Hpost & Hlen).
  assert (Hdim' : dim < length (dims (repeated t K dim))) by lia.
  unfold repeated at 1. rewrite Hpre, Hn, Hpost.
  rewrite (firstn_S_nth 0 dim (dims (repeated t K dim))) by assumption.
  rewrite Hpre, Hn.
  unfold repeated at 2. f_equal; [now rewrite Nat.mul_assoc|].
  pose proof (chunks_shaped _ _ (entries t) (dense_blocks t dim Hd)) as Hch.
  set (X := chunks _ _ (entries t)) in *.
  unfold repeated; cbn [entries]. fold X.
  rewrite <- (map_map (fun c => repeat c K) (@concat A)), <- concat_concat.
  replace (prod_dims (firstn dim (dims t) ++ [nth dim (dims t) 0 * K]))
    with (prod_dims (firstn (S dim) (dims t)) * K)
    by (rewrite (outer_split t dim Hdim), prod_dims_app; simpl; lia).
  rewrite chunks_concat by now apply repeated_blocks_shaped.
  rewrite concat_map_concat, map_map. f_equal.
  apply map_ext. intros c.
  rewrite map_repeat. apply concat_repeat_mul.
Qed.

(** X10. [repeat_batch t K dim] on a dense tensor, for an axis [dim] of the
    tensor and [K >= 0]: the shape is that of [t] with axis [dim] multiplied
    by [K], and every slice of [t] along [dim] stands [K] times in a row in
    the result: with [inner] the size of one slice, entry
    [(o * K + r) * inner + i] of the result is entry [o * inner + i] of
    [t], for every copy [r < K]. *)
Theorem X10_repeat_batch_blocks :
  forall {A : Type} (d : A) (t : array A) (K : Z) (dim : nat),
    dense t -> dim < length (dims t) -> (0 <= K)%Z ->
    exists out,
      repeat_batch t K dim = Returns out /\
      dims out = firstn dim (dims t) ++ [nth dim (dims t) 0 * Z.to_nat K]
                 ++ skipn (S dim) (dims t) /\
      dense out /\
      forall o r i,
        o < prod_dims (firstn (S dim) (dims t)) -> r < Z.to_nat K ->
        i < prod_dims (skipn (S dim) (dims t)) ->
        nth ((o * Z.to_nat K + r) * prod_dims (skipn (S dim) (dims t)) + i)
            (entries out) d
        = nth (o * prod_dims (skipn (S dim) (dims t)) + i) (entries t) d.
Proof.
  intros A d t K dim Hd Hdim HK.
  exists (repeated t (Z.to_nat K) dim). split; [|split; [|split]].
  - now apply repeat_batch_ok.
  - reflexivity.
  - now apply repeated_dense.
  - intros o r i. now apply repeated_entry.
Qed.

Lemma X10_witness :
  exists out,
    repeat_batch {| dims := [2; 5]; entries := [0; 1; 2; 3; 4; 5; 6; 7; 8; 9]%Z |}
                 2 0 = Returns out /\
    dims out = [4; 5] /\
    nth 17 (entries out) 0%Z = 7%Z.
Proof.
  destruct (X10_repeat_batch_blocks 0%Z
              {| dims := [2; 5]; entries := [0; 1; 2; 3; 4; 5; 6; 7; 8; 9]%Z |}
              2 0 eq_refl) as (out & Hout & Hdims & _ & Hentry);
    [simpl; lia | lia |].
  exists out. split; [exact Hout|]. split; [exact Hdims|].
  apply (Hentry 1 1 2); simpl; lia.
Defined.

(** X11. Repeating [K] times and then [K'] times along the same axis is
    repeating [K * K'] times. *)
Theorem X11_repeat_batch_composes :
  forall {A : Type} (t : array A) (K K' : Z) (dim : nat),
    dense t -> dim < length (dims t) -> (0 <= K)%Z -> (0 <= K')%Z ->
    (out <~ repeat_batch t K dim ;; repeat_batch out K' dim)
    = repeat_batch t (K * K') dim.
Proof.
  intros A t K K' dim Hd Hdim HK HK'.
  rewrite (repeat_batch_ok t K) by assumption. cbn [and_then].
  rewrite repeat_batch_ok;
    [| now apply repeated_dense
     | now rewrite (proj2 (proj2 (proj2 (repeated_dims_split t dim Hdim _))))
     | assumption].
  rewrite (repeat_batch_ok t (K * K')) by (assumption || lia).
  rewrite Z2Nat.inj_mul by assumption.
  f_equal. now apply repeated_repeated.
Qed.

Lemma X11_witness :
  (out <~ repeat_batch {| dims := [2; 1]; entries := [7; 8]%Z |} 2 0 ;;
   repeat_batch out 3 0)
  = repeat_batch {| dims := [2; 1]; entries := [7; 8]%Z |} 6 0.
Proof.
  apply (X11_repeat_batch_composes {| dims := [2; 1]; entries := [7; 8]%Z |}
           2 3 0 eq_refl); simpl; lia.
Defined.

(** X12. [repeat_batch] with [K = 1] returns its argument. *)
Theorem X12_repeat_batch_once :
  forall {A : Type} (t : array A) (dim : nat),
    dense t -> dim < length (dims t) ->
    repeat_batch t 1 dim = Returns t.
Proof.
  intros A t dim Hd Hdim.
  rewrite repeat_batch_ok by (assumption || lia).
  f_equal. now apply repeated_one.
Qed.

Lemma X12_witness :
  repeat_batch {| dims := [2; 2]; entries := [1; 2; 3; 4]%Z |} 1 1
  = Returns {| dims := [2; 2]; entries := [1; 2; 3; 4]%Z |}.
Proof.
  apply (X12_repeat_batch_once {| dims := [2; 2]; entries := [1; 2; 3; 4]%Z |}
           1 eq_refl). simpl; lia.
Defined.

(** X13. [repeat_batch] on an axis the tensor does not have raises
    IndexError (from the assignment into [tiling]); on an axis it has, a
    negative [K] is rejected by [tf.tile]. *)
Theorem X13_repeat_batch_errors :
  forall {A : Type} (t : array A) (K : Z) (dim : nat),
    (length (dims t) <= dim -> repeat_batch t K dim = Raises IndexError) /\
    (dim < length (dims t) -> (K < 0)%Z ->
     repeat_batch t K dim = Raises InvalidArgumentError).
Proof.
  intros A t K dim. unfold repeat_batch. cbv zeta. split.
  - intros H. unfold list_assign. rewrite repeat_length.
    destruct (Nat.ltb_spec (dim + 1) (length (dims t) + 1)); [lia|].
    reflexivity.
  - intros H HK. unfold list_assign. rewrite repeat_length.
    destruct (Nat.ltb_spec (dim + 1) (length (dims t) + 1)); [|lia].
    cbn [and_then]. unfold expand_dims.
    destruct (Nat.leb_spec (dim + 1) (length (dims t))); [|lia].
    cbn [and_then]. unfold tile.
    rewrite existsb_app. cbn [existsb].
    destruct (Z.ltb_spec K 0) as [_|]; [|lia].
    cbn [orb]. rewrite orb_true_r.
    now destruct (negb _).
Qed.

Lemma X13_witness :
  repeat_batch {| dims := [2]; entries := [1; 2]%Z |} 3 1 = Raises IndexError /\
  repeat_batch {| dims := [2]; entries := [1; 2]%Z |} (-1) 0
  = Raises InvalidArgumentError.
Proof.
  split.
  - apply (proj1 (X13_repeat_batch_errors
                    {| dims := [2]; entries := [1; 2]%Z |} 3 1)). simpl; lia.
  - apply (proj2 (X13_repeat_batch_errors
                    {| dims := [2]; entries := [1; 2]%Z |} (-1) 0));
      simpl; lia.
Defined.

(** ** [subsequent_mask] *)

Lemma indexed_nth {A} (d : A) (l : list A) j :
  j < length l -> nth j (indexed l) (d, 0) = (nth j l d, j).
Proof.
  intros H. unfold indexed.
  rewrite combine_nth by now rewrite length_seq.
  now rewrite seq_nth.
Qed.

Lemma indexed_length {A} (l : list A) : length (indexed l) = length l.
Proof. unfold indexed. rewrite length_combine, length_seq. lia. Qed.

Lemma matrix_band_part_shaped n m input lo hi :
  shaped2 n m input -> shaped2 n m (matrix_band_part input lo hi).
Proof.
  intros [Hn Hf]. unfold matrix_band_part.
  split; [now rewrite length_map, indexed_length|].
  apply Forall_forall. intros r Hr. apply in_map_iff in Hr as ([row i] & <- & Hin).
  rewrite length_map, indexed_length. cbn [fst].
  unfold indexed in Hin. apply in_combine_l in Hin.
  rewrite Forall_forall in Hf. now apply Hf.
Qed.

Lemma matrix_band_part_entry n m input lo hi i j :
  shaped2 n m input -> i < n -> j < m ->
  get2 0%Q (matrix_band_part input lo hi) i j
  = if in_band lo hi i j then get2 0%Q input i j else 0%Q.
Proof.
  intros Hs Hi Hj. unfold get2, matrix_band_part.
  pose proof (shaped2_nth_length n m input i Hs Hi) as Hrow.
  destruct Hs as [Hn _].
  rewrite (nth_map_default _ _ i ([], 0)) by (rewrite indexed_length; lia).
  rewrite (indexed_nth []) by lia. cbn [fst snd].
  rewrite (nth_map_default _ _ j (0%Q, 0)) by (rewrite indexed_length; lia).
  rewrite (indexed_nth 0%Q) by lia. reflexivity.
Qed.

(** X14. [subsequent_mask(size)] for [size >= 0] is a [1 x 1 x size x size]
    tensor whose entry [(i, j)] is 1 when [j <= i] and 0 when [j > i]: a
    position is open to itself and to the positions before it, to none after
    it.  A negative [size] is rejected. *)
Theorem X14_subsequent_mask_lower_triangle :
  forall size : Z,
    ((0 <= size)%Z ->
     exists b,
       subsequent_mask size = Returns [[b]] /\
       shaped2 (Z.to_nat size) (Z.to_nat size) b /\
       forall i j, i < Z.to_nat size -> j < Z.to_nat size ->
         get2 0%Q b i j = if j <=? i then 1%Q else 0%Q) /\
    ((size < 0)%Z -> subsequent_mask size = Raises InvalidArgumentError).
Proof.
  intros size. unfold subsequent_mask, ones. split.
  - intros H. destruct (Z.ltb_spec size 0) as [|_]; [lia|]. cbn [orb and_then].
    set (n := Z.to_nat size).
    pose proof (repeat_shaped2 n n 1%Q) as Hs.
    eexists. split; [reflexivity|]. split.
    + now apply matrix_band_part_shaped.
    + intros i j Hi Hj.
      rewrite (matrix_band_part_entry n n) by assumption.
      rewrite (get2_repeat n n) by assumption.
      unfold in_band. simpl orb.
      destruct (Nat.leb_spec j i), (Z.leb_spec (Z.of_nat j - Z.of_nat i) 0);
        try reflexivity; lia.
  - intros H. destruct (Z.ltb_spec size 0) as [_|]; [|lia]. reflexivity.
Qed.

Lemma X14_witness :
  (exists b, subsequent_mask 3 = Returns [[b]] /\
             get2 0%Q b 1 1 = 1%Q /\ get2 0%Q b 1 2 = 0%Q) /\
  subsequent_mask (-2) = Raises InvalidArgumentError.
Proof.
  split.
  - destruct (proj1 (X14_subsequent_mask_lower_triangle 3)) as (b & Hb & _ & He);
      [lia|].
    exists b. split; [exact Hb|]. split.
    + apply (He 1 1); simpl; lia.
    + apply (He 1 2); simpl; lia.
  - apply (proj2 (X14_subsequent_mask_lower_triangle (-2))). lia.
Defined.

(** ** Attention heads *)

(** X15. Without an explicit [d_k], and with a Keras whose [Dense] accepts
    every positive [units]: the attention layer is built whenever [num_heads]
    is not zero and divides a positive [d_model]; whenever it is built,
    [num_heads] is not zero and divides [d_model], each head has width
    [d_model / num_heads] and the four projections have [d_model] units.
    Zero heads raise ZeroDivisionError, a [d_model] that is not a multiple of
    [num_heads] raises the layer's own exception, and a [d_model] that
    [Dense] refuses raises ValueError. *)
Theorem X15_head_width :
  forall (accepts : Z -> bool) (num_heads d_model : Z),
    (forall u, (0 < u)%Z -> accepts u = true) ->
    (forall a,
       MultiHeadedAttention.__init__ accepts num_heads d_model None = Returns a ->
       num_heads <> 0%Z /\ (d_model mod num_heads = 0)%Z /\
       accepts d_model = true /\
       h a = num_heads /\ (d_k a * num_heads = d_model)%Z /\
       units (w_Q a) = d_model /\ units (w_K a) = d_model /\
       units (w_V a) = d_model /\ units (w_O a) = d_model) /\
    (num_heads <> 0%Z -> (d_model mod num_heads = 0)%Z -> (0 < d_model)%Z ->
     exists a,
       MultiHeadedAttention.__init__ accepts num_heads d_model None = Returns a) /\
    (num_heads = 0%Z ->
     MultiHeadedAttention.__init__ accepts num_heads d_model None
     = Raises ZeroDivisionError) /\
    (num_heads <> 0%Z -> (d_model mod num_heads <> 0)%Z ->
     MultiHeadedAttention.__init__ accepts num_heads d_model None
     = Raises (NotDivisible d_model num_heads)) /\
    (num_heads <> 0%Z -> (d_model mod num_heads = 0)%Z ->
     accepts d_model = false ->
     MultiHeadedAttention.__init__ accepts num_heads d_model None
     = Raises ValueError).
Proof.
  intros accepts num_heads d_model Hpos.
  unfold MultiHeadedAttention.__init__.
  destruct (Z.eqb_spec num_heads 0) as [Hz | Hz];
    [|destruct (Z.eqb_spec (d_model mod num_heads) 0) as [Hm | Hm]];
    cbn [negb and_then].
  - split; [intros a Ha; discriminate|].
    split; [intros Hn; contradiction|].
    split; [reflexivity|].
    split; intros Hn; contradiction.
  - assert (Hu : (d_model / num_heads * num_heads = d_model)%Z).
    { pose proof (Z.div_mod d_model num_heads Hz). lia. }
    rewrite Hu. unfold MultiHeadedAttention.Dense.
    destruct (accepts d_model) eqn:Hacc; cbn [and_then].
    + split; [|split; [|split; [|split]]].
      * intros a [= <-]. cbn [d_k h w_Q w_K w_V w_O units].
        repeat split; assumption.
      * intros _ _ _. eexists. reflexivity.
      * intros Hn. contradiction.
      * intros _ Hn. contradiction.
      * intros _ _ Hn. discriminate.
    + split; [intros a Ha; discriminate|].
      split; [intros _ _ Hd; rewrite (Hpos _ Hd) in Hacc; discriminate|].
      split; [intros Hn; contradiction|].
      split; [intros _ Hn; contradiction | reflexivity].
  - split; [intros a Ha; discriminate|].
    split; [intros _ Hn; contradiction|].
    split; [intros Hn; contradiction|].
    split; [reflexivity | intros _ Hn; contradiction].
Qed.

Lemma X15_witness :
  (forall a,
     MultiHeadedAttention.__init__ (fun u => 0 <? u)%Z 8 512 None = Returns a ->
     d_k a = 64%Z /\ units (w_Q a) = 512%Z /\ units (w_O a) = 512%Z) /\
  (exists a,
     MultiHeadedAttention.__init__ (fun u => 0 <? u)%Z 8 512 None = Returns a) /\
  MultiHeadedAttention.__init__ (fun u => 0 <? u)%Z 0 512 None
  = Raises ZeroDivisionError /\
  MultiHeadedAttention.__init__ (fun u => 0 <? u)%Z 3 512 None
  = Raises (NotDivisible 512 3) /\
  MultiHeadedAttention.__init__ (fun u => 0 <? u)%Z 8 (-512) None
  = Raises ValueError.
Proof.
  assert (Hpos : forall u, (0 < u)%Z -> (0 <? u)%Z = true)
    by (intros u Hu; now apply Z.ltb_lt).
  pose proof (X15_head_width (fun u => 0 <? u)%Z 8 512 Hpos) as (Hok & Hex & _).
  pose proof (X15_head_width (fun u => 0 <? u)%Z 0 512 Hpos) as (_ & _ & Hzero & _).
  pose proof (X15_head_width (fun u => 0 <? u)%Z 3 512 Hpos) as (_ & _ & _ & Hbad & _).
  pose proof (X15_head_width (fun u => 0 <? u)%Z 8 (-512) Hpos)
    as (_ & _ & _ & _ & Hneg).
  split; [|split; [|split; [|split]]].
  - intros a Ha. destruct (Hok a Ha) as (_ & _ & _ & _ & Hd & Hq & _ & _ & Ho).
    split; [lia | split; assumption].
  - apply Hex; [lia | reflexivity | lia].
  - now apply Hzero.
  - apply Hbad; [lia | discriminate].
  - apply Hneg; [lia | reflexivity | reflexivity].
Defined.

(** ** [make_rpr] *)

Lemma collect_map {A B} (f : A -> outcome B) (g : A -> B) (l : list A) :
  (forall x, In x l -> f x = Returns (g x)) ->
  collect f l = Returns (map g l).
Proof.
  induction l as [|x l IH]; intros H; simpl; [reflexivity|].
  rewrite H by now left. cbn [and_then].
  rewrite IH by (intros; apply H; now right). reflexivity.
Qed.

Lemma embed_ok {Row} (d : Row) (table : list Row) (ids : list (list Z)) :
  (forall row id, In row ids -> In id row ->
     (0 <= id < Z.of_nat (length table))%Z) ->
  MultiHeadedRelativeAttention.embed table ids
  = Returns (map (map (fun id => nth (Z.to_nat id) table d)) ids).
Proof.
  intros H. unfold MultiHeadedRelativeAttention.embed.
  apply collect_map. intros row Hrow.
  apply collect_map. intros id Hid.
  specialize (H row id Hrow Hid).
  destruct (Z.ltb_spec id 0) as [|_]; [lia|].
  rewrite (nth_error_nth' _ d) by lia. reflexivity.
Qed.

Lemma range_ok n :
  (0 <= n)%Z ->
  MultiHeadedRelativeAttention.range n
  = Returns (map Z.of_nat (seq 0 (Z.to_nat n))).
Proof.
  intros H. unfold MultiHeadedRelativeAttention.range.
  destruct (Z.ltb_spec n 0) as [|_]; [lia | reflexivity].
Qed.

Lemma range_negative n :
  (n < 0)%Z -> MultiHeadedRelativeAttention.range n = Raises InvalidArgumentError.
Proof.
  intros H. unfold MultiHeadedRelativeAttention.range.
  destruct (Z.ltb_spec n 0) as [_|]; [reflexivity | lia].
Qed.

Lemma iota_nth n i : i < n -> nth i (map Z.of_nat (seq 0 n)) 0%Z = Z.of_nat i.
Proof.
  intros H. rewrite (nth_map_default _ _ i 0) by now rewrite length_seq.
  now rewrite seq_nth.
Qed.

Lemma edges_ok k n :
  (0 <= n)%Z ->
  exists e,
    MultiHeadedRelativeAttention.edges k n = Returns e /\
    shaped2 (Z.to_nat n) (Z.to_nat n) e /\
    (forall i j, i < Z.to_nat n -> j < Z.to_nat n ->
       get2 0%Z e i j
       = MultiHeadedRelativeAttention.clip_by_value
           (Z.of_nat j - Z.of_nat i + k) 0 (2 * k)) /\
    ((0 <= k)%Z -> forall row id, In row e -> In id row -> (0 <= id <= 2 * k)%Z).
Proof.
  intros Hn. unfold MultiHeadedRelativeAttention.edges.
  rewrite (range_ok n Hn). cbn [and_then]. cbv zeta.
  set (s := map Z.of_nat (seq 0 (Z.to_nat n))).
  assert (Hlen : length s = Z.to_nat n)
    by (unfold s; now rewrite length_map, length_seq).
  eexists. split; [reflexivity|]. split; [|split].
  - split; [now rewrite length_map|].
    apply Forall_forall. intros r Hr. apply in_map_iff in Hr as (si & <- & _).
    now rewrite length_map.
  - intros i j Hi Hj. unfold get2.
    rewrite (nth_map_default _ _ i 0%Z) by now rewrite Hlen.
    rewrite (nth_map_default _ _ j 0%Z) by now rewrite Hlen.
    unfold s. now rewrite !iota_nth.
  - intros Hk row id Hrow Hid.
    apply in_map_iff in Hrow as (si & <- & _).
    apply in_map_iff in Hid as (sj & <- & _).
    unfold MultiHeadedRelativeAttention.clip_by_value. lia.
Qed.

(** X16. With a window [rpr_k >= 0], the two tables of [2 * rpr_k + 1] rows
    that [__init__] creates, and [seq_len >= 0], all within the int32 range
    of the index arithmetic, [make_rpr] never leaves the tables: it returns
    two [seq_len x seq_len] grids whose entry [(i, j)] is row
    [clamp(j - i, -rpr_k, rpr_k) + rpr_k] of the key and of the value table.
    So the entry depends on [j - i] only, and all pairs [rpr_k] or more apart
    in one direction share one row.  A negative [seq_len] is refused by
    [tf.range]. *)
Theorem X16_make_rpr_in_window :
  forall {Row : Type} (d : Row) (self : MultiHeadedRelativeAttention.layer Row)
         (seq_len : Z),
    ((0 <= MultiHeadedRelativeAttention.rpr_k self)%Z ->
     (0 <= seq_len)%Z ->
     in_int32 (2 * MultiHeadedRelativeAttention.rpr_k self + 1) = true ->
     in_int32 (seq_len + MultiHeadedRelativeAttention.rpr_k self) = true ->
     length (MultiHeadedRelativeAttention.rpr_key self)
     = Z.to_nat (2 * MultiHeadedRelativeAttention.rpr_k self + 1) ->
     length (MultiHeadedRelativeAttention.rpr_value self)
     = Z.to_nat (2 * MultiHeadedRelativeAttention.rpr_k self + 1) ->
     exists ks vs,
       MultiHeadedRelativeAttention.make_rpr self seq_len = Returns (ks, vs) /\
       shaped2 (Z.to_nat seq_len) (Z.to_nat seq_len) ks /\
       shaped2 (Z.to_nat seq_len) (Z.to_nat seq_len) vs /\
       forall i j, i < Z.to_nat seq_len -> j < Z.to_nat seq_len ->
         let k := MultiHeadedRelativeAttention.rpr_k self in
         let rel := Z.to_nat (Z.max (- k) (Z.min k (Z.of_nat j - Z.of_nat i)) + k) in
         in_int32 (Z.of_nat j - Z.of_nat i + k) = true /\
         rel < length (MultiHeadedRelativeAttention.rpr_key self) /\
         get2 d ks i j = nth rel (MultiHeadedRelativeAttention.rpr_key self) d /\
         get2 d vs i j = nth rel (MultiHeadedRelativeAttention.rpr_value self) d) /\
    ((seq_len < 0)%Z ->
     MultiHeadedRelativeAttention.make_rpr self seq_len
     = Raises InvalidArgumentError).
Proof.
  intros Row d self seq_len. split.
  - intros Hk Hn Hwin Hsum Hkey Hval.
    unfold MultiHeadedRelativeAttention.make_rpr.
    set (k := MultiHeadedRelativeAttention.rpr_k self) in *.
    destruct (edges_ok k seq_len Hn) as (e & He & Hs & Hent & Hbounds).
    rewrite He. cbn [and_then].
    rewrite (embed_ok d (MultiHeadedRelativeAttention.rpr_key self))
      by (intros row id Hrow Hid;
          pose proof (Hbounds Hk row id Hrow Hid); lia).
    cbn [and_then].
    rewrite (embed_ok d (MultiHeadedRelativeAttention.rpr_value self))
      by (intros row id Hrow Hid;
          pose proof (Hbounds Hk row id Hrow Hid); lia).
    cbn [and_then].
    eexists _, _. split; [reflexivity|].
    split; [now apply map_map_shaped2|]. split; [now apply map_map_shaped2|].
    intros i j Hi Hj. cbv zeta.
    assert (Hrel : MultiHeadedRelativeAttention.clip_by_value
                     (Z.of_nat j - Z.of_nat i + k) 0 (2 * k)
                   = (Z.max (- k) (Z.min k (Z.of_nat j - Z.of_nat i)) + k)%Z)
      by (unfold MultiHeadedRelativeAttention.clip_by_value; lia).
    split.
    { unfold in_int32 in *. apply andb_true_iff in Hsum as [_ Hsum].
      apply Z.ltb_lt in Hsum. apply andb_true_iff. split.
      - apply Z.leb_le. lia.
      - apply Z.ltb_lt. lia. }
    split; [rewrite Hkey; lia|].
    rewrite !(get2_map_map _ 0%Z d (Z.to_nat seq_len) (Z.to_nat seq_len))
      by assumption.
    rewrite Hent by assumption. rewrite Hrel. split; reflexivity.
  - intros Hn. unfold MultiHeadedRelativeAttention.make_rpr,
      MultiHeadedRelativeAttention.edges.
    now rewrite (range_negative seq_len Hn).
Qed.

Lemma X16_witness :
  (exists ks vs,
     MultiHeadedRelativeAttention.make_rpr
       {| MultiHeadedRelativeAttention.rpr_k := 1;
          MultiHeadedRelativeAttention.rpr_key := [10; 11; 12]%Z;
          MultiHeadedRelativeAttention.rpr_value := [20; 21; 22]%Z |} 4
     = Returns (ks, vs) /\
     get2 0%Z ks 0 3 = 12%Z /\ get2 0%Z vs 3 0 = 20%Z) /\
  MultiHeadedRelativeAttention.make_rpr
    {| MultiHeadedRelativeAttention.rpr_k := 1;
       MultiHeadedRelativeAttention.rpr_key := [10; 11; 12]%Z;
       MultiHeadedRelativeAttention.rpr_value := [20; 21; 22]%Z |} (-1)
  = Raises InvalidArgumentError.
Proof.
  split.
  - destruct (proj1 (X16_make_rpr_in_window 0%Z
                {| MultiHeadedRelativeAttention.rpr_k := 1;
                   MultiHeadedRelativeAttention.rpr_key := [10; 11; 12]%Z;
                   MultiHeadedRelativeAttention.rpr_value := [20; 21; 22]%Z |} 4))
      as (ks & vs & Hret & _ & _ & Hent);
      [simpl; lia | lia | reflexivity | reflexivity | reflexivity | reflexivity |].
    exists ks, vs. split; [exact Hret|]. split.
    + apply (Hent 0 3); simpl; lia.
    + apply (Hent 3 0); simpl; lia.
  - apply (proj2 (X16_make_rpr_in_window 0%Z
                {| MultiHeadedRelativeAttention.rpr_k := 1;
                   MultiHeadedRelativeAttention.rpr_key := [10; 11; 12]%Z;
                   MultiHeadedRelativeAttention.rpr_value := [20; 21; 22]%Z |} (-1))).
    lia.
Defined.

(** * Embeddings *)

(** ** Dictionaries *)

Lemma dict_get_set_eq {V} (d : dict V) k v : dict_get (dict_set d k v) k = Some v.
Proof.
  induction d as [|[k' v'] d IH]; simpl.
  - now destruct (word_eq_dec k k).
  - destruct (word_eq_dec k' k) as [->|Hne]; simpl.
    + now destruct (word_eq_dec k k).
    + now destruct (word_eq_dec k' k).
Qed.

Lemma dict_get_set_ne {V} (d : dict V) k k' v :
  k <> k' -> dict_get (dict_set d k v) k' = dict_get d k'.
Proof.
  intros Hne. induction d as [|[k0 v0] d IH]; simpl.
  - now destruct (word_eq_dec k k').
  - destruct (word_eq_dec k0 k) as [->|Hk]; simpl.
    + destruct (word_eq_dec k k'); [contradiction | reflexivity].
    + destruct (word_eq_dec k0 k'); [reflexivity | assumption].
Qed.

Lemma dict_get_In {V} (d : dict V) k v :
  dict_get d k = Some v -> In (k, v) d.
Proof.
  induction d as [|[k' v'] d IH]; simpl; [discriminate|].
  destruct (word_eq_dec k' k) as [->|_].
  - intros [= ->]. now left.
  - intros H. right. now apply IH.
Qed.

Lemma In_dict_get {V} (d : dict V) k v :
  NoDup (keys d) -> In (k, v) d -> dict_get d k = Some v.
Proof.
  induction d as [|[k' v'] d IH]; simpl; intros Hnd Hin; [contradiction|].
  inversion Hnd as [|? ? Hnotin Hnd']; subst.
  destruct Hin as [[= -> ->] | Hin].
  - now destruct (word_eq_dec k k).
  - destruct (word_eq_dec k' k) as [->|_]; [|now apply IH].
    exfalso. apply Hnotin. unfold keys. apply in_map_iff. now exists (k, v).
Qed.

Lemma dict_get_None {V} (d : dict V) k :
  dict_get d k = None <-> ~ In k (keys d).
Proof.
  induction d as [|[k' v'] d IH]; simpl; [tauto|].
  destruct (word_eq_dec k' k) as [->|Hne].
  - split; [discriminate | intros H; exfalso; apply H; now left].
  - rewrite IH. tauto.
Qed.

Lemma filter_all {A} (p : A -> bool) (l : list A) :
  (forall x, In x l -> p x = true) -> filter p l = l.
Proof.
  induction l as [|x l IH]; simpl; intros H; [reflexivity|].
  rewrite H by now left. f_equal. apply IH. intros; apply H; now right.
Qed.

Lemma NoDup_keys_filter {V} (p : word * V -> bool) (d : dict V) :
  NoDup (keys d) -> NoDup (keys (filter p d)).
Proof.
  unfold keys. induction d as [|x d IH]; simpl; intros H; [constructor|].
  inversion H as [|? ? Hnotin Hnd]; subst.
  destruct (p x); simpl; [|now apply IH].
  constructor; [|now apply IH].
  intros Hin. apply Hnotin. apply in_map_iff in Hin as (y & Hy & Hin).
  apply filter_In in Hin as [Hin _]. apply in_map_iff. now exists y.
Qed.

(** The entries whose key is none of [names]. *)
Lemma dict_pop_filter {V} (d : dict V) k :
  NoDup (keys d) ->
  dict_pop d k = filter (fun kv => if word_eq_dec (fst kv) k then false else true) d.
Proof.
  induction d as [|[k' v'] d IH]; simpl; intros H; [reflexivity|].
  inversion H as [|? ? Hnotin Hnd]; subst.
  destruct (word_eq_dec k' k) as [->|Hne].
  - symmetry. apply filter_all. intros [k0 v0] Hin. simpl.
    destruct (word_eq_dec k0 k) as [->|]; [|reflexivity].
    exfalso. apply Hnotin. unfold keys. apply in_map_iff. now exists (k, v0).
  - f_equal. now apply IH.
Qed.

Lemma pop_all_In {V} (names : list word) (d : dict V) kv :
  NoDup (keys d) ->
  (In kv (fold_left dict_pop names d) <-> In kv d /\ ~ In (fst kv) names) /\
  NoDup (keys (fold_left dict_pop names d)).
Proof.
  revert d. induction names as [|n names IH]; intros d Hnd; simpl.
  - split; [tauto | assumption].
  - rewrite dict_pop_filter by assumption.
    destruct (IH (filter (fun kv => if word_eq_dec (fst kv) n then false else true) d))
      as [Hin Hnd']; [now apply NoDup_keys_filter|].
    split; [|assumption].
    rewrite Hin, filter_In.
    destruct (word_eq_dec (fst kv) n) as [->|Hne]; intuition congruence.
Qed.

Lemma attested_In (d : dict Z) w :
  NoDup (keys d) ->
  (In w (RandomInitVecModel.attested d)
   <-> exists c, dict_get d w = Some c /\ (0 < c)%Z).
Proof.
  intros Hnd. unfold RandomInitVecModel.attested. rewrite in_map_iff. split.
  - intros ([k c] & <- & Hin). apply filter_In in Hin as [Hin Hc].
    exists c. split; [now apply In_dict_get | simpl in Hc; lia].
  - intros (c & Hget & Hc). exists (w, c). split; [reflexivity|].
    apply filter_In. split; [now apply dict_get_In | simpl; lia].
Qed.

Lemma attested_NoDup (d : dict Z) :
  NoDup (keys d) -> NoDup (RandomInitVecModel.attested d).
Proof. apply NoDup_keys_filter. Qed.

(** ** Enumerating names into a vocabulary *)

Section Enumerate.
Variable start : nat.

Local Abbreviation step :=
  (fun (d : dict Z) (ni : word * nat) =>
     dict_set d (fst ni) (Z.of_nat (snd ni + start))).

Lemma enum_get_notin names s d w :
  ~ In w names ->
  dict_get (fold_left step (combine names (seq s (length names))) d) w
  = dict_get d w.
Proof.
  revert s d. induction names as [|n names IH]; intros s d Hw; simpl;
    [reflexivity|].
  rewrite IH by (intros H; apply Hw; now right).
  apply dict_get_set_ne. intros ->. apply Hw. now left.
Qed.

Lemma enum_get_in names s d i :
  NoDup names -> i < length names ->
  dict_get (fold_left step (combine names (seq s (length names))) d)
           (nth i names [])
  = Some (Z.of_nat (s + i + start)).
Proof.
  revert s d i. induction names as [|n names IH]; intros s d i Hnd Hi; simpl in *;
    [lia|].
  inversion Hnd as [|? ? Hnotin Hnd']; subst.
  destruct i as [|i].
  - rewrite enum_get_notin by assumption. cbn [fst snd].
    rewrite dict_get_set_eq. do 2 f_equal. lia.
  - rewrite IH by (assumption || lia). do 2 f_equal. lia.
Qed.

Lemma enumerate_get_notin vocab names w :
  ~ In w names ->
  dict_get (RandomInitVecModel.enumerate_into vocab names start) w
  = dict_get vocab w.
Proof. apply enum_get_notin. Qed.

Lemma enumerate_get_in vocab names i :
  NoDup names -> i < length names ->
  dict_get (RandomInitVecModel.enumerate_into vocab names start) (nth i names [])
  = Some (Z.of_nat (i + start)).
Proof.
  intros Hnd Hi. unfold RandomInitVecModel.enumerate_into, indexed.
  now rewrite enum_get_in.
Qed.

Lemma enumerate_get_inv vocab names w v :
  NoDup names ->
  dict_get (RandomInitVecModel.enumerate_into vocab names start) w = Some v ->
  (exists i, i < length names /\ nth i names [] = w /\ v = Z.of_nat (i + start))
  \/ (~ In w names /\ dict_get vocab w = Some v).
Proof.
  intros Hnd Hget. destruct (in_dec word_eq_dec w names) as [Hin | Hnotin].
  - left. apply (In_nth _ _ []) in Hin as (i & Hi & <-).
    exists i. rewrite enumerate_get_in in Hget by assumption.
    injection Hget as <-. auto.
  - right. rewrite enumerate_get_notin in Hget by assumption. auto.
Qed.

End Enumerate.

(** ** The weight table *)

Lemma list_assign_tabulate {A} n (f : nat -> A) i v :
  i < n ->
  list_assign (tabulate n f) i v
  = Returns (tabulate n (fun j => if j =? i then v else f j)).
Proof.
  intros Hi. unfold list_assign. rewrite tabulate_length.
  destruct (Nat.ltb_spec i n) as [_|]; [|lia]. f_equal.
  unfold tabulate.
  replace n with (i + S (n - S i)) by lia.
  rewrite seq_app, !map_app. cbn [seq map].
  rewrite firstn_app, length_map, length_seq, Nat.sub_diag. cbn [firstn].
  rewrite app_nil_r, firstn_all2 by (rewrite length_map, length_seq; lia).
  replace (S i) with (length (map f (seq 0 i)) + 1)
    by (rewrite length_map, length_seq; lia).
  rewrite skipn_app, Nat.add_comm at 1.
  rewrite skipn_all2 by lia.
  rewrite length_map, length_seq.
  replace (i + 1 - i) with 1 by lia. cbn [skipn app].
  rewrite Nat.eqb_refl.
  f_equal; [|f_equal]; apply map_ext_in; intros j Hj; apply in_seq in Hj;
    destruct (Nat.eqb_spec j i); (reflexivity || lia).
Qed.

Section Redraw.
Variable uniform_row : nat -> nat -> Q.
Variable dsz : nat.

Lemma redraw_ok n cnt s (f : nat -> list Q) :
  s + cnt <= n ->
  RandomInitVecModel.redraw uniform_row dsz (seq s cnt) (tabulate n f)
  = Returns (tabulate n (fun j => if (s <=? j) && (j <? s + cnt)
                                  then tabulate dsz (uniform_row j) else f j)).
Proof.
  revert s f. induction cnt as [|cnt IH]; intros s f H; simpl.
  - f_equal. apply tabulate_ext. intros j Hj.
    destruct (Nat.leb_spec s j), (Nat.ltb_spec j (s + 0)); simpl;
      (reflexivity || lia).
  - rewrite list_assign_tabulate by lia. cbn [and_then].
    rewrite IH by lia. f_equal. apply tabulate_ext. intros j Hj.
    destruct (Nat.leb_spec (S s) j), (Nat.ltb_spec j (S s + cnt)),
             (Nat.leb_spec s j), (Nat.ltb_spec j (s + S cnt)),
             (Nat.eqb_spec j s); simpl; subst; (reflexivity || lia).
Qed.

Lemma list_assign_length {A} (l l' : list A) i v :
  list_assign l i v = Returns l' -> length l' = length l.
Proof.
  unfold list_assign. destruct (Nat.ltb_spec i (length l)); [|discriminate].
  intros E. injection E as E. rewrite <- E. clear E.
  destruct l as [|x l1]; [simpl in *; lia|].
  rewrite length_app, length_firstn. cbn [length] in *.
  rewrite length_skipn. lia.
Qed.


End Redraw.

(** ** [RandomInitVecModel] *)

Section RandomInit.
Variable VALUES : list word.
Variable OFFSET : nat.
Variable uniform : nat -> nat -> Q.
Variable uniform_row : nat -> nat -> Q.
Variable dsz : Z.
Variable known_vocab : dict Z.

Hypothesis VALUES_NoDup : NoDup VALUES.
Hypothesis OFFSET_eq : OFFSET = length VALUES.
Hypothesis OFFSET_pos : 1 <= OFFSET.
Hypothesis dsz_nonneg : (0 <= dsz)%Z.
Hypothesis known_vocab_wf : NoDup (keys known_vocab).

Local Abbreviation popped := (fold_left dict_pop VALUES known_vocab).
Local Abbreviation att := (RandomInitVecModel.attested popped).
Local Abbreviation built :=
  {| RandomInitVecModel.vocab :=
       RandomInitVecModel.enumerate_into
         (RandomInitVecModel.enumerate_into [] VALUES 0) att OFFSET;
     RandomInitVecModel.dsz := dsz;
     RandomInitVecModel.vsz := OFFSET + length att;
     RandomInitVecModel.weights :=
       tabulate (OFFSET + length att) (fun i =>
         if (1 <=? i) && (i <? 1 + (length VALUES - 1))
         then tabulate (Z.to_nat dsz) (uniform_row i)
         else if i =? 0 then repeat 0%Q (Z.to_nat dsz)
              else tabulate (Z.to_nat dsz) (uniform i));
     RandomInitVecModel.nullv := repeat 0%Q (Z.to_nat dsz) |}.

Lemma init_ok :
  RandomInitVecModel.__init__ VALUES OFFSET uniform uniform_row dsz known_vocab true
  = Returns (built, popped).
Proof.
  unfold RandomInitVecModel.__init__. cbv zeta. cbn iota beta.
  destruct (Z.ltb_spec dsz 0) as [|_]; [lia|].
  rewrite list_assign_tabulate by lia. cbn [and_then].
  rewrite redraw_ok by lia. cbn [and_then]. reflexivity.
Qed.

Lemma popped_get w c :
  dict_get popped w = Some c <-> dict_get known_vocab w = Some c /\ ~ In w VALUES.
Proof.
  destruct (pop_all_In VALUES known_vocab (w, c) known_vocab_wf) as [Hin Hnd].
  split.
  - intros H. apply dict_get_In, Hin in H as [H Hn].
    split; [now apply In_dict_get | assumption].
  - intros [H Hn]. apply In_dict_get; [assumption|].
    apply Hin. split; [now apply dict_get_In | assumption].
Qed.

Lemma att_In w :
  In w att <->
  ~ In w VALUES /\ exists c, dict_get known_vocab w = Some c /\ (0 < c)%Z.
Proof.
  rewrite attested_In
    by apply (proj2 (pop_all_In VALUES known_vocab ([], 0%Z) known_vocab_wf)).
  split.
  - intros (c & Hget & Hc). apply popped_get in Hget as [Hget Hn].
    split; [assumption | now exists c].
  - intros (Hn & c & Hget & Hc). exists c. split; [|assumption].
    now apply popped_get.
Qed.

Lemma att_NoDup : NoDup att.
Proof.
  apply attested_NoDup.
  apply (proj2 (pop_all_In VALUES known_vocab ([], 0%Z) known_vocab_wf)).
Qed.

(** The vocabulary in closed form: the special names by position, then the
    attested words by position, shifted by [OFFSET]. *)
Lemma vocab_get w v :
  dict_get (RandomInitVecModel.vocab built) w = Some v <->
  (exists i, i < length VALUES /\ nth i VALUES [] = w /\ v = Z.of_nat i) \/
  (exists k, k < length att /\ nth k att [] = w /\ v = Z.of_nat (k + OFFSET)).
Proof.
  cbn [RandomInitVecModel.vocab]. split.
  - intros H. apply enumerate_get_inv in H as [H | [Hn H]]; [now right | | apply att_NoDup].
    apply enumerate_get_inv in H as [(i & Hi & Hw & ->) | [_ H]];
      [| discriminate | assumption].
    left. exists i. rewrite Nat.add_0_r. auto.
  - intros [(i & Hi & <- & ->) | (k & Hk & <- & ->)].
    + rewrite enumerate_get_notin.
      * rewrite enumerate_get_in by assumption. now rewrite Nat.add_0_r.
      * intros Hin. apply att_In in Hin as [Hn _]. apply Hn. now apply nth_In.
    + apply enumerate_get_in; [apply att_NoDup | assumption].
Qed.

Lemma weights_length :
  length (RandomInitVecModel.weights built) = OFFSET + length att.
Proof. apply tabulate_length. Qed.

Lemma weights_row i :
  i < OFFSET + length att ->
  getitem (RandomInitVecModel.weights built) (Z.of_nat i)
  = Returns (nth i (RandomInitVecModel.weights built) []) /\
  length (nth i (RandomInitVecModel.weights built) []) = Z.to_nat dsz.
Proof.
  intros Hi. split.
  - unfold getitem. rewrite weights_length.
    destruct (Z.leb_spec 0 (Z.of_nat i)); [|lia].
    destruct (Z.ltb_spec (Z.of_nat i) (Z.of_nat (OFFSET + length att))); [|lia].
    cbn [andb]. rewrite Nat2Z.id.
    apply list_get_nth. now rewrite weights_length.
  - cbn [RandomInitVecModel.weights]. rewrite tabulate_nth by assumption.
    destruct (_ && _); [apply tabulate_length|].
    destruct (i =? 0); [apply repeat_length | apply tabulate_length].
Qed.

End RandomInit.

(** X17. [RandomInitVecModel(dsz, known_vocab)] with counts: the vocabulary
    holds the special names [Offsets.VALUES], at their positions, and the
    words of [known_vocab] with a positive count, and nothing else; it is a
    one-to-one map from its words onto the row numbers [0 .. vsz - 1] of the
    weight table. *)
Theorem X17_vocabulary_is_a_bijection :
  forall (VALUES : list word) (OFFSET : nat) (uniform uniform_row : nat -> nat -> Q)
         (dsz : Z) (known_vocab : dict Z),
    NoDup VALUES -> OFFSET = length VALUES -> 1 <= OFFSET -> (0 <= dsz)%Z ->
    NoDup (keys known_vocab) ->
    exists m kv,
      RandomInitVecModel.__init__ VALUES OFFSET uniform uniform_row dsz
                                  known_vocab true = Returns (m, kv) /\
      length (RandomInitVecModel.weights m) = RandomInitVecModel.vsz m /\
      (forall i, i < length VALUES ->
         dict_get (RandomInitVecModel.vocab m) (nth i VALUES []) = Some (Z.of_nat i)) /\
      (forall w, dict_in (RandomInitVecModel.vocab m) w = true <->
                 In w VALUES \/
                 exists c, dict_get known_vocab w = Some c /\ (0 < c)%Z) /\
      (forall w i, dict_get (RandomInitVecModel.vocab m) w = Some i ->
                   (0 <= i < Z.of_nat (RandomInitVecModel.vsz m))%Z) /\
      (forall w w' i, dict_get (RandomInitVecModel.vocab m) w = Some i ->
                      dict_get (RandomInitVecModel.vocab m) w' = Some i -> w = w') /\
      (forall i, i < RandomInitVecModel.vsz m ->
         exists w, dict_get (RandomInitVecModel.vocab m) w = Some (Z.of_nat i)).
Proof.
  intros VALUES OFFSET uniform uniform_row dsz known_vocab Hnd Hoff Hpos Hdsz Hwf.
  pose proof (vocab_get VALUES OFFSET uniform uniform_row dsz known_vocab
                Hnd Hwf) as Hget.
  pose proof (att_In VALUES known_vocab Hwf) as Hatt.
  eexists _, _. split; [now apply init_ok|].
  set (att := RandomInitVecModel.attested (fold_left dict_pop VALUES known_vocab)) in *.
  split; [apply tabulate_length|].
  split; [|split; [|split; [|split]]].
  - intros i Hi. apply Hget. left. now exists i.
  - intros w. unfold dict_in. split.
    + destruct (dict_get _ w) as [v|] eqn:E; [|discriminate]. intros _.
      apply Hget in E as [(i & Hi & <- & _) | (k & Hk & <- & _)].
      * left. now apply nth_In.
      * right. apply Hatt. now apply nth_In.
    + intros H.
      assert (Hcase : In w VALUES \/ In w att).
      { destruct (in_dec word_eq_dec w VALUES) as [Hin | Hn]; [now left|].
        destruct H as [H | H]; [now left|]. right. apply Hatt. now split. }
      assert (Hsome : exists v, dict_get
                (RandomInitVecModel.enumerate_into
                   (RandomInitVecModel.enumerate_into [] VALUES 0) att OFFSET) w
                = Some v).
      { destruct Hcase as [Hin | Hin];
          apply (In_nth _ _ []) in Hin as (i & Hi & <-);
          eexists; apply Hget; [left | right]; exists i; eauto. }
      destruct Hsome as (v & Hv). cbn [RandomInitVecModel.vocab]. now rewrite Hv.
  - intros w i H. cbn [RandomInitVecModel.vsz].
    apply Hget in H as [(j & Hj & _ & ->) | (k & Hk & _ & ->)]; lia.
  - intros w w' i H H'.
    apply Hget in H as [(j & Hj & <- & ->) | (k & Hk & <- & ->)];
      apply Hget in H' as [(j' & Hj' & <- & E) | (k' & Hk' & <- & E)];
      try lia.
    + f_equal. lia.
    + f_equal. lia.
  - intros i Hi. cbn [RandomInitVecModel.vsz] in Hi.
    destruct (Nat.lt_ge_cases i OFFSET) as [Hlt | Hge].
    + exists (nth i VALUES []). apply Hget. left. exists i. split; [lia | auto].
    + exists (nth (i - OFFSET) att []). apply Hget. right.
      exists (i - OFFSET). split; [lia|]. split; [reflexivity|]. f_equal. lia.
Qed.

Lemma X17_witness :
  exists m kv,
    RandomInitVecModel.__init__ [[60; 80; 62]; [60; 85; 62]]%Z 2
      (fun _ _ => 1#2) (fun _ _ => 1#3) 2
      [([104; 105], 3); ([60; 85; 62], 9); ([110; 111], 0); ([121; 111], 1)]%Z true
    = Returns (m, kv) /\
    RandomInitVecModel.vsz m = 4 /\
    dict_get (RandomInitVecModel.vocab m) [60; 85; 62]%Z = Some 1%Z /\
    dict_in (RandomInitVecModel.vocab m) [110; 111]%Z = false.
Proof.
  destruct (X17_vocabulary_is_a_bijection [[60; 80; 62]; [60; 85; 62]]%Z 2
              (fun _ _ => 1#2) (fun _ _ => 1#3) 2
              [([104; 105], 3); ([60; 85; 62], 9); ([110; 111], 0); ([121; 111], 1)]%Z)
    as (m & kv & Hret & Hlen & Hspecial & Hin & _).
  - repeat constructor; simpl; intuition discriminate.
  - reflexivity.
  - lia.
  - lia.
  - repeat constructor; simpl; intuition discriminate.
  - exists m, kv. split; [exact Hret|].
    pose proof Hret as Hret'. vm_compute in Hret'. injection Hret' as <- _.
    split; [reflexivity|]. split; [apply (Hspecial 1); simpl; lia|].
    reflexivity.
Defined.

(** X18. On a model built with counts, [lookup] never raises: a word of the
    vocabulary gets a row of [dsz] weights, the first special name (the
    padding) gets the zero vector, and a word outside the vocabulary gets
    [None], or the zero vector when [nullifabsent] is off. *)
Theorem X18_lookup_never_raises :
  forall (VALUES : list word) (OFFSET : nat) (uniform uniform_row : nat -> nat -> Q)
         (dsz : Z) (known_vocab : dict Z),
    NoDup VALUES -> OFFSET = length VALUES -> 1 <= OFFSET -> (0 <= dsz)%Z ->
    NoDup (keys known_vocab) ->
    exists m kv,
      RandomInitVecModel.__init__ VALUES OFFSET uniform uniform_row dsz
                                  known_vocab true = Returns (m, kv) /\
      (forall w flag,
         dict_in (RandomInitVecModel.vocab m) w = true ->
         exists row, RandomInitVecModel.lookup m w flag = Returns (Some row) /\
                     length row = Z.to_nat dsz) /\
      (forall flag,
         RandomInitVecModel.lookup m (nth 0 VALUES []) flag
         = Returns (Some (repeat 0%Q (Z.to_nat dsz)))) /\
      (forall w,
         dict_in (RandomInitVecModel.vocab m) w = false ->
         RandomInitVecModel.lookup m w true = Returns None /\
         RandomInitVecModel.lookup m w false
         = Returns (Some (repeat 0%Q (Z.to_nat dsz)))).
Proof.
  intros VALUES OFFSET uniform uniform_row dsz known_vocab Hnd Hoff Hpos Hdsz Hwf.
  pose proof (vocab_get VALUES OFFSET uniform uniform_row dsz known_vocab
                Hnd Hwf) as Hget.
  pose proof (weights_row VALUES OFFSET uniform uniform_row dsz known_vocab
                Hoff Hpos) as Hrow.
  eexists _, _. split; [now apply init_ok|].
  set (att := RandomInitVecModel.attested (fold_left dict_pop VALUES known_vocab)) in *.
  split; [|split].
  - intros w flag Hin. unfold RandomInitVecModel.lookup. rewrite Hin.
    unfold dict_in in Hin.
    destruct (dict_get _ w) as [v|] eqn:E; [|discriminate].
    assert (Hv : exists i, i < OFFSET + length att /\ v = Z.of_nat i).
    { apply Hget in E as [(j & Hj & _ & ->) | (k & Hk & _ & ->)];
        eexists; (split; [|reflexivity]); lia. }
    destruct Hv as (i & Hi & ->).
    destruct (Hrow i Hi) as [Hitem Hlen].
    rewrite Hitem. cbn [and_then]. eexists. split; [reflexivity | exact Hlen].
  - intros flag. unfold RandomInitVecModel.lookup.
    assert (E : dict_get
              (RandomInitVecModel.enumerate_into
                 (RandomInitVecModel.enumerate_into [] VALUES 0) att OFFSET)
              (nth 0 VALUES []) = Some (Z.of_nat 0)).
    { apply Hget. left. exists 0. split; [lia | auto]. }
    unfold dict_in. cbn [RandomInitVecModel.vocab]. rewrite E.
    destruct (Hrow 0) as [Hitem _]; [lia|].
    rewrite Hitem. cbn [and_then]. do 2 f_equal.
    cbn [RandomInitVecModel.weights]. rewrite tabulate_nth by lia.
    destruct (length VALUES - 1); reflexivity.
  - intros w Hout. unfold RandomInitVecModel.lookup. rewrite Hout.
    split; reflexivity.
Qed.

Lemma X18_witness :
  exists m kv,
    RandomInitVecModel.__init__ [[60; 80; 62]; [60; 85; 62]]%Z 2
      (fun _ _ => 1#2) (fun _ _ => 1#3) 2 [([104; 105], 3)]%Z true
    = Returns (m, kv) /\
    RandomInitVecModel.lookup m [60; 80; 62]%Z true = Returns (Some [0%Q; 0%Q]) /\
    RandomInitVecModel.lookup m [104; 105]%Z true = Returns (Some [1#2; 1#2]).
Proof.
  destruct (X18_lookup_never_raises [[60; 80; 62]; [60; 85; 62]]%Z 2
              (fun _ _ => 1#2) (fun _ _ => 1#3) 2 [([104; 105], 3)]%Z)
    as (m & kv & Hret & _ & Hpad & _).
  - repeat constructor; simpl; intuition discriminate.
  - reflexivity.
  - lia.
  - lia.
  - repeat constructor; simpl; intuition discriminate.
  - exists m, kv. split; [exact Hret|]. split; [apply (Hpad true)|].
    pose proof Hret as Hret'. vm_compute in Hret'. injection Hret' as <- _.
    reflexivity.
Defined.



(** ** Numbers and lines of a word2vec file *)

Lemma format_digits_app fuel n acc :
  format_digits fuel n acc = format_digits fuel n [] ++ acc.
Proof.
  revert n acc. induction fuel as [|fuel IH]; intros n acc;
    cbn [format_digits]; [reflexivity|].
  destruct (n / 10 =? 0); [reflexivity|].
  rewrite IH, (IH _ [_]). now rewrite <- app_assoc.
Qed.

Lemma format_digits_unfold fuel n :
  format_digits (S fuel) n []
  = if n / 10 =? 0 then [(48 + Z.of_nat (n mod 10))%Z]
    else format_digits fuel (n / 10) [] ++ [(48 + Z.of_nat (n mod 10))%Z].
Proof.
  cbn [format_digits]. destruct (n / 10 =? 0); [reflexivity|].
  apply format_digits_app.
Qed.

Lemma mod10_digit n : is_digit (48 + Z.of_nat (n mod 10)) = true.
Proof.
  pose proof (Nat.mod_upper_bound n 10). unfold is_digit.
  apply andb_true_intro. split; apply Z.leb_le; lia.
Qed.

Lemma format_digits_digit fuel n :
  Forall (fun c => is_digit c = true) (format_digits fuel n []).
Proof.
  revert n. induction fuel as [|fuel IH]; intros n.
  - cbn [format_digits]. constructor; [apply mod10_digit | constructor].
  - rewrite format_digits_unfold. destruct (n / 10 =? 0).
    + constructor; [apply mod10_digit | constructor].
    + apply Forall_app. split; [apply IH|].
      constructor; [apply mod10_digit | constructor].
Qed.

Lemma format_digits_nonempty fuel n : format_digits fuel n [] <> [].
Proof.
  destruct fuel; [discriminate|]. rewrite format_digits_unfold.
  destruct (n / 10 =? 0); [discriminate|].
  intros H. apply app_eq_nil in H as [_ H]. discriminate.
Qed.

Local Abbreviation decimal :=
  (fold_left (fun a d => (10 * a + (d - 48))%Z)).

Lemma format_digits_value fuel n :
  n <= fuel -> decimal (format_digits fuel n []) 0%Z = Z.of_nat n.
Proof.
  revert n. induction fuel as [|fuel IH]; intros n H.
  - assert (n = 0) as -> by lia. reflexivity.
  - rewrite format_digits_unfold.
    pose proof (Nat.div_mod_eq n 10) as Hdm.
    destruct (Nat.eqb_spec (n / 10) 0) as [E | E].
    + cbn [fold_left]. lia.
    + rewrite fold_left_app. cbn [fold_left].
      rewrite IH by (assert (n / 10 < n) by (apply Nat.div_lt; lia); lia).
      lia.
Qed.

Lemma int_digits_decimal ds acc b :
  Forall (fun c => is_digit c = true) ds -> (ds <> [] \/ b = true) ->
  int_digits ds acc b = Some (decimal ds acc).
Proof.
  intros Hd. revert acc b. induction Hd as [|c ds Hc Hd IH]; intros acc b Hb.
  - destruct Hb as [Hb | ->]; [contradiction | reflexivity].
  - simpl. rewrite Hc. apply IH. now right.
Qed.

Lemma digit_not_space c : is_digit c = true -> is_space c = false.
Proof.
  unfold is_digit, is_space. intros H. apply andb_prop in H as [H1 H2].
  apply Z.leb_le in H1, H2.
  destruct (Z.eqb_spec c 32), (Z.leb_spec 9 c), (Z.leb_spec c 13);
    simpl; (reflexivity || lia).
Qed.

Lemma int_of_bytes_format n : int_of_bytes (format_nat n) = Returns (Z.of_nat n).
Proof.
  unfold int_of_bytes, format_nat.
  pose proof (format_digits_digit n n) as Hd.
  pose proof (format_digits_nonempty n n) as Hne.
  pose proof (format_digits_value n n (le_n n)) as Hv.
  destruct (format_digits n n []) as [|c r] eqn:E; [contradiction|].
  inversion Hd as [|? ? Hc Hr]; subst.
  assert (H48 : (48 <= c <= 57)%Z).
  { unfold is_digit in Hc. apply andb_prop in Hc as [H1 H2].
    apply Z.leb_le in H1, H2. lia. }
  destruct (Z.eqb_spec c 43); [lia|]. destruct (Z.eqb_spec c 45); [lia|].
  rewrite int_digits_decimal by (assumption || (left; discriminate)).
  now rewrite Hv.
Qed.

Lemma split_ws_run d rest cur :
  Forall (fun c => is_space c = false) d ->
  split_ws (d ++ rest) cur = split_ws rest (cur ++ d).
Proof.
  intros Hd. revert cur. induction Hd as [|c d Hc Hd IH]; intros cur; simpl.
  - now rewrite app_nil_r.
  - rewrite Hc, IH. now rewrite <- app_assoc.
Qed.

Lemma split_ws_header a b :
  Forall (fun c => is_digit c = true) a -> a <> [] ->
  Forall (fun c => is_digit c = true) b -> b <> [] ->
  split_ws (a ++ [32%Z] ++ b ++ [10%Z]) [] = [a; b].
Proof.
  intros Ha Hna Hb Hnb.
  assert (Hs : forall l, Forall (fun c => is_digit c = true) l ->
                         Forall (fun c => is_space c = false) l).
  { intros l. apply Forall_impl. apply digit_not_space. }
  rewrite split_ws_run by auto. cbn [app split_ws].
  change (is_space 32) with true. cbn iota.
  destruct a as [|a0 a']; [contradiction|].
  rewrite split_ws_run by auto. cbn [app split_ws].
  change (is_space 10) with true. cbn iota.
  destruct b as [|b0 b']; [contradiction | reflexivity].
Qed.

Lemma readline_line h rest :
  ~ In 10%Z h ->
  PretrainedEmbeddingsModel.readline (h ++ 10%Z :: rest) = (h ++ [10%Z], rest).
Proof.
  induction h as [|c h IH]; intros Hn; simpl.
  - reflexivity.
  - destruct (Z.eqb_spec c 10) as [->|_]; [exfalso; apply Hn; now left|].
    rewrite IH by (intros H; apply Hn; now right). reflexivity.
Qed.

Lemma digits_no_newline l :
  Forall (fun c => is_digit c = true) l -> ~ In 10%Z l.
Proof.
  intros H Hin. rewrite Forall_forall in H. apply H in Hin. discriminate.
Qed.

Lemma readtospc_loop_word w rest s :
  ~ In 32%Z w ->
  PretrainedEmbeddingsModel.readtospc_loop (w ++ 32%Z :: rest) s
  = Some (s ++ w, rest).
Proof.
  revert s. induction w as [|c w IH]; intros s Hn; simpl.
  - now rewrite app_nil_r.
  - destruct (Z.eqb_spec c 32) as [->|_]; [exfalso; apply Hn; now left|].
    rewrite IH by (intros H; apply Hn; now right).
    now rewrite <- app_assoc.
Qed.

Lemma tobytes_length v : length (tobytes v) = 4 * length v.
Proof.
  unfold tobytes. induction v as [|[[[a b] c] d] v IH]; simpl; [reflexivity|].
  simpl in IH. rewrite IH. lia.
Qed.

Lemma fromstring_tobytes v : fromstring (tobytes v) = Returns v.
Proof.
  unfold tobytes. induction v as [|[[[a b] c] d] v IH]; [reflexivity|].
  cbn [flat_map app fromstring]. rewrite IH. reflexivity.
Qed.

Lemma read_block v rest :
  PretrainedEmbeddingsModel.read (tobytes v ++ rest) (4 * Z.of_nat (length v))
  = Returns (tobytes v, rest).
Proof.
  unfold PretrainedEmbeddingsModel.read.
  destruct (Z.ltb_spec (4 * Z.of_nat (length v)) (-1)); [lia|].
  destruct (Z.ltb_spec (4 * Z.of_nat (length v)) 0); [lia|].
  replace (Z.to_nat (4 * Z.of_nat (length v))) with (length (tobytes v))
    by (rewrite tobytes_length; lia).
  rewrite firstn_app, skipn_app, Nat.sub_diag, firstn_all, skipn_all.
  cbn [firstn skipn]. now rewrite app_nil_r.
Qed.

Lemma dict_set_fresh {V} (d : dict V) k v :
  dict_in d k = false -> dict_set d k v = d ++ [(k, v)].
Proof.
  unfold dict_in. induction d as [|[k' v'] d IH]; simpl; [reflexivity|].
  destruct (word_eq_dec k' k); [discriminate|].
  intros H. now rewrite IH.
Qed.

Lemma dict_in_keys {V} (d : dict V) k :
  dict_in d k = false <-> ~ In k (keys d).
Proof.
  unfold dict_in. rewrite <- dict_get_None.
  destruct (dict_get d k); split; congruence.
Qed.

(** ** Reading back what was written *)

Lemma kept_vocab_stays es st w :
  ~ In w (map fst es) ->
  dict_get (PretrainedEmbeddingsModel.vocab (fold_left kept es st)) w
  = dict_get (PretrainedEmbeddingsModel.vocab st) w.
Proof.
  revert st. induction es as [|[w' v'] es IH]; intros st Hn; [reflexivity|].
  cbn [fold_left]. rewrite IH by (intros H; apply Hn; now right).
  cbn [kept PretrainedEmbeddingsModel.vocab fst].
  apply dict_get_set_ne. intros ->. apply Hn. now left.
Qed.

Lemma kept_fresh st w v w' :
  dict_in (PretrainedEmbeddingsModel.vocab st) w = false ->
  w' <> w -> ~ In w' (keys (PretrainedEmbeddingsModel.vocab st)) ->
  ~ In w' (keys (PretrainedEmbeddingsModel.vocab (kept st (w, v)))).
Proof.
  intros Hin Hne Hfresh. cbn [kept PretrainedEmbeddingsModel.vocab fst].
  rewrite dict_set_fresh by assumption. unfold keys. rewrite map_app.
  intros H. apply in_app_or in H as [H | H]; [now apply Hfresh|].
  simpl in H. destruct H as [H | []]. congruence.
Qed.

Section ReadBack.
Variable dsz : nat.
Local Abbreviation clean_entry := (clean_entry dsz).

(** The entries as [write_word2vec_file] lays them out. *)
Local Abbreviation body :=
  (flat_map (fun wv : word * list float32 =>
               fst wv ++ [32%Z] ++ tobytes (snd wv))).

Lemma read_body es m rest st :
  Forall clean_entry es -> NoDup (map fst es) ->
  (forall w, In w (map fst es) ->
             ~ In w (keys (PretrainedEmbeddingsModel.vocab st))) ->
  PretrainedEmbeddingsModel.read_entries (length es + m) (4 * Z.of_nat dsz) true
                                         (body es ++ rest) st
  = PretrainedEmbeddingsModel.read_entries m (4 * Z.of_nat dsz) true rest
                                           (fold_left kept es st).
Proof.
  intros Hclean. revert st.
  induction Hclean as [|[w v] es Hc Hclean IH];
    intros st Hnd Hfresh; [reflexivity|].
  destruct Hc as (Hsp & Hutf & Hstrip & Hlen).
  cbn [fst snd] in *. cbn [map fst] in Hnd, Hfresh.
  apply NoDup_cons_iff in Hnd as [Hw Hnd'].
  cbn [flat_map length Nat.add PretrainedEmbeddingsModel.read_entries fst snd].
  rewrite <- !app_assoc. cbn [app].
  unfold PretrainedEmbeddingsModel._readtospc.
  rewrite readtospc_loop_word by assumption. cbn [app].
  unfold decode. rewrite Hutf. cbn [and_then]. rewrite Hstrip.
  rewrite <- Hlen, read_block.
  assert (Hin : dict_in (PretrainedEmbeddingsModel.vocab st) w = false)
    by (apply dict_in_keys, Hfresh; now left).
  rewrite Hin. cbn [negb]. rewrite fromstring_tobytes.
  rewrite Hlen. rewrite IH; [reflexivity | assumption |].
  intros w' Hw'.
  apply (kept_fresh st w v w'); [assumption | congruence |].
  apply Hfresh. now right.
Qed.

Lemma kept_fields es st :
  NoDup (map fst es) ->
  (forall w, In w (map fst es) ->
             ~ In w (keys (PretrainedEmbeddingsModel.vocab st))) ->
  PretrainedEmbeddingsModel.word_vectors (fold_left kept es st)
  = PretrainedEmbeddingsModel.word_vectors st ++ map snd es /\
  PretrainedEmbeddingsModel.idx (fold_left kept es st)
  = (PretrainedEmbeddingsModel.idx st + Z.of_nat (length es))%Z /\
  keys (PretrainedEmbeddingsModel.vocab (fold_left kept es st))
  = keys (PretrainedEmbeddingsModel.vocab st) ++ map fst es /\
  forall i, i < length es ->
    dict_get (PretrainedEmbeddingsModel.vocab (fold_left kept es st))
             (nth i (map fst es) [])
    = Some (PretrainedEmbeddingsModel.idx st + Z.of_nat i)%Z.
Proof.
  revert st. induction es as [|[w v] es IH]; intros st Hnd Hfresh.
  - cbn [fold_left map length]. rewrite !app_nil_r.
    repeat split; [lia | intros i Hi; inversion Hi].
  - cbn [map fst] in Hnd, Hfresh. apply NoDup_cons_iff in Hnd as [Hw Hnd'].
    assert (Hin : dict_in (PretrainedEmbeddingsModel.vocab st) w = false)
      by (apply dict_in_keys, Hfresh; now left).
    cbn [fold_left].
    destruct (IH (kept st (w, v)) Hnd') as (Hwv & Hidx & Hkeys & Hget).
    { intros w' Hw'. apply kept_fresh; [assumption | congruence |].
      apply Hfresh. now right. }
    rewrite Hwv, Hidx, Hkeys.
    cbn [kept PretrainedEmbeddingsModel.word_vectors PretrainedEmbeddingsModel.idx
         PretrainedEmbeddingsModel.vocab fst snd] in *.
    rewrite dict_set_fresh by assumption.
    unfold keys. rewrite map_app, <- !app_assoc. cbn [map fst snd app length].
    repeat split; [lia|].
    intros [|i] Hi.
    + cbn [nth]. rewrite kept_vocab_stays by assumption.
      cbn [kept PretrainedEmbeddingsModel.vocab fst].
      rewrite dict_get_set_eq. f_equal. lia.
    + cbn [nth]. rewrite Hget by lia. f_equal. lia.
Qed.

End ReadBack.

Lemma map_fst_combine {A B} (l : list A) (l' : list B) :
  length l = length l' -> map fst (combine l l') = l.
Proof.
  revert l'. induction l as [|x l IH]; intros [|y l'] H; try discriminate;
    [reflexivity|]. simpl. f_equal. apply IH. now injection H.
Qed.

Lemma map_snd_combine {A B} (l : list A) (l' : list B) :
  length l = length l' -> map snd (combine l l') = l'.
Proof.
  revert l'. induction l as [|x l IH]; intros [|y l'] H; try discriminate;
    [reflexivity|]. simpl. f_equal. apply IH. now injection H.
Qed.

Lemma write_list_inv VALUES words vectors file :
  write_word2vec_file VALUES (inr words) vectors = Returns file ->
  vectors <> [] /\ length words = length vectors /\
  file = format_nat (length words) ++ [32%Z]
         ++ format_nat (length (nth 0 vectors [])) ++ [10%Z]
         ++ flat_map (fun wv => fst wv ++ [32%Z] ++ tobytes (snd wv))
                     (combine words vectors).
Proof.
  unfold write_word2vec_file. cbn [and_then fst snd skipn].
  destruct vectors as [|first vectors]; [discriminate|].
  cbn [list_get nth_error and_then nth].
  destruct (Nat.eqb_spec (length words) (length (first :: vectors))) as [E|];
    [|discriminate].
  cbn [negb]. intros [= <-]. split; [discriminate|]. split; [assumption|].
  rewrite <- app_assoc. cbn [app]. rewrite <- app_assoc. reflexivity.
Qed.

Lemma read_header self_vocab vsz dsz rest idx known_vocab keep_unused :
  PretrainedEmbeddingsModel._read_word2vec_file self_vocab
    (format_nat vsz ++ [32%Z] ++ format_nat dsz ++ [10%Z] ++ rest)
    idx known_vocab keep_unused
  = match PretrainedEmbeddingsModel.read_entries vsz (4 * Z.of_nat dsz)
            keep_unused rest
            {| PretrainedEmbeddingsModel.word_vectors := [];
               PretrainedEmbeddingsModel.vocab := self_vocab;
               PretrainedEmbeddingsModel.known_vocab := known_vocab;
               PretrainedEmbeddingsModel.idx := idx |} with
    | None => None
    | Some (Raises e) => Some (Raises e)
    | Some (Returns st) => Some (Returns (st, Z.of_nat dsz))
    end.
Proof.
  unfold PretrainedEmbeddingsModel._read_word2vec_file, format_nat.
  pose proof (format_digits_digit vsz vsz) as Hv.
  pose proof (format_digits_digit dsz dsz) as Hd.
  replace (format_digits vsz vsz [] ++ [32%Z] ++ format_digits dsz dsz []
           ++ [10%Z] ++ rest)
    with ((format_digits vsz vsz [] ++ [32%Z] ++ format_digits dsz dsz [])
          ++ 10%Z :: rest)
    by (now rewrite <- !app_assoc).
  rewrite readline_line.
  - rewrite <- !app_assoc.
    rewrite split_ws_header
      by (assumption || apply format_digits_nonempty).
    cbn [map]. fold (format_nat vsz). fold (format_nat dsz).
    rewrite !int_of_bytes_format. now rewrite Nat2Z.id.
  - intros H. apply in_app_or in H as [H | H];
      [now apply (digits_no_newline _ Hv)|].
    apply in_app_or in H as [[H | []] | H]; [discriminate|].
    now apply (digits_no_newline _ Hd).
Qed.

(** X20. A file written by [write_word2vec_file] from a list of words reads
    back with [_read_word2vec_file]: for distinct words that hold no space,
    are UTF-8 and have no blank or newline at either end, and vectors of one
    width, the reader (starting with an empty vocabulary, keeping unused
    words) returns the same vectors in the same order, the width [dsz], and
    a vocabulary that gives the words, in order, the indices from [idx] on. *)
Theorem X20_word2vec_round_trip :
  forall (VALUES : list word) (words : list word) (vectors : list (list float32))
         (file : list Z) (idx : Z) (known_vocab : option (dict Z)),
    write_word2vec_file VALUES (inr words) vectors = Returns file ->
    NoDup words ->
    (forall w, In w words ->
       ~ In 32%Z w /\ utf8_valid w = true /\ strip w = w) ->
    (forall v, In v vectors -> length v = length (nth 0 vectors [])) ->
    exists st,
      PretrainedEmbeddingsModel._read_word2vec_file [] file idx known_vocab true
      = Some (Returns (st, Z.of_nat (length (nth 0 vectors [])))) /\
      PretrainedEmbeddingsModel.word_vectors st = vectors /\
      keys (PretrainedEmbeddingsModel.vocab st) = words /\
      PretrainedEmbeddingsModel.idx st = (idx + Z.of_nat (length words))%Z /\
      forall i, i < length words ->
        dict_get (PretrainedEmbeddingsModel.vocab st) (nth i words [])
        = Some (idx + Z.of_nat i)%Z.
Proof.
  intros VALUES words vectors file idx known_vocab Hw Hnd Hwords Hvec.
  apply write_list_inv in Hw as (Hne & Hlen & ->).
  set (dsz := length (nth 0 vectors [])) in *.
  set (es := combine words vectors).
  assert (Hfst : map fst es = words) by now apply map_fst_combine.
  assert (Hsnd : map snd es = vectors) by now apply map_snd_combine.
  assert (Hes : length es = length words)
    by (unfold es; rewrite length_combine; lia).
  assert (Hclean : Forall (clean_entry dsz) es).
  { apply Forall_forall. intros [w v] Hin. unfold clean_entry. cbn [fst snd].
    pose proof (in_combine_l _ _ _ _ Hin) as Hw.
    pose proof (in_combine_r _ _ _ _ Hin) as Hv.
    destruct (Hwords w Hw) as (H1 & H2 & H3). auto. }
  set (st0 := {| PretrainedEmbeddingsModel.word_vectors := [];
                 PretrainedEmbeddingsModel.vocab := [];
                 PretrainedEmbeddingsModel.known_vocab := known_vocab;
                 PretrainedEmbeddingsModel.idx := idx |}).
  exists (fold_left kept es st0).
  destruct (kept_fields es st0) as (Hwv & Hidx & Hkeys & Hget);
    [now rewrite Hfst | intros w _ [] |].
  split; [|split; [|split; [|split]]].
  - rewrite read_header. fold st0.
    rewrite <- (app_nil_r (flat_map _ es)).
    replace (length words) with (length es + 0) by lia.
    match goal with
    | |- match ?X with _ => _ end = _ =>
        replace X with (Some (Returns (fold_left kept es st0)))
    end; [reflexivity|].
    symmetry. apply (read_body dsz es 0 [] st0);
      [assumption | now rewrite Hfst | intros w _ []].
  - now rewrite Hwv, Hsnd.
  - now rewrite Hkeys, Hfst.
  - now rewrite Hidx, Hes.
  - intros i Hi. rewrite <- Hfst. apply Hget. lia.
Qed.

Lemma X20_witness :
  exists st,
    PretrainedEmbeddingsModel._read_word2vec_file []
      [50; 32; 49; 10; 104; 105; 32; 1; 2; 3; 4; 121; 111; 32; 5; 6; 7; 8]%Z
      4 None true
    = Some (Returns (st, 1%Z)) /\
    PretrainedEmbeddingsModel.word_vectors st = [[(1, 2, 3, 4)]; [(5, 6, 7, 8)]]%Z /\
    keys (PretrainedEmbeddingsModel.vocab st) = [[104; 105]; [121; 111]]%Z.
Proof.
  destruct (X20_word2vec_round_trip [] [[104; 105]; [121; 111]]%Z
              [[(1, 2, 3, 4)]; [(5, 6, 7, 8)]]%Z
              [50; 32; 49; 10; 104; 105; 32; 1; 2; 3; 4; 121; 111; 32; 5; 6; 7; 8]%Z
              4 None eq_refl)
    as (st & Hread & Hwv & Hkeys & _).
  - repeat constructor; simpl; intuition discriminate.
  - intros w [<- | [<- | []]]; (split; [|split; reflexivity]);
      simpl; intuition discriminate.
  - intros v [<- | [<- | []]]; reflexivity.
  - exists st. auto.
Defined.

(** X21. A file that ends, at the end of an entry, before the count in its
    header is reached is never read to the end: [_readtospc] waits for a
    space that cannot come, so [_read_word2vec_file] does not return. *)
Theorem X21_truncated_file_hangs :
  forall (es : list (word * list float32)) (vsz dsz : nat) (idx : Z)
         (known_vocab : option (dict Z)),
    Forall (clean_entry dsz) es -> NoDup (map fst es) ->
    length es < vsz ->
    PretrainedEmbeddingsModel._read_word2vec_file []
      (format_nat vsz ++ [32%Z] ++ format_nat dsz ++ [10%Z]
       ++ flat_map (fun wv => fst wv ++ [32%Z] ++ tobytes (snd wv)) es)
      idx known_vocab true
    = None.
Proof.
  intros es vsz dsz idx known_vocab Hclean Hnd Hlt.
  rewrite read_header.
  rewrite <- (app_nil_r (flat_map _ es)).
  replace vsz with (length es + S (vsz - S (length es))) by lia.
  match goal with
  | |- match ?X with _ => _ end = _ => replace X with (@None (outcome PretrainedEmbeddingsModel.reading))
  end; [reflexivity|].
  symmetry. etransitivity.
  - apply (read_body dsz es); [assumption | assumption | intros w _ []].
  - reflexivity.
Qed.

Lemma X21_witness :
  PretrainedEmbeddingsModel._read_word2vec_file []
    [50; 32; 49; 10; 104; 105; 32; 1; 2; 3; 4]%Z 4 None true = None.
Proof.
  apply (X21_truncated_file_hangs [([104; 105], [(1, 2, 3, 4)])]%Z 2 1 4 None).
  - repeat constructor; simpl; intuition discriminate.
  - repeat constructor; simpl; intuition.
  - simpl; lia.
Defined.

(** ** Reading with a known vocabulary *)

Lemma kept_known_vocab st wv :
  PretrainedEmbeddingsModel.known_vocab st <> None ->
  PretrainedEmbeddingsModel.known_vocab (kept st wv) <> None.
Proof.
  cbn [kept PretrainedEmbeddingsModel.known_vocab].
  destruct (PretrainedEmbeddingsModel.known_vocab st) as [[|e kv]|];
    [discriminate | | congruence].
  intros _. now destruct (dict_in (e :: kv) (fst wv)).
Qed.

Lemma absorbed_known_vocab keep_unused st wv :
  PretrainedEmbeddingsModel.known_vocab st <> None ->
  PretrainedEmbeddingsModel.known_vocab (absorbed keep_unused st wv) <> None.
Proof.
  intros H. unfold absorbed.
  destruct (dict_in _ _); [assumption|].
  destruct (_ && _); [assumption | now apply kept_known_vocab].
Qed.

Lemma read_one dsz keep_unused w v n rest st :
  clean_entry dsz (w, v) ->
  keep_unused = true \/ PretrainedEmbeddingsModel.known_vocab st <> None ->
  PretrainedEmbeddingsModel.read_entries (S n) (4 * Z.of_nat dsz) keep_unused
    (w ++ 32%Z :: tobytes v ++ rest) st
  = PretrainedEmbeddingsModel.read_entries n (4 * Z.of_nat dsz) keep_unused rest
      (absorbed keep_unused st (w, v)).
Proof.
  intros (Hsp & Hutf & Hstrip & Hlen) Hkv. cbn [fst snd] in *.
  cbn [PretrainedEmbeddingsModel.read_entries].
  unfold PretrainedEmbeddingsModel._readtospc.
  rewrite readtospc_loop_word by assumption. cbn [app].
  unfold decode. rewrite Hutf. cbn [and_then]. rewrite Hstrip.
  rewrite <- Hlen, read_block. rewrite Hlen.
  unfold absorbed. cbn [fst snd].
  destruct (dict_in (PretrainedEmbeddingsModel.vocab st) w); [reflexivity|].
  destruct keep_unused; cbn [negb andb].
  - rewrite fromstring_tobytes. reflexivity.
  - destruct Hkv as [Hkv | Hkv]; [discriminate|].
    destruct (PretrainedEmbeddingsModel.known_vocab st) as [kv|] eqn:Ekv;
      [|contradiction].
    unfold kept. cbn [fst snd]. rewrite Ekv.
    destruct (dict_in kv w); cbn [negb]; [|reflexivity].
    rewrite fromstring_tobytes. reflexivity.
Qed.

Lemma read_body_any dsz keep_unused es m rest st :
  Forall (clean_entry dsz) es ->
  keep_unused = true \/ PretrainedEmbeddingsModel.known_vocab st <> None ->
  PretrainedEmbeddingsModel.read_entries (length es + m) (4 * Z.of_nat dsz)
                                         keep_unused
    (flat_map (fun wv : word * list float32 =>
                 fst wv ++ [32%Z] ++ tobytes (snd wv)) es ++ rest) st
  = PretrainedEmbeddingsModel.read_entries m (4 * Z.of_nat dsz) keep_unused rest
      (fold_left (absorbed keep_unused) es st).
Proof.
  intros Hclean. revert st.
  induction Hclean as [|[w v] es Hc Hclean IH]; intros st Hkv; [reflexivity|].
  cbn [flat_map length Nat.add fst snd fold_left].
  rewrite <- !app_assoc. cbn [app].
  rewrite (read_one dsz) by assumption.
  apply IH. destruct Hkv as [-> | Hkv]; [now left | right].
  now apply absorbed_known_vocab.
Qed.

Lemma dict_set_keys {V} (d : dict V) k v :
  dict_in d k = true -> keys (dict_set d k v) = keys d.
Proof.
  unfold dict_in. induction d as [|[k' v'] d IH]; simpl; [discriminate|].
  destruct (word_eq_dec k' k) as [->|]; simpl; [reflexivity|].
  intros H. f_equal. now apply IH.
Qed.

Lemma dict_in_keys_eq {V W} (d : dict V) (d' : dict W) k :
  keys d = keys d' -> dict_in d k = dict_in d' k.
Proof.
  unfold dict_in. revert d'.
  induction d as [|[k1 v1] d IH]; intros [|[k2 v2] d'] H; try discriminate;
    [reflexivity|].
  simpl in *. injection H as -> H.
  destruct (word_eq_dec k2 k); [reflexivity | now apply IH].
Qed.

(** The counts after the reader kept [ws]: those it holds are set to zero. *)
Lemma kept_counts es st kv :
  PretrainedEmbeddingsModel.known_vocab st = Some kv ->
  exists kv',
    PretrainedEmbeddingsModel.known_vocab (fold_left kept es st) = Some kv' /\
    keys kv' = keys kv /\
    forall w, dict_get kv' w
              = if in_dec word_eq_dec w (map fst es)
                then (if dict_in kv w then Some 0%Z else None)
                else dict_get kv w.
Proof.
  revert st kv. induction es as [|[w v] es IH]; intros st kv Hkv.
  - exists kv. cbn [fold_left map]. split; [assumption|]. split; [reflexivity|].
    intros w. now destruct (in_dec word_eq_dec w []).
  - cbn [fold_left].
    assert (Hstep : exists kv1,
               PretrainedEmbeddingsModel.known_vocab (kept st (w, v)) = Some kv1 /\
               keys kv1 = keys kv /\
               forall w', dict_get kv1 w'
                          = if word_eq_dec w w'
                            then (if dict_in kv w' then Some 0%Z else None)
                            else dict_get kv w').
    { cbn [kept PretrainedEmbeddingsModel.known_vocab fst]. rewrite Hkv.
      destruct kv as [|e kv].
      - exists []. repeat split. intros w'. now destruct (word_eq_dec w w').
      - destruct (dict_in (e :: kv) w) eqn:Ein.
        + exists (dict_set (e :: kv) w 0%Z).
          split; [reflexivity|]. split; [now apply dict_set_keys|].
          intros w'. destruct (word_eq_dec w w') as [<-|Hne].
          * now rewrite dict_get_set_eq, Ein.
          * now apply dict_get_set_ne.
        + exists (e :: kv). repeat split.
          intros w'. destruct (word_eq_dec w w') as [<-|Hne]; [|reflexivity].
          rewrite Ein. unfold dict_in in Ein.
          now destruct (dict_get (e :: kv) w). }
    destruct Hstep as (kv1 & Hkv1 & Hkeys1 & Hget1).
    destruct (IH _ _ Hkv1) as (kv' & Hkv' & Hkeys' & Hget').
    exists kv'. split; [assumption|]. split; [congruence|].
    intros w'. rewrite Hget', Hget1.
    rewrite (dict_in_keys_eq kv1 kv w' Hkeys1).
    cbn [map fst].
    destruct (in_dec word_eq_dec w' (map fst es)) as [Hin | Hn];
      destruct (in_dec word_eq_dec w' (w :: map fst es)) as [Hin' | Hn'];
      try reflexivity.
    + exfalso. apply Hn'. now right.
    + destruct (word_eq_dec w w') as [<-|Hne]; [reflexivity|].
      destruct Hin' as [-> | Hin']; contradiction.
    + destruct (word_eq_dec w w') as [<-|Hne]; [|reflexivity].
      exfalso. apply Hn'. now left.
Qed.

Lemma kept_keeps_keys es st kv :
  PretrainedEmbeddingsModel.known_vocab st = Some kv ->
  exists kv',
    PretrainedEmbeddingsModel.known_vocab (kept st es) = Some kv' /\
    keys kv' = keys kv.
Proof.
  intros H. destruct (kept_counts [es] st kv H) as (kv' & Hkv' & Hkeys & _).
  exists kv'. auto.
Qed.

(** With [keep_unused] off, reading distinct words into an empty vocabulary
    is keeping the entries whose word [known_vocab] holds. *)
Lemma absorbed_filter es st kv :
  PretrainedEmbeddingsModel.known_vocab st = Some kv ->
  NoDup (map fst es) ->
  (forall w, In w (map fst es) ->
             ~ In w (keys (PretrainedEmbeddingsModel.vocab st))) ->
  fold_left (absorbed false) es st
  = fold_left kept (filter (fun wv => dict_in kv (fst wv)) es) st.
Proof.
  revert st kv. induction es as [|[w v] es IH]; intros st kv Hkv Hnd Hfresh;
    [reflexivity|].
  cbn [map fst] in Hnd, Hfresh. apply NoDup_cons_iff in Hnd as [Hw Hnd'].
  assert (Hin : dict_in (PretrainedEmbeddingsModel.vocab st) w = false)
    by (apply dict_in_keys, Hfresh; now left).
  cbn [fold_left filter fst]. unfold absorbed at 2. cbn [fst].
  rewrite Hin, Hkv. cbn [negb andb].
  destruct (dict_in kv w) eqn:Ekv; cbn [negb fold_left].
  - destruct (kept_keeps_keys (w, v) st kv Hkv) as (kv1 & Hkv1 & Hkeys1).
    rewrite (IH _ kv1 Hkv1 Hnd').
    + f_equal. apply filter_ext. intros [w' v']. cbn [fst].
      now apply dict_in_keys_eq.
    + intros w' Hw'. apply kept_fresh; [assumption | congruence |].
      apply Hfresh. now right.
  - apply IH; [assumption | assumption |].
    intros w' Hw'. apply Hfresh. now right.
Qed.

Lemma map_fst_filter {A B} (p : A -> bool) (l : list (A * B)) :
  map fst (filter (fun x => p (fst x)) l) = filter p (map fst l).
Proof.
  induction l as [|[a b] l IH]; simpl; [reflexivity|].
  destruct (p a); simpl; now rewrite IH.
Qed.

Lemma NoDup_filter {A} (p : A -> bool) (l : list A) :
  NoDup l -> NoDup (filter p l).
Proof.
  induction 1 as [|x l Hx Hnd IH]; simpl; [constructor|].
  destruct (p x); [|assumption]. constructor; [|assumption].
  intros H. apply filter_In in H as [H _]. contradiction.
Qed.

(** X22. With [keep_unused] off, the reader keeps exactly the entries whose
    word [known_vocab] holds, in file order: they get consecutive indices
    from [idx] on and their vectors are returned, the other entries leave no
    trace; in [known_vocab] the count of every kept word is set to zero and
    nothing else changes. *)
Theorem X22_known_vocabulary_filters :
  forall (VALUES : list word) (words : list word) (vectors : list (list float32))
         (file : list Z) (idx : Z) (known_vocab : dict Z),
    write_word2vec_file VALUES (inr words) vectors = Returns file ->
    NoDup words ->
    (forall w, In w words ->
       ~ In 32%Z w /\ utf8_valid w = true /\ strip w = w) ->
    (forall v, In v vectors -> length v = length (nth 0 vectors [])) ->
    exists st kv',
      PretrainedEmbeddingsModel._read_word2vec_file [] file idx
        (Some known_vocab) false
      = Some (Returns (st, Z.of_nat (length (nth 0 vectors [])))) /\
      keys (PretrainedEmbeddingsModel.vocab st)
      = filter (dict_in known_vocab) words /\
      PretrainedEmbeddingsModel.word_vectors st
      = map snd (filter (fun wv => dict_in known_vocab (fst wv))
                        (combine words vectors)) /\
      (forall i, i < length (filter (dict_in known_vocab) words) ->
         dict_get (PretrainedEmbeddingsModel.vocab st)
                  (nth i (filter (dict_in known_vocab) words) [])
         = Some (idx + Z.of_nat i)%Z) /\
      PretrainedEmbeddingsModel.idx st
      = (idx + Z.of_nat (length (filter (dict_in known_vocab) words)))%Z /\
      PretrainedEmbeddingsModel.known_vocab st = Some kv' /\
      keys kv' = keys known_vocab /\
      (forall w, In w words -> dict_in known_vocab w = true ->
                 dict_get kv' w = Some 0%Z) /\
      (forall w, ~ In w words -> dict_get kv' w = dict_get known_vocab w).
Proof.
  intros VALUES words vectors file idx kv Hw Hnd Hwords Hvec.
  apply write_list_inv in Hw as (Hne & Hlen & ->).
  set (dsz := length (nth 0 vectors [])) in *.
  set (es := combine words vectors).
  assert (Hfst : map fst es = words) by now apply map_fst_combine.
  assert (Hes : length es = length words)
    by (unfold es; rewrite length_combine; lia).
  assert (Hclean : Forall (clean_entry dsz) es).
  { apply Forall_forall. intros [w v] Hin. unfold clean_entry. cbn [fst snd].
    pose proof (in_combine_l _ _ _ _ Hin) as Hw.
    pose proof (in_combine_r _ _ _ _ Hin) as Hv.
    destruct (Hwords w Hw) as (H1 & H2 & H3). auto. }
  set (st0 := {| PretrainedEmbeddingsModel.word_vectors := [];
                 PretrainedEmbeddingsModel.vocab := [];
                 PretrainedEmbeddingsModel.known_vocab := Some kv;
                 PretrainedEmbeddingsModel.idx := idx |}).
  set (ks := filter (fun wv => dict_in kv (fst wv)) es).
  assert (Hks : map fst ks = filter (dict_in kv) words)
    by (unfold ks; now rewrite map_fst_filter, Hfst).
  assert (Hksnd : NoDup (map fst ks))
    by (rewrite Hks; now apply NoDup_filter).
  destruct (kept_fields ks st0 Hksnd) as (Hwv & Hidx & Hkeys & Hget);
    [intros w _ []|].
  destruct (kept_counts ks st0 kv eq_refl) as (kv' & Hkv' & Hkeys' & Hget').
  exists (fold_left kept ks st0), kv'.
  split; [|repeat split].
  - rewrite read_header. fold st0.
    replace (length words) with (length es + 0) by lia.
    match goal with
    | |- match ?X with _ => _ end = _ =>
        replace X with (Some (Returns (fold_left kept ks st0)))
    end; [reflexivity|].
    assert (Haf : fold_left (absorbed false) es st0 = fold_left kept ks st0)
      by (apply absorbed_filter;
          [reflexivity | now rewrite Hfst | intros w _ []]).
    symmetry. rewrite <- Haf.
    rewrite <- (app_nil_r (flat_map _ es)).
    apply (read_body_any dsz false es 0 [] st0); [assumption|].
    right. discriminate.
  - now rewrite Hkeys, Hks.
  - now rewrite Hwv.
  - intros i Hi. rewrite <- Hks. apply Hget.
    rewrite <- (length_map fst), Hks. exact Hi.
  - rewrite Hidx. cbn [PretrainedEmbeddingsModel.idx st0].
    now rewrite <- (length_map fst ks), Hks.
  - exact Hkv'.
  - exact Hkeys'.
  - intros w Hin Hkv. rewrite Hget'.
    destruct (in_dec word_eq_dec w (map fst ks)) as [_ | Hn];
      [now rewrite Hkv|].
    exfalso. apply Hn. rewrite Hks. apply filter_In. now split.
  - intros w Hn. rewrite Hget'.
    destruct (in_dec word_eq_dec w (map fst ks)) as [Hin | _]; [|reflexivity].
    exfalso. apply Hn. rewrite Hks in Hin. now apply filter_In in Hin as [Hin _].
Qed.

Lemma X22_witness :
  exists st kv',
    PretrainedEmbeddingsModel._read_word2vec_file []
      [50; 32; 49; 10; 104; 105; 32; 1; 2; 3; 4; 121; 111; 32; 5; 6; 7; 8]%Z
      4 (Some [([121; 111], 7)]%Z) false
    = Some (Returns (st, 1%Z)) /\
    keys (PretrainedEmbeddingsModel.vocab st) = [[121; 111]]%Z /\
    PretrainedEmbeddingsModel.word_vectors st = [[(5, 6, 7, 8)]]%Z /\
    PretrainedEmbeddingsModel.known_vocab st = Some kv' /\
    dict_get kv' [121; 111]%Z = Some 0%Z.
Proof.
  destruct (X22_known_vocabulary_filters [] [[104; 105]; [121; 111]]%Z
              [[(1, 2, 3, 4)]; [(5, 6, 7, 8)]]%Z
              [50; 32; 49; 10; 104; 105; 32; 1; 2; 3; 4; 121; 111; 32; 5; 6; 7; 8]%Z
              4 [([121; 111], 7)]%Z eq_refl)
    as (st & kv' & Hread & Hkeys & Hwv & _ & _ & Hkv & _ & Hzero & _).
  - repeat constructor; simpl; intuition discriminate.
  - intros w [<- | [<- | []]]; (split; [|split; reflexivity]);
      simpl; intuition discriminate.
  - intros v [<- | [<- | []]]; reflexivity.
  - exists st, kv'. split; [exact Hread|]. split; [exact Hkeys|].
    split; [exact Hwv|]. split; [exact Hkv|].
    apply Hzero; [simpl; auto | reflexivity].
Defined.

(** ** Writing from a dictionary *)

Lemma dict_pop_absent {V} (d : dict V) k :
  dict_in d k = false -> dict_pop d k = d.
Proof.
  unfold dict_in. induction d as [|[k' v'] d IH]; simpl; [reflexivity|].
  destruct (word_eq_dec k' k); [discriminate|].
  intros H. now rewrite IH.
Qed.

Lemma dict_pop_length {V} (d : dict V) k :
  dict_in d k = true -> S (length (dict_pop d k)) = length d.
Proof.
  unfold dict_in. induction d as [|[k' v'] d IH]; simpl; [discriminate|].
  destruct (word_eq_dec k' k); [reflexivity|].
  intros H. simpl. now rewrite IH.
Qed.

Lemma dict_in_pop_ne {V} (d : dict V) k k' :
  k <> k' -> dict_in (dict_pop d k) k' = dict_in d k'.
Proof.
  intros Hne. unfold dict_in. induction d as [|[k0 v0] d IH]; simpl;
    [reflexivity|].
  destruct (word_eq_dec k0 k) as [->|Hk]; simpl.
  - destruct (word_eq_dec k k'); [contradiction | reflexivity].
  - destruct (word_eq_dec k0 k'); [reflexivity | assumption].
Qed.

(** The loop that drops the special names and counts the ones it found. *)
Lemma prune_fold (names : list word) (d : dict Z) (o : nat) :
  NoDup names ->
  fold_left (fun co v => if dict_in (fst co) v
                         then (dict_pop (fst co) v, snd co + 1) else co)
            names (d, o)
  = (fold_left dict_pop names d, o + length (filter (dict_in d) names)) /\
  length (fold_left dict_pop names d) + length (filter (dict_in d) names)
  = length d.
Proof.
  intros Hnd. revert d o. induction Hnd as [|v names Hv Hnd IH]; intros d o.
  - simpl. split; [f_equal; lia | lia].
  - cbn [fold_left filter fst snd].
    assert (Hsame : filter (dict_in (dict_pop d v)) names = filter (dict_in d) names).
    { apply filter_ext_in. intros w Hw. apply dict_in_pop_ne. congruence. }
    destruct (dict_in d v) eqn:E.
    + destruct (IH (dict_pop d v) (o + 1)) as [H1 H2].
      rewrite H1, Hsame in *. cbn [length].
      pose proof (dict_pop_length d v E).
      split; [f_equal; lia | lia].
    + rewrite (dict_pop_absent d v E). apply IH.
Qed.

Lemma list_assign_nth {A} (l l' : list A) i v d j :
  list_assign l i v = Returns l' ->
  nth j l' d = if j =? i then v else nth j l d.
Proof.
  intros E.
  assert (Hl' : l' = firstn i l ++ v :: skipn (S i) l /\ i < length l).
  { unfold list_assign in E.
    destruct (Nat.ltb_spec i (length l)) as [Hi|]; [|discriminate].
    injection E as <-. split; [reflexivity | assumption]. }
  destruct Hl' as [-> Hi]. clear E.
  assert (Hf : length (firstn i l) = i) by (rewrite length_firstn; lia).
  destruct (Nat.eqb_spec j i) as [->|Hne].
  - rewrite app_nth2, Hf, Nat.sub_diag by lia. reflexivity.
  - destruct (Nat.lt_ge_cases j i) as [Hlt | Hge].
    + rewrite app_nth1 by lia. rewrite nth_firstn.
      destruct (Nat.ltb_spec j i); [reflexivity | lia].
    + rewrite app_nth2, Hf by lia.
      replace (j - i) with (S (j - S i)) by lia. cbn [nth].
      rewrite nth_skipn. f_equal. lia.
Qed.

Lemma setitem_in_range {A} (l : list A) (i : Z) v :
  (0 <= i < Z.of_nat (length l))%Z ->
  setitem l i v = list_assign l (Z.to_nat i) v.
Proof.
  intros H. unfold setitem.
  destruct (Z.leb_spec 0 i); [|lia].
  destruct (Z.ltb_spec i (Z.of_nat (length l))); [|lia]. reflexivity.
Qed.

(** [for word, idx in items: vocab_list[idx - offset] = word] when the
    indices differ and stay inside the list. *)
Lemma assign_fold (offset : nat) (items : dict Z) (vl : list word) :
  (forall w i, In (w, i) items ->
     (Z.of_nat offset <= i < Z.of_nat (offset + length vl))%Z) ->
  NoDup (map snd items) ->
  exists vl',
    fold_left (fun vl wi => vl <~ vl ;; setitem vl (snd wi - Z.of_nat offset) (fst wi))
              items (Returns vl) = Returns vl' /\
    length vl' = length vl /\
    forall w i, In (w, i) items -> nth (Z.to_nat (i - Z.of_nat offset)) vl' [] = w.
Proof.
  revert vl. induction items as [|[w i] items IH]; intros vl Hrange Hnd.
  - exists vl. repeat split. intros w i [].
  - cbn [map snd] in Hnd. apply NoDup_cons_iff in Hnd as [Hi Hnd].
    cbn [fold_left and_then fst snd].
    assert (Hr : (Z.of_nat offset <= i < Z.of_nat (offset + length vl))%Z)
      by (apply (Hrange w); now left).
    rewrite setitem_in_range by lia.
    destruct (list_assign vl (Z.to_nat (i - Z.of_nat offset)) w) as [vl1|e] eqn:E.
    2:{ unfold list_assign in E.
        destruct (Nat.ltb_spec (Z.to_nat (i - Z.of_nat offset)) (length vl));
          [discriminate | lia]. }
    pose proof (list_assign_length _ _ _ _ E) as Hlen1.
    destruct (IH vl1) as (vl' & Hfold & Hlen & Hget).
    { intros w' i' Hin. rewrite Hlen1. apply (Hrange w'). now right. }
    { assumption. }
    exists vl'. split; [exact Hfold|]. split; [congruence|].
    intros w' i' [[= -> ->] | Hin]; [|now apply Hget].
    (* no later item writes the slot of the first one *)
    assert (Hstay : forall (its : dict Z) (l : list word),
               ~ In i' (map snd its) ->
               (forall w i, In (w, i) its ->
                  (Z.of_nat offset <= i < Z.of_nat (offset + length l))%Z) ->
               forall l',
                 fold_left (fun vl wi => vl <~ vl ;;
                                         setitem vl (snd wi - Z.of_nat offset) (fst wi))
                           its (Returns l) = Returns l' ->
                 nth (Z.to_nat (i' - Z.of_nat offset)) l' []
                 = nth (Z.to_nat (i' - Z.of_nat offset)) l []).
    { clear - Hr. induction its as [|[w2 i2] its IHs]; intros l Hn Hrg l' Hf.
      - now injection Hf as <-.
      - cbn [fold_left and_then fst snd] in Hf.
        assert (Hr2 : (Z.of_nat offset <= i2 < Z.of_nat (offset + length l))%Z)
          by (apply (Hrg w2); now left).
        rewrite setitem_in_range in Hf by lia.
        destruct (list_assign l (Z.to_nat (i2 - Z.of_nat offset)) w2) as [l1|e] eqn:E.
        2:{ exfalso. clear - Hf. induction its as [|x its IH]; [discriminate|].
            now apply IH. }
        rewrite (IHs l1) with (l' := l').
        + rewrite (list_assign_nth _ _ _ _ [] _ E).
          destruct (Nat.eqb_spec (Z.to_nat (i' - Z.of_nat offset))
                                 (Z.to_nat (i2 - Z.of_nat offset))) as [Heq|];
            [|reflexivity].
          exfalso. apply Hn. left. cbn [snd]. lia.
        + intros H. apply Hn. now right.
        + intros w3 i3 Hin. rewrite (list_assign_length _ _ _ _ E).
          apply (Hrg w3). now right.
        + exact Hf. }
    rewrite (Hstay items vl1 Hi) with (l' := vl');
      [| intros w3 i3 Hin; rewrite Hlen1; apply (Hrange w3); now right
       | exact Hfold].
    rewrite (list_assign_nth _ _ _ _ [] _ E). now rewrite Nat.eqb_refl.
Qed.

Lemma NoDup_values (d : dict Z) :
  NoDup (keys d) ->
  (forall w w' i, In (w, i) d -> In (w', i) d -> w = w') ->
  NoDup (map snd d).
Proof.
  induction d as [|[w i] d IH]; intros Hnd Hinj; [constructor|].
  cbn [keys map fst] in Hnd. apply NoDup_cons_iff in Hnd as [Hw Hnd].
  cbn [map snd]. constructor.
  - intros Hin. apply in_map_iff in Hin as ([w' i'] & Hi & Hin).
    cbn [snd] in Hi. subst i'.
    assert (w = w') by (apply (Hinj w w' i); [now left | now right]).
    subst w'. apply Hw. unfold keys. apply in_map_iff. now exists (w, i).
  - apply IH; [assumption|].
    intros w1 w2 i0 H1 H2. apply (Hinj w1 w2 i0); now right.
Qed.

(** X23. Writing from a dictionary: when the words that are not special
    names carry distinct indices that fill the range above the [offset]
    special names found, the file announces that many words and lists them in
    index order, the word with index [i] in slot [i - offset], next to the
    vectors [word_vectors[offset:]] : the special names are pruned and the
    indices shifted down. *)
Theorem X23_dictionary_written_in_index_order :
  forall (VALUES : list word) (vocab : dict Z) (word_vectors : list (list float32)),
    NoDup VALUES -> NoDup (keys vocab) ->
    (forall w i, dict_get vocab w = Some i -> ~ In w VALUES ->
       (Z.of_nat (length (filter (dict_in vocab) VALUES)) <= i
        < Z.of_nat (length vocab))%Z) ->
    (forall w w' i, dict_get vocab w = Some i -> dict_get vocab w' = Some i ->
       ~ In w VALUES -> ~ In w' VALUES -> w = w') ->
    length word_vectors = length vocab -> word_vectors <> [] ->
    exists vocab_list,
      length vocab_list
      = length vocab - length (filter (dict_in vocab) VALUES) /\
      (forall w i, dict_get vocab w = Some i -> ~ In w VALUES ->
         nth (Z.to_nat (i - Z.of_nat (length (filter (dict_in vocab) VALUES))))
             vocab_list [] = w) /\
      write_word2vec_file VALUES (inl vocab) word_vectors
      = Returns (format_nat (length vocab_list) ++ [32%Z]
                 ++ format_nat (length (nth 0 word_vectors [])) ++ [10%Z]
                 ++ flat_map (fun wv => fst wv ++ [32%Z] ++ tobytes (snd wv))
                      (combine vocab_list
                         (skipn (length (filter (dict_in vocab) VALUES))
                                word_vectors))).
Proof.
  intros VALUES vocab word_vectors HV Hnd Hrange Hinj Hlen Hne.
  set (offset := length (filter (dict_in vocab) VALUES)) in *.
  set (others := fold_left dict_pop VALUES vocab).
  destruct (prune_fold VALUES vocab 0 HV) as [Hprune Hcount].
  fold others in Hprune, Hcount. fold offset in Hprune, Hcount.
  assert (Hothers : forall w i, In (w, i) others <->
                                dict_get vocab w = Some i /\ ~ In w VALUES).
  { intros w i. unfold others.
    rewrite (proj1 (pop_all_In VALUES vocab (w, i) Hnd)). cbn [fst].
    split; intros [H1 H2]; (split; [|assumption]);
      [now apply In_dict_get | now apply dict_get_In]. }
  assert (Hnd' : NoDup (keys others))
    by apply (proj2 (pop_all_In VALUES vocab ([], 0%Z) Hnd)).
  destruct (assign_fold offset others (repeat [48%Z] (length others)))
    as (vl & Hfold & Hvl & Hget).
  { intros w i Hin. apply Hothers in Hin as [Hg Hn].
    rewrite repeat_length. specialize (Hrange w i Hg Hn). lia. }
  { apply NoDup_values; [assumption|].
    intros w w' i H1 H2. apply Hothers in H1 as [H1 N1], H2 as [H2 N2].
    now apply (Hinj w w' i). }
  rewrite repeat_length in Hvl.
  exists vl. split; [change (length vl = length vocab - offset); lia|]. split.
  - intros w i Hg Hn. apply Hget. now apply Hothers.
  - unfold write_word2vec_file. rewrite Hprune. cbn [fst snd Nat.add].
    fold others.
    match goal with
    | |- context [fold_left ?f others ?init] =>
        replace (fold_left f others init) with (Returns vl)
          by (symmetry; exact Hfold)
    end.
    cbn [and_then fst snd].
    destruct word_vectors as [|first rest]; [contradiction|].
    cbn [list_get nth_error and_then nth].
    rewrite length_skipn.
    destruct (Nat.eqb_spec (length vl) (length (first :: rest) - offset)) as [_|Hbad];
      [|lia].
    cbn [negb]. f_equal.
    rewrite <- app_assoc. cbn [app]. rewrite <- app_assoc. reflexivity.
Qed.

Lemma X23_witness :
  exists vocab_list : list word,
    length vocab_list = 2 /\
    nth 0 vocab_list [] = [104; 105]%Z /\ nth 1 vocab_list [] = [121; 111]%Z /\
    exists file,
      write_word2vec_file [[60; 80; 62]]%Z
        (inl [([60; 80; 62], 0); ([121; 111], 2); ([104; 105], 1)]%Z)
        [[(0, 0, 0, 0)]; [(1, 2, 3, 4)]; [(5, 6, 7, 8)]]%Z
      = Returns file.
Proof.
  destruct (X23_dictionary_written_in_index_order [[60; 80; 62]]%Z
              [([60; 80; 62], 0); ([121; 111], 2); ([104; 105], 1)]%Z
              [[(0, 0, 0, 0)]; [(1, 2, 3, 4)]; [(5, 6, 7, 8)]]%Z)
    as (vl & Hlen & Hget & Hw).
  - repeat constructor; simpl; intuition.
  - repeat constructor; simpl; intuition discriminate.
  - intros w i Hg Hn. apply dict_get_In in Hg.
    destruct Hg as [[= <- <-] | [[= <- <-] | [[= <- <-] | []]]].
    + exfalso. apply Hn. now left.
    + vm_compute. split; [discriminate | reflexivity].
    + vm_compute. split; [discriminate | reflexivity].
  - intros w w' i Hg Hg' Hn Hn'. apply dict_get_In in Hg, Hg'.
    destruct Hg as [[= <- <-] | [[= <- <-] | [[= <- <-] | []]]];
      destruct Hg' as [E | [E | [E | []]]];
      try discriminate E; injection E as <-; reflexivity.
  - reflexivity.
  - discriminate.
  - exists vl. split; [exact Hlen|]. split; [|split].
    + apply (Hget [104; 105]%Z 1%Z); [reflexivity|].
      simpl. intuition discriminate.
    + apply (Hget [121; 111]%Z 2%Z); [reflexivity|].
      simpl. intuition discriminate.
    + eexists. exact Hw.
Defined.

(** ** Axis permutations *)

Lemma nth_flat3 n m p (f : nat -> nat -> nat -> Q) a b c :
  a < n -> b < m -> c < p ->
  nth (a * m * p + b * p + c)
      (concat (tabulate n (fun a =>
         concat (tabulate m (fun b => tabulate p (f a b)))))) 0%Q
  = f a b c.
Proof.
  intros Ha Hb Hc. apply nth_error_nth.
  replace (a * m * p + b * p + c) with (a * (m * p) + (b * p + c)) by nia.
  rewrite (concat_nth_error n (m * p)); [| | assumption | nia].
  - rewrite tabulate_nth by assumption.
    rewrite (concat_nth_error m p);
      [| apply tabulate_shaped2 | assumption | assumption].
    rewrite tabulate_nth by assumption.
    rewrite (nth_error_nth' _ 0%Q) by now rewrite tabulate_length.
    now rewrite tabulate_nth.
  - split; [apply tabulate_length|].
    apply Forall_forall. intros r Hr. unfold tabulate in Hr at 1.
    apply in_map_iff in Hr as (x & <- & _). apply concat_tabulate_length.
Qed.

Lemma flat3_length n m p (f : nat -> nat -> nat -> Q) :
  length (concat (tabulate n (fun a =>
            concat (tabulate m (fun b => tabulate p (f a b))))))
  = n * m * p.
Proof.
  rewrite (shaped2_concat_length n (m * p)); [lia|].
  split; [apply tabulate_length|].
  apply Forall_forall. intros r Hr. unfold tabulate in Hr at 1.
  apply in_map_iff in Hr as (x & <- & _). apply concat_tabulate_length.
Qed.

Lemma flat3_ext n m p (f : nat -> nat -> nat -> Q) (l : list Q) :
  length l = n * m * p ->
  (forall a b c, a < n -> b < m -> c < p ->
     f a b c = nth (a * m * p + b * p + c) l 0%Q) ->
  concat (tabulate n (fun a =>
    concat (tabulate m (fun b => tabulate p (f a b))))) = l.
Proof.
  intros Hl Hf. apply (nth_ext_shaped 0%Q (n * m * p));
    [apply flat3_length | assumption |].
  intros i Hi.
  assert (Hmp : m * p <> 0) by nia.
  assert (Hp : p <> 0) by nia.
  set (a := i / (m * p)). set (r := i mod (m * p)).
  set (b := r / p). set (c := r mod p).
  assert (Hi' : i = a * m * p + b * p + c).
  { pose proof (Nat.div_mod_eq i (m * p)). pose proof (Nat.div_mod_eq r p).
    fold a r in H. fold b c in H0. nia. }
  assert (Hr : r < m * p) by now apply Nat.mod_upper_bound.
  assert (Ha : a < n) by (apply Nat.Div0.div_lt_upper_bound; nia).
  assert (Hb : b < m) by (apply Nat.Div0.div_lt_upper_bound; nia).
  assert (Hc : c < p) by now apply Nat.mod_upper_bound.
  rewrite Hi'. rewrite nth_flat3 by assumption. now apply Hf.
Qed.

(** X24. [bth2bht] swaps the last two axes of a rank-3 tensor: a tensor of
    shape [[B, T, H]] becomes one of shape [[B, H, T]] whose entry
    [(b, h, t)] is entry [(b, t, h)] of the argument, and applying it twice
    gives the tensor back. *)
Theorem X24_bth2bht_swaps_and_undoes :
  forall (t : tensor) (B T H : nat),
    shape t = [B; T; H] -> length (data t) = B * T * H ->
    exists u,
      bth2bht t = Returns u /\ shape u = [B; H; T] /\
      length (data u) = B * H * T /\
      (forall b h' t', b < B -> h' < H -> t' < T ->
         nth (b * H * T + h' * T + t') (data u) 0%Q
         = nth (b * T * H + t' * H + h') (data t) 0%Q) /\
      bth2bht u = Returns t.
Proof.
  intros [s l] B T H Hs Hl. cbn [shape data] in *. subst s.
  unfold bth2bht, transpose. cbn [shape data andb negb Nat.ltb Nat.leb Nat.eqb nth].
  eexists. split; [reflexivity|]. cbn [shape data].
  split; [reflexivity|]. split; [apply flat3_length|]. split.
  - intros b h' t' Hb Hh Ht. rewrite nth_flat3 by assumption. reflexivity.
  - f_equal. f_equal. apply flat3_ext; [assumption|].
    intros a b c Ha Hb Hc. rewrite nth_flat3 by assumption. reflexivity.
Qed.

Lemma X24_witness :
  exists u,
    bth2bht {| shape := [1; 2; 3]; data := [1#1; 2#1; 3#1; 4#1; 5#1; 6#1] |}
    = Returns u /\
    shape u = [1; 3; 2] /\ nth 1 (data u) 0%Q = 4#1.
Proof.
  destruct (X24_bth2bht_swaps_and_undoes
              {| shape := [1; 2; 3]; data := [1#1; 2#1; 3#1; 4#1; 5#1; 6#1] |}
              1 2 3 eq_refl eq_refl) as (u & Hu & Hs & _ & He & _).
  exists u. split; [exact Hu|]. split; [exact Hs|].
  apply (He 0 0 1); lia.
Defined.

(** X25. [tbh2bth] swaps the first two axes of a rank-3 tensor: a tensor of
    shape [[T, B, H]] becomes one of shape [[B, T, H]] whose entry
    [(b, t, h)] is entry [(t, b, h)] of the argument, and applying it twice
    gives the tensor back. *)
Theorem X25_tbh2bth_swaps_and_undoes :
  forall (t : tensor) (T B H : nat),
    shape t = [T; B; H] -> length (data t) = T * B * H ->
    exists u,
      tbh2bth t = Returns u /\ shape u = [B; T; H] /\
      length (data u) = B * T * H /\
      (forall b t' h', b < B -> t' < T -> h' < H ->
         nth (b * T * H + t' * H + h') (data u) 0%Q
         = nth (t' * B * H + b * H + h') (data t) 0%Q) /\
      tbh2bth u = Returns t.
Proof.
  intros [s l] T B H Hs Hl. cbn [shape data] in *. subst s.
  unfold tbh2bth, transpose. cbn [shape data andb negb Nat.ltb Nat.leb Nat.eqb nth].
  eexists. split; [reflexivity|]. cbn [shape data].
  split; [reflexivity|]. split; [apply flat3_length|]. split.
  - intros b t' h' Hb Ht Hh. rewrite nth_flat3 by assumption. reflexivity.
  - f_equal. f_equal. apply flat3_ext; [assumption|].
    intros a b c Ha Hb Hc. rewrite nth_flat3 by assumption. reflexivity.
Qed.

Lemma X25_witness :
  exists u,
    tbh2bth {| shape := [2; 3; 1]; data := [1#1; 2#1; 3#1; 4#1; 5#1; 6#1] |}
    = Returns u /\
    shape u = [3; 2; 1] /\ nth 1 (data u) 0%Q = 4#1.
Proof.
  destruct (X25_tbh2bth_swaps_and_undoes
              {| shape := [2; 3; 1]; data := [1#1; 2#1; 3#1; 4#1; 5#1; 6#1] |}
              2 3 1 eq_refl eq_refl) as (u & Hu & Hs & _ & He & _).
  exists u. split; [exact Hu|]. split; [exact Hs|].
  apply (He 0 1 0); lia.
Defined.

(** ** The reader keeps words and vectors aligned *)

Lemma kept_aligned idx0 es st w v :
  aligned idx0 es st -> In (w, v) es ->
  dict_in (PretrainedEmbeddingsModel.vocab st) w = false ->
  aligned idx0 es (kept st (w, v)).
Proof.
  intros (Hlen & Hidx & Hnd & Hj) Hin Hfresh.
  unfold aligned.
  cbn [kept PretrainedEmbeddingsModel.word_vectors PretrainedEmbeddingsModel.vocab
       PretrainedEmbeddingsModel.idx fst snd].
  rewrite dict_set_fresh by assumption.
  rewrite !length_app. cbn [length].
  split; [lia|]. split; [lia|]. split.
  - unfold keys. rewrite map_app. cbn [map fst].
    apply NoDup_app; [assumption | repeat constructor; intros [] |].
    intros k Hk [<- | []]. now apply dict_in_keys in Hfresh.
  - intros j Hlt.
    destruct (Nat.lt_ge_cases j (length (PretrainedEmbeddingsModel.vocab st)))
      as [Hold | Hnew].
    + rewrite !app_nth1 by lia. now apply Hj.
    + assert (j = length (PretrainedEmbeddingsModel.vocab st)) as -> by lia.
      rewrite app_nth2, Nat.sub_diag by lia.
      rewrite <- Hlen. rewrite app_nth2, Nat.sub_diag by lia.
      cbn [nth fst snd]. split; [lia | assumption].
Qed.

Lemma absorbed_aligned keep_unused idx0 es st wv :
  aligned idx0 es st -> In wv es ->
  aligned idx0 es (absorbed keep_unused st wv).
Proof.
  intros Ha Hin. unfold absorbed.
  destruct (dict_in (PretrainedEmbeddingsModel.vocab st) (fst wv)) eqn:E;
    [assumption|].
  destruct (_ && _); [assumption|].
  destruct wv as [w v]. now apply kept_aligned.
Qed.

Lemma fold_absorbed_aligned keep_unused idx0 es es' st :
  aligned idx0 es st -> (forall wv, In wv es' -> In wv es) ->
  aligned idx0 es (fold_left (absorbed keep_unused) es' st).
Proof.
  revert st. induction es' as [|wv es' IH]; intros st Ha Hsub; [assumption|].
  cbn [fold_left]. apply IH.
  - apply absorbed_aligned; [assumption|]. apply Hsub. now left.
  - intros x Hx. apply Hsub. now right.
Qed.

(** X26. Whatever the file repeats and whatever [known_vocab] filters out,
    the reader returns a vocabulary and a list of vectors that go together:
    no word is held twice (a word met again is passed over), the [j]-th word
    of the vocabulary has index [idx + j], there are as many vectors as
    words, and the [j]-th vector is one the file gives for the [j]-th
    word. *)
Theorem X26_reader_keeps_words_and_vectors_aligned :
  forall (VALUES : list word) (words : list word) (vectors : list (list float32))
         (file : list Z) (idx : Z) (known_vocab : option (dict Z))
         (keep_unused : bool),
    write_word2vec_file VALUES (inr words) vectors = Returns file ->
    (forall w, In w words ->
       ~ In 32%Z w /\ utf8_valid w = true /\ strip w = w) ->
    (forall v, In v vectors -> length v = length (nth 0 vectors [])) ->
    keep_unused = true \/ known_vocab <> None ->
    exists st,
      PretrainedEmbeddingsModel._read_word2vec_file [] file idx known_vocab
                                                    keep_unused
      = Some (Returns (st, Z.of_nat (length (nth 0 vectors [])))) /\
      aligned idx (combine words vectors) st.
Proof.
  intros VALUES words vectors file idx kv ku Hw Hwords Hvec Hkv.
  apply write_list_inv in Hw as (Hne & Hlen & ->).
  set (dsz := length (nth 0 vectors [])) in *.
  set (es := combine words vectors).
  assert (Hes : length es = length words)
    by (unfold es; rewrite length_combine; lia).
  assert (Hclean : Forall (clean_entry dsz) es).
  { apply Forall_forall. intros [w v] Hin. unfold clean_entry. cbn [fst snd].
    pose proof (in_combine_l _ _ _ _ Hin) as Hw.
    pose proof (in_combine_r _ _ _ _ Hin) as Hv.
    destruct (Hwords w Hw) as (H1 & H2 & H3). auto. }
  set (st0 := {| PretrainedEmbeddingsModel.word_vectors := [];
                 PretrainedEmbeddingsModel.vocab := [];
                 PretrainedEmbeddingsModel.known_vocab := kv;
                 PretrainedEmbeddingsModel.idx := idx |}).
  exists (fold_left (absorbed ku) es st0). split.
  - rewrite read_header. fold st0.
    replace (length words) with (length es + 0) by lia.
    match goal with
    | |- match ?X with _ => _ end = _ =>
        replace X with (Some (Returns (fold_left (absorbed ku) es st0)))
    end; [reflexivity|].
    symmetry. rewrite <- (app_nil_r (flat_map _ es)).
    now apply (read_body_any dsz ku es 0 [] st0).
  - apply fold_absorbed_aligned; [|auto].
    unfold aligned, st0. cbn [PretrainedEmbeddingsModel.word_vectors
      PretrainedEmbeddingsModel.vocab PretrainedEmbeddingsModel.idx length keys map].
    split; [reflexivity|]. split; [lia|]. split; [constructor|].
    intros j Hj. inversion Hj.
Qed.

Lemma X26_witness :
  exists st,
    PretrainedEmbeddingsModel._read_word2vec_file []
      [50; 32; 49; 10; 104; 105; 32; 1; 2; 3; 4; 104; 105; 32; 5; 6; 7; 8]%Z
      4 None true
    = Some (Returns (st, 1%Z)) /\
    aligned 4 [([104; 105], [(1, 2, 3, 4)]); ([104; 105], [(5, 6, 7, 8)])]%Z st.
Proof.
  apply (X26_reader_keeps_words_and_vectors_aligned [] [[104; 105]; [104; 105]]%Z
           [[(1, 2, 3, 4)]; [(5, 6, 7, 8)]]%Z
           [50; 32; 49; 10; 104; 105; 32; 1; 2; 3; 4; 104; 105; 32; 5; 6; 7; 8]%Z
           4 None true eq_refl).
  - intros w [<- | [<- | []]]; (split; [|split; reflexivity]);
      simpl; intuition discriminate.
  - intros v [<- | [<- | []]]; reflexivity.
  - now left.
Defined.
